(** * kmapper: the Karnaugh-map core (src/kmap_core.c, src/kmap_core.h)

    A shallow embedding of the grouping engine, the redundancy reducer, the
    validators and the expression renderer, followed by the properties the
    specification states about them.

    Conventions of the embedding.
    - [uint64_t] and [uint8_t] values are non-negative [Z]; where the C
      operation can leave the width ([~] on a 64-bit word, the narrowing of
      an [int] to [uint8_t]) the wrap-around is written out.
    - A cell index is a [Z]; the loops [for (c = a; c < b; c++)] run over the
      list [range a b].
    - [implicants[MAX_GROUPS]] together with [implicant_count] is the list of
      the first [implicant_count] slots: no function of the program reads a
      slot at or beyond [implicant_count].
    - A pointer argument is an [option]: [None] is the null pointer. *)

From Stdlib Require Import ZArith List Bool Lia.
From Stdlib Require String Ascii.
Import ListNotations.
Local Open Scope Z_scope.
Local Open Scope bool_scope.

(* ------------------------------------------------------------------ *)
(** ** Machine words *)

Module Bits.

Definition mask64 : Z := Z.ones 64.

(** [~x] on a [uint64_t]. *)
Definition not64 (x : Z) : Z := Z.land (Z.lnot x) mask64.

(** Narrowing conversion to [uint8_t]. *)
Definition u8 (x : Z) : Z := x mod 256.

(** [1ULL << c], for a count [c] below the width. *)
Definition bit (c : Z) : Z := Z.shiftl 1 c.

(** The test [x & (1ULL << c)] used as a condition. *)
Definition has (x c : Z) : bool := negb (Z.land x (bit c) =? 0).

(** [for (c = a; c < b; c++)]. *)
Definition range (a b : Z) : list Z :=
  map (fun k => a + Z.of_nat k) (seq 0 (Z.to_nat (b - a))).

(** [__builtin_popcountll]. *)
Definition popcount (v : Z) : Z :=
  Z.of_nat (length (filter (Z.testbit v) (range 0 64))).

(** [__builtin_ctzll]; the builtin has no defined result at 0, where this
    definition answers 64. *)
Definition ctz (v : Z) : Z :=
  match find (Z.testbit v) (range 0 64) with
  | Some i => i
  | None => 64
  end.

(** A left shift of a [uint64_t] by a count at or above the width is
    undefined in C.  [C_undefined] gives it no result; [Count_mod_64] is what
    the shift instructions of x86-64 and AArch64 compute, which use the count
    modulo 64. *)
Inductive shift_model : Type := C_undefined | Count_mod_64.

Definition shl64 (sm : shift_model) (x n : Z) : option Z :=
  if n <? 64 then Some ((x * 2 ^ n) mod 2 ^ 64)
  else match sm with
       | C_undefined => None
       | Count_mod_64 => Some ((x * 2 ^ (n mod 64)) mod 2 ^ 64)
       end.

End Bits.
Import Bits.

(* ------------------------------------------------------------------ *)
(** ** Data model (kmap_core.h) *)

Definition MAX_VARIABLES : Z := 6.
Definition MAX_GROUPS : Z := 32.

Record truth_table_t : Type := {
  minterms : Z;
  dont_cares : Z;
  num_vars : Z;
  minterm_count : Z
}.

Record implicant_t : Type := {
  covered_minterms : Z;
  literal_mask : Z;
  literal_values : Z;
  size : Z
}.

Record solution_t : Type := {
  implicants : list implicant_t;
  literal_count : Z;
  term_count : Z
}.

Definition implicant_count (s : solution_t) : Z :=
  Z.of_nat (length (implicants s)).

(** [memset(solution, 0, sizeof(solution_t))]. *)
Definition zero_solution : solution_t :=
  {| implicants := []; literal_count := 0; term_count := 0 |}.

(* ------------------------------------------------------------------ *)
(** ** Adjacency oracle *)

Definition are_adjacent (cell1 cell2 num_vars : Z) : bool :=
  if (cell1 >=? Z.shiftl 1 num_vars) || (cell2 >=? Z.shiftl 1 num_vars)
  then false
  else
    let diff := u8 (Z.lxor cell1 cell2) in
    popcount diff =? 1.

(* ------------------------------------------------------------------ *)
(** ** Validation *)

(** [None] is a null pointer for the argument and an undefined shift for the
    result. *)
Definition validate_truth_table (sm : shift_model)
    (table : option truth_table_t) : option bool :=
  match table with
  | None => Some false
  | Some t =>
    if (num_vars t <? 2) || (num_vars t >? MAX_VARIABLES) then Some false
    else
      match shl64 sm 1 (Z.shiftl 1 (num_vars t)) with
      | None => None
      | Some w =>
        let max_mask := (w - 1) mod 2 ^ 64 in
        if negb (Z.land (minterms t) (dont_cares t) =? 0) then Some false
        else if negb (Z.land (Z.lor (minterms t) (dont_cares t))
                             (not64 max_mask) =? 0) then Some false
        else if negb (minterm_count t =? popcount (minterms t))
             then Some false
        else Some true
      end
  end.

(** The accumulation loop of [validate_solution]. *)
Definition covered_union (imps : list implicant_t) : Z :=
  fold_left (fun covered g => Z.lor covered (covered_minterms g)) imps 0.

Definition validate_solution (sm : shift_model)
    (table : option truth_table_t) (solution : option solution_t)
  : option bool :=
  match table, solution with
  | Some t, Some s =>
    match validate_truth_table sm table with
    | None => None
    | Some false => Some false
    | Some true => Some (covered_union (implicants s) =? minterms t)
    end
  | _, _ => Some false
  end.

(* ------------------------------------------------------------------ *)
(** ** Grouping engine *)

(** The locals of [find_groups_with_dont_cares]; [groups] holds the slots
    below [*group_count]. *)
Record gstate : Type := {
  remaining_minterms : Z;
  available_for_grouping : Z;
  groups : list implicant_t
}.

Definition group_count (st : gstate) : Z := Z.of_nat (length (groups st)).

(** The implicant the pair pass writes for [cell1], [cell2]. *)
Definition pair_implicant (minterms num_vars cell1 cell2 : Z) : implicant_t :=
  let diff := u8 (Z.lxor cell1 cell2) in
  let group_mask := Z.lor (bit cell1) (bit cell2) in
  let cov := Z.land group_mask minterms in
  let lmask := u8 (Z.land (Z.shiftl 1 num_vars - 1) (Z.lnot diff)) in
  {| covered_minterms := cov;
     literal_mask := lmask;
     literal_values := u8 (Z.land cell1 lmask);
     size := popcount cov |}.

(** Emission: the write at [groups[*group_count]], the increment and the two
    pool updates. *)
Definition emit (g : implicant_t) (group_mask : Z) (st : gstate) : gstate :=
  {| remaining_minterms :=
       Z.land (remaining_minterms st) (not64 (covered_minterms g));
     available_for_grouping :=
       Z.land (available_for_grouping st) (not64 group_mask);
     groups := groups st ++ [g] |}.

(** The inner loop of the pair pass over the remaining values of [cell2]. *)
Fixpoint pair_scan (minterms num_vars cell1 : Z) (st : gstate)
    (cell2s : list Z) : gstate :=
  match cell2s with
  | [] => st
  | cell2 :: rest =>
    if negb (has (available_for_grouping st) cell2)
    then pair_scan minterms num_vars cell1 st rest
    else if are_adjacent cell1 cell2 num_vars then
      let g := pair_implicant minterms num_vars cell1 cell2 in
      if negb (covered_minterms g =? 0)
      then emit g (Z.lor (bit cell1) (bit cell2)) st
      else pair_scan minterms num_vars cell1 st rest
    else pair_scan minterms num_vars cell1 st rest
  end.

Definition pair_body (minterms num_vars total_cells cell1 : Z) (st : gstate)
  : gstate :=
  if negb (has (available_for_grouping st) cell1) then st
  else if negb (has (remaining_minterms st) cell1) then st
  else pair_scan minterms num_vars cell1 st (range (cell1 + 1) total_cells).

(** The first loop, with the capacity [cap] in its condition. *)
Fixpoint pair_pass (cap minterms num_vars total_cells : Z) (cell1s : list Z)
    (st : gstate) : gstate :=
  match cell1s with
  | [] => st
  | cell1 :: rest =>
    if group_count st <? cap
    then pair_pass cap minterms num_vars total_cells rest
           (pair_body minterms num_vars total_cells cell1 st)
    else st
  end.

Definition is_valid_4cell_group (c1 c2 c3 c4 num_vars : Z) : bool :=
  let diff1 := u8 (Z.lxor c1 c2) in
  let diff2 := u8 (Z.lxor c1 c3) in
  let diff3 := u8 (Z.lxor c1 c4) in
  negb (diff1 =? 0) && negb (diff2 =? 0) && negb (diff3 =? 0) &&
  ((Z.land diff1 diff2 =? 0) || (Z.land diff1 diff3 =? 0)
   || (Z.land diff2 diff3 =? 0)).

(** The implicant the quad pass writes, when it writes one. *)
Definition quad_implicant (minterms num_vars c1 c2 c3 c4 : Z) : implicant_t :=
  let group_mask := Z.lor (Z.lor (Z.lor (bit c1) (bit c2)) (bit c3)) (bit c4) in
  let diff_bits := u8 (Z.lxor (Z.lxor (Z.lxor c1 c2) c3) c4) in
  let cov := Z.land group_mask minterms in
  let lmask := u8 (Z.land (Z.shiftl 1 num_vars - 1) (Z.lnot diff_bits)) in
  {| covered_minterms := cov;
     literal_mask := lmask;
     literal_values := u8 (Z.land c1 lmask);
     size := popcount cov |}.

(** The three inner loops of the quad pass.  The pools do not change until
    the [goto], so each loop is a search for the first hit: the implicant and
    its [group_mask]. *)
Fixpoint quad_scan4 (minterms avail num_vars c1 c2 c3 : Z) (cell4s : list Z)
  : option (implicant_t * Z) :=
  match cell4s with
  | [] => None
  | c4 :: rest =>
    if negb (has avail c4) then quad_scan4 minterms avail num_vars c1 c2 c3 rest
    else
      let group_mask :=
        Z.lor (Z.lor (Z.lor (bit c1) (bit c2)) (bit c3)) (bit c4) in
      let diff_bits := u8 (Z.lxor (Z.lxor (Z.lxor c1 c2) c3) c4) in
      if (popcount diff_bits =? 2) && is_valid_4cell_group c1 c2 c3 c4 num_vars
      then
        if negb (Z.land group_mask minterms =? 0)
        then Some (quad_implicant minterms num_vars c1 c2 c3 c4, group_mask)
        else quad_scan4 minterms avail num_vars c1 c2 c3 rest
      else quad_scan4 minterms avail num_vars c1 c2 c3 rest
  end.

Fixpoint quad_scan3 (minterms avail num_vars total_cells c1 c2 : Z)
    (cell3s : list Z) : option (implicant_t * Z) :=
  match cell3s with
  | [] => None
  | c3 :: rest =>
    if negb (are_adjacent c1 c3 num_vars) && negb (are_adjacent c2 c3 num_vars)
    then quad_scan3 minterms avail num_vars total_cells c1 c2 rest
    else if negb (has avail c3)
    then quad_scan3 minterms avail num_vars total_cells c1 c2 rest
    else
      match quad_scan4 minterms avail num_vars c1 c2 c3
              (range (c3 + 1) total_cells) with
      | Some r => Some r
      | None => quad_scan3 minterms avail num_vars total_cells c1 c2 rest
      end
  end.

Fixpoint quad_scan2 (minterms avail num_vars total_cells c1 : Z)
    (cell2s : list Z) : option (implicant_t * Z) :=
  match cell2s with
  | [] => None
  | c2 :: rest =>
    if negb (are_adjacent c1 c2 num_vars)
    then quad_scan2 minterms avail num_vars total_cells c1 rest
    else if negb (has avail c2)
    then quad_scan2 minterms avail num_vars total_cells c1 rest
    else
      match quad_scan3 minterms avail num_vars total_cells c1 c2
              (range (c2 + 1) total_cells) with
      | Some r => Some r
      | None => quad_scan2 minterms avail num_vars total_cells c1 rest
      end
  end.

Definition quad_body (minterms num_vars total_cells cell1 : Z) (st : gstate)
  : gstate :=
  if negb (has (remaining_minterms st) cell1) then st
  else
    match quad_scan2 minterms (available_for_grouping st) num_vars total_cells
            cell1 (range (cell1 + 1) total_cells) with
    | Some (g, group_mask) => emit g group_mask st
    | None => st
    end.

Fixpoint quad_pass (cap minterms num_vars total_cells : Z) (cell1s : list Z)
    (st : gstate) : gstate :=
  match cell1s with
  | [] => st
  | cell1 :: rest =>
    if (group_count st <? cap) && negb (remaining_minterms st =? 0)
    then quad_pass cap minterms num_vars total_cells rest
           (quad_body minterms num_vars total_cells cell1 st)
    else st
  end.

Definition single_implicant (num_vars cell : Z) : implicant_t :=
  {| covered_minterms := bit cell;
     literal_mask := u8 (Z.shiftl 1 num_vars - 1);
     literal_values := cell;
     size := 1 |}.

(** The final pass; it leaves both pools as they are. *)
Fixpoint single_pass (cap num_vars : Z) (cells : list Z) (st : gstate)
  : gstate :=
  match cells with
  | [] => st
  | cell :: rest =>
    if group_count st <? cap
    then single_pass cap num_vars rest
           (if has (remaining_minterms st) cell
            then {| remaining_minterms := remaining_minterms st;
                    available_for_grouping := available_for_grouping st;
                    groups := groups st ++ [single_implicant num_vars cell] |}
            else st)
    else st
  end.

Definition initial_gstate (minterms dont_cares : Z) : gstate :=
  {| remaining_minterms := minterms;
     available_for_grouping := Z.lor minterms dont_cares;
     groups := [] |}.

(** The engine with the capacity as a parameter; the program fixes it to
    [MAX_GROUPS]. *)
Definition find_groups_cap (cap minterms dont_cares num_vars : Z) : gstate :=
  let total_cells := Z.shiftl 1 num_vars in
  let cells := range 0 total_cells in
  let st1 := pair_pass cap minterms num_vars total_cells cells
               (initial_gstate minterms dont_cares) in
  let st2 := quad_pass cap minterms num_vars total_cells cells st1 in
  single_pass cap num_vars cells st2.

Definition find_groups_with_dont_cares (minterms dont_cares num_vars : Z)
  : list implicant_t :=
  groups (find_groups_cap MAX_GROUPS minterms dont_cares num_vars).

(* ------------------------------------------------------------------ *)
(** ** Redundancy reducer *)

Definition zero_implicant : implicant_t :=
  {| covered_minterms := 0; literal_mask := 0; literal_values := 0;
     size := 0 |}.

(** [arr[i]]. *)
Definition slot (arr : list implicant_t) (i : nat) : implicant_t :=
  nth i arr zero_implicant.

(** [arr[i] = x]; a write past the end does not occur in the program. *)
Fixpoint store (i : nat) (x : implicant_t) (arr : list implicant_t)
  : list implicant_t :=
  match arr, i with
  | [], _ => []
  | _ :: tl, O => x :: tl
  | hd :: tl, S i' => hd :: store i' x tl
  end.

Definition set_size (g : implicant_t) (s : Z) : implicant_t :=
  {| covered_minterms := covered_minterms g;
     literal_mask := literal_mask g;
     literal_values := literal_values g;
     size := s |}.

(** The test of the inner loop for one [j], on the array as it is now. *)
Definition covers_now (arr : list implicant_t) (i j : nat) : bool :=
  negb ((i =? j)%nat || (size (slot arr j) =? 0))
  && (Z.land (covered_minterms (slot arr i)) (covered_minterms (slot arr j))
      =? covered_minterms (slot arr i))
  && (size (slot arr j) >? size (slot arr i)).

(** Whether the inner loop over [j] reaches the marking statement. *)
Definition redundant_now (arr : list implicant_t) (count i : nat) : bool :=
  existsb (covers_now arr i) (seq 0 count).

(** The marking sweep, in place. *)
Fixpoint sweep_loop (count : nat) (idxs : list nat) (arr : list implicant_t)
  : list implicant_t :=
  match idxs with
  | [] => arr
  | i :: rest =>
    if size (slot arr i) =? 0 then sweep_loop count rest arr
    else if redundant_now arr count i
    then sweep_loop count rest (store i (set_size (slot arr i) 0) arr)
    else sweep_loop count rest arr
  end.

(** The compaction loop, in place; it returns [write_pos] and the array. *)
Fixpoint compact_loop (read_positions : list nat) (write_pos : nat)
    (arr : list implicant_t) : nat * list implicant_t :=
  match read_positions with
  | [] => (write_pos, arr)
  | read_pos :: rest =>
    if size (slot arr read_pos) >? 0
    then compact_loop rest (S write_pos)
           (if negb (write_pos =? read_pos)%nat
            then store write_pos (slot arr read_pos) arr
            else arr)
    else compact_loop rest write_pos arr
  end.

Definition sweep (imps : list implicant_t) : list implicant_t :=
  sweep_loop (length imps) (seq 0 (length imps)) imps.

Definition remove_redundant_implicants (s : solution_t) : solution_t :=
  let count := length (implicants s) in
  let '(write_pos, arr) := compact_loop (seq 0 count) 0 (sweep (implicants s)) in
  {| implicants := firstn write_pos arr;
     literal_count := literal_count s;
     term_count := term_count s |}.

(* ------------------------------------------------------------------ *)
(** ** Main entry point *)

(** The statistics loop: [literal_count += popcount(literal_mask)] on a
    [uint8_t]. *)
Definition count_literals (imps : list implicant_t) : Z :=
  fold_left (fun acc g => u8 (acc + popcount (literal_mask g))) imps 0.

(** The result is the return code and the content of [*solution] afterwards;
    [None] for the whole result is an undefined shift in the validation. *)
Definition find_prime_implicants (sm : shift_model)
    (table : option truth_table_t) (solution : option solution_t)
  : option (Z * option solution_t) :=
  match table, solution with
  | Some t, Some _ =>
    match validate_truth_table sm table with
    | None => None
    | Some false => Some (-2, solution)
    | Some true =>
      if minterm_count t =? 0 then Some (0, Some zero_solution)
      else if minterm_count t =? 1 then
        let minterm_pos := ctz (minterms t) in
        Some (0, Some {| implicants :=
                           [ {| covered_minterms := bit minterm_pos;
                                literal_mask :=
                                  u8 (Z.shiftl 1 (num_vars t) - 1);
                                literal_values := minterm_pos;
                                size := 1 |} ];
                         literal_count := 0;
                         term_count := 0 |})
      else
        let found :=
          {| implicants :=
               find_groups_with_dont_cares (minterms t) (dont_cares t)
                 (num_vars t);
             literal_count := 0;
             term_count := 0 |} in
        let reduced := remove_redundant_implicants found in
        Some (0, Some {| implicants := implicants reduced;
                         literal_count := count_literals (implicants reduced);
                         term_count := implicant_count reduced |})
    end
  | _, _ => Some (-1, solution)
  end.

(* ------------------------------------------------------------------ *)
(** ** Expression renderer *)

Module Render.
Import String Ascii.

(** The state of a rendering that can return early: the text in [output]
    and, once the function has returned in the middle, the code. *)
Inductive step (A : Type) : Type :=
| Go (a : A)
| Stop (code : Z) (output : string).
Arguments Go {A} a.
Arguments Stop {A} code output.

Definition bind {A B : Type} (m : step A) (k : A -> step B) : step B :=
  match m with
  | Go a => k a
  | Stop code output => Stop code output
  end.

Notation "x <- m ;; k" := (bind m (fun x => k))
  (at level 61, m at next level, right associativity).

Definition strlen (s : string) : Z := Z.of_nat (String.length s).

(** [if ((int)strlen(output) + k >= output_len) return -3; strcat(output, tok)]. *)
Definition put (k : Z) (tok : string) (output_len : Z) (output : string)
  : step string :=
  if strlen output + k >=? output_len then Stop (-3) output
  else Go (output ++ tok)%string.

(** [strncpy(output, src, output_len - 1); output[output_len - 1] = 0]. *)
Definition strncpy_terminated (src : string) (output_len : Z) : string :=
  substring 0 (Z.to_nat (output_len - 1)) src.

Definition var_names : string := "ABCDEFGH"%string.

Definition var_str (var : Z) : string :=
  match get (Z.to_nat var) var_names with
  | Some c => String c EmptyString
  | None => EmptyString
  end.

(** The loop over [var] inside one term; the state is [output] and
    [first_literal]. *)
Fixpoint literals (imp : implicant_t) (output_len : Z) (vars : list Z)
    (output : string) (first_literal : bool) : step (string * bool) :=
  match vars with
  | [] => Go (output, first_literal)
  | var :: rest =>
    let var_bit := u8 (Z.shiftl 1 var) in
    if negb (Z.land (literal_mask imp) var_bit =? 0) then
      o1 <- (if negb first_literal then put 1 "&"%string output_len output
             else Go output) ;;
      o2 <- (if Z.land (literal_values imp) var_bit =? 0
             then put 2 "~"%string output_len o1 else Go o1) ;;
      o3 <- put 2 (var_str var) output_len o2 ;;
      literals imp output_len rest o3 false
    else literals imp output_len rest output first_literal
  end.

(** The loop over the implicants; [i] is the index of the head of [imps]. *)
Fixpoint terms (num_vars output_len : Z) (i : Z) (imps : list implicant_t)
    (output : string) : step string :=
  match imps with
  | [] => Go output
  | imp :: rest =>
    o1 <- (if i >? 0 then put 3 " + "%string output_len output else Go output) ;;
    r <- literals imp output_len (range 0 num_vars) o1 true ;;
    o2 <- (if snd r then put 2 "1"%string output_len (fst r) else Go (fst r)) ;;
    terms num_vars output_len (i + 1) rest o2
  end.

(** The result is the return code and the text in [output] afterwards (the
    text before the call when the function does not write). *)
Definition generate_sop_expression (solution : option solution_t)
    (num_vars : Z) (output : option string) (output_len : Z)
  : Z * option string :=
  match solution, output with
  | Some s, Some before =>
    if output_len <=? 0 then (-1, output)
    else if num_vars >? 8 then (-2, output)
    else if implicant_count s =? 0
    then (0, Some (strncpy_terminated "0"%string output_len))
    else
      match terms num_vars output_len 0 (implicants s) EmptyString with
      | Stop code text => (code, Some text)
      | Go text =>
        if strlen text =? 0
        then (0, Some (strncpy_terminated "1"%string output_len))
        else (0, Some text)
      end
  | _, _ => (-1, output)
  end.

(** The complete text of the loops, as a buffer without bound receives it:
    the same loops with every append taken. *)
Fixpoint literals_text (imp : implicant_t) (vars : list Z) (output : string)
    (first_literal : bool) : string * bool :=
  match vars with
  | [] => (output, first_literal)
  | var :: rest =>
    let var_bit := u8 (Z.shiftl 1 var) in
    if negb (Z.land (literal_mask imp) var_bit =? 0) then
      let o1 := if negb first_literal then (output ++ "&")%string
                else output in
      let o2 := if Z.land (literal_values imp) var_bit =? 0
                then (o1 ++ "~")%string else o1 in
      literals_text imp rest (o2 ++ var_str var)%string false
    else literals_text imp rest output first_literal
  end.

Fixpoint terms_text (num_vars : Z) (i : Z) (imps : list implicant_t)
    (output : string) : string :=
  match imps with
  | [] => output
  | imp :: rest =>
    let o1 := if i >? 0 then (output ++ " + ")%string else output in
    let r := literals_text imp (range 0 num_vars) o1 true in
    let o2 := if snd r then (fst r ++ "1")%string else fst r in
    terms_text num_vars (i + 1) rest o2
  end.

Definition expression (num_vars : Z) (imps : list implicant_t) : string :=
  terms_text num_vars 0 imps EmptyString.

(** [b] continues [a]. *)
Definition extends (a b : string) : Prop := exists r, b = (a ++ r)%string.

(** What a rendering step may do with a buffer of [len] bytes when [full] is
    what it would append to without bound: finish with [full], or return -3
    on the first token that the check refuses, leaving a proper prefix of
    the text of [full]. *)
Definition runs {A : Type} (txt : A -> string) (len : Z) (m : step A)
    (full : A) : Prop :=
  match m with
  | Go a => a = full /\ strlen (txt a) < len
  | Stop code text =>
    code = -3 /\ strlen text < len <= strlen text + 3 /\
    exists rest, rest <> EmptyString /\ txt full = (text ++ rest)%string
  end.

End Render.
Import Render.

(* ------------------------------------------------------------------ *)
(** ** The invariants of section 3 of the specification *)

(** A bitset given by the list of its members. *)
Definition bits_of (l : list Z) : Z :=
  fold_right (fun c acc => Z.lor (bit c) acc) 0 l.

(** [numVars] in [2,6]; the two sets disjoint; both inside the domain of
    [2^numVars] cells; the declared count equal to the population count. *)
Definition valid_table (t : truth_table_t) : Prop :=
  2 <= num_vars t <= 6 /\
  Z.land (minterms t) (dont_cares t) = 0 /\
  0 <= minterms t < 2 ^ (2 ^ num_vars t) /\
  0 <= dont_cares t < 2 ^ (2 ^ num_vars t) /\
  minterm_count t = popcount (minterms t).

(* ------------------------------------------------------------------ *)
(** ** The specification's side, the invariants of the loops and the
    tables of the scenarios *)

(** A test on every pair of cells below 64, for each number of variables
    from 2 to 6. *)
Definition cell_check (P : Z -> Z -> Z -> bool) : bool :=
  forallb (fun n =>
    forallb (fun c => forallb (fun d => P n c d) (range 0 64)) (range 0 64))
    (range 2 7).

(** The tests that the facts on cells come from: an even cell and its
    successor; the fields of a pair; the fields of a single cell. *)
Definition block_ok (n c d : Z) : bool :=
  implb ((c <? 2 ^ n) && Z.even c) (are_adjacent c (c + 1) n).

Definition pair_ok (n c d : Z) : bool :=
  implb (are_adjacent c d n)
    ((c <? 2 ^ n) && (d <? 2 ^ n) && negb (c =? d)
     && (popcount (literal_mask (pair_implicant 0 n c d)) =? n - 1)
     && (Z.land c (literal_mask (pair_implicant 0 n c d))
         =? literal_values (pair_implicant 0 n c d))
     && (Z.land d (literal_mask (pair_implicant 0 n c d))
         =? literal_values (pair_implicant 0 n c d))).

Definition single_ok (n c d : Z) : bool :=
  implb (c <? 2 ^ n)
    ((popcount (literal_mask (single_implicant n c)) =? n)
     && (Z.land c (literal_mask (single_implicant n c))
         =? literal_values (single_implicant n c))).

(** The pools stay inside the domain, the required minterms still to cover
    are the required minterms still in the pool, and what the groups cover
    together with what remains is the set of minterms. *)
Definition pools_ok (M n : Z) (st : gstate) : Prop :=
  (forall i, Z.testbit (available_for_grouping st) i = true -> 0 <= i < 2 ^ n)
  /\ (forall i, 0 <= i ->
        Z.testbit (remaining_minterms st) i
        = Z.testbit (available_for_grouping st) i && Z.testbit M i)
  /\ (forall i, 0 <= i ->
        Z.testbit (covered_union (groups st)) i
        || Z.testbit (remaining_minterms st) i = Z.testbit M i).

(** A group written by the pair pass. *)
Definition pair_shaped (M n : Z) (g : implicant_t) : Prop :=
  exists c d, 0 <= c < d /\ d < 2 ^ n /\ are_adjacent c d n = true /\
              Z.testbit M c = true /\ g = pair_implicant M n c d.

(** Every cell below [c] that is still required has no adjacent cell of
    higher index left in the pool. *)
Definition settled (n c : Z) (st : gstate) : Prop :=
  forall e, 0 <= e < c -> Z.testbit (remaining_minterms st) e = true ->
  forall d, e < d < 2 ^ n -> are_adjacent e d n = true ->
  Z.testbit (available_for_grouping st) d = false.

(** Whether the block [{2k, 2k+1}] holds a cell of [rem]. *)
Definition block_has (rem k : Z) : bool :=
  Z.testbit rem (2 * k) || Z.testbit rem (2 * k + 1).

(** The number of those blocks among the 32. *)
Definition rem_blocks (rem : Z) : Z :=
  Z.of_nat (length (filter (block_has rem) (range 0 32))).

(** The groups written and the blocks that still hold a required cell fit
    together in 32. *)
Definition within_budget (st : gstate) : Prop :=
  group_count st + rem_blocks (remaining_minterms st) <= 32.

(** The first loop without the capacity in its condition. *)
Definition pair_free (M n total : Z) (cells : list Z) (st : gstate) : gstate :=
  fold_left (fun s c => pair_body M n total c s) cells st.

(** What holds between two iterations of the first loop, [c] being the next
    cell. *)
Definition pair_inv (M n c : Z) (st : gstate) : Prop :=
  pools_ok M n st /\ Forall (pair_shaped M n) (groups st)
  /\ settled n c st /\ within_budget st.

(** The state the final pass returns when the capacity is enough for every
    cell that remains. *)
Definition with_singles (n : Z) (cells : list Z) (st : gstate) : gstate :=
  {| remaining_minterms := remaining_minterms st;
     available_for_grouping := available_for_grouping st;
     groups := groups st
               ++ map (single_implicant n)
                    (filter (Z.testbit (remaining_minterms st)) cells) |}.

(** The sweep as the specification words it: implicant [i] is marked when
    some other implicant [j] that is not removed covers the minterms of [i]
    and is larger, every judgment made on the solution as it was before the
    sweep. *)
Definition spec_subsumed (imps : list implicant_t) (i : nat) : bool :=
  existsb (fun j =>
             negb (j =? i)%nat
             && negb (size (slot imps j) =? 0)
             && (Z.land (covered_minterms (slot imps i))
                        (covered_minterms (slot imps j))
                 =? covered_minterms (slot imps i))
             && (size (slot imps i) <? size (slot imps j)))
          (seq 0 (length imps)).

(** The implicant at [i] after the sweep of the specification. *)
Definition spec_mark (imps : list implicant_t) (i : nat) : implicant_t :=
  if spec_subsumed imps i then set_size (slot imps i) 0 else slot imps i.

(** The whole solution after that sweep. *)
Definition spec_sweep (imps : list implicant_t) : list implicant_t :=
  map (spec_mark imps) (seq 0 (length imps)).

(** The survivors, in their order. *)
Definition spec_reduce (imps : list implicant_t) : list implicant_t :=
  filter (fun g => negb (size g =? 0)) (spec_sweep imps).

(** What holds of the array between two iterations of the sweep, [t] being
    the next index: the slots below [t] are marked as the specification says,
    the others are as they were, and every implicant that was not removed
    before the sweep is covered by one at least as large that is not removed
    now. *)
Definition sweep_inv (imps arr : list implicant_t) (t : nat) : Prop :=
  length arr = length imps
  /\ (forall i, (i < t)%nat -> (i < length imps)%nat ->
                slot arr i = spec_mark imps i)
  /\ (forall i, (t <= i)%nat -> slot arr i = slot imps i)
  /\ (forall j, (j < length imps)%nat -> size (slot imps j) <> 0 ->
        exists k, (k < length imps)%nat /\ slot arr k = slot imps k /\
                  size (slot imps k) <> 0 /\
                  Z.land (covered_minterms (slot imps j))
                         (covered_minterms (slot imps k))
                  = covered_minterms (slot imps j) /\
                  (k = j \/ size (slot imps j) < size (slot imps k))).

(** A group written by the final pass, or by the shortcut of the entry point
    for a single minterm. *)
Definition single_shaped (M n : Z) (g : implicant_t) : Prop :=
  exists c, 0 <= c < 2 ^ n /\ Z.testbit M c = true /\ g = single_implicant n c.

(** The two shapes of an implicant of the engine. *)
Definition engine_shaped (M n : Z) (g : implicant_t) : Prop :=
  pair_shaped M n g \/ single_shaped M n g.

(** Section 4.1: both cells inside the domain and exactly one bit set in
    their XOR. *)
Definition spec_adjacent (n a b : Z) : bool :=
  (a <? 2 ^ n) && (b <? 2 ^ n)
  && existsb (fun i => Z.lxor a b =? 2 ^ i) (range 0 n).

(** Section 4.2, pass 1: the covered minterms are the two cells that are
    minterms, the mask is every variable bit but the differing one, the
    values are the fixed bits of [cellA]. *)
Definition spec_pair (M n cellA cellB : Z) : implicant_t :=
  let cov := Z.land (Z.lor (bit cellA) (bit cellB)) M in
  let lmask := Z.ldiff (Z.ones n) (Z.lxor cellA cellB) in
  {| covered_minterms := cov;
     literal_mask := lmask;
     literal_values := Z.land cellA lmask;
     size := popcount cov |}.

(** One cell of the pass: when it is usable and still required, the first
    adjacent usable cell of higher index is its partner; the pair is emitted
    when it covers a minterm, both cells leave the usable pool and the
    covered minterms leave the required set. *)
Definition spec_pair_step (M n cellA : Z) (st : gstate) : gstate :=
  if Z.testbit (available_for_grouping st) cellA
     && Z.testbit (remaining_minterms st) cellA
  then
    match find (fun b => Z.testbit (available_for_grouping st) b
                         && spec_adjacent n cellA b)
               (range (cellA + 1) (2 ^ n)) with
    | Some cellB =>
      let g := spec_pair M n cellA cellB in
      if covered_minterms g =? 0 then st
      else {| remaining_minterms :=
                Z.ldiff (remaining_minterms st) (covered_minterms g);
              available_for_grouping :=
                Z.ldiff (available_for_grouping st)
                        (Z.lor (bit cellA) (bit cellB));
              groups := groups st ++ [g] |}
    | None => st
    end
  else st.

(** The pass over the cells in increasing order. *)
Definition spec_pair_pass (M D n : Z) : gstate :=
  fold_left (fun st c => spec_pair_step M n c st) (range 0 (2 ^ n))
    (initial_gstate M D).

(** The test that the adjacency and the fields of the program are those of
    the specification. *)
Definition spec_ok (n c d : Z) : bool :=
  Bool.eqb (are_adjacent c d n) (spec_adjacent n c d)
  && implb (are_adjacent c d n)
       ((literal_mask (pair_implicant 0 n c d)
         =? literal_mask (spec_pair 0 n c d))
        && (literal_values (pair_implicant 0 n c d)
            =? literal_values (spec_pair 0 n c d))).

(** Scenario A: three variables, minterms 1, 2 and 5, don't-cares 0, 4
    and 6. *)
Definition scenario_A : truth_table_t :=
  {| minterms := bits_of [1; 2; 5]; dont_cares := bits_of [0; 4; 6];
     num_vars := 3; minterm_count := 3 |}.

(** Its solution. *)
Definition solution_A : solution_t :=
  {| implicants :=
       [ {| covered_minterms := bits_of [1; 5]; literal_mask := 3;
            literal_values := 1; size := 2 |};
         {| covered_minterms := bits_of [2]; literal_mask := 3;
            literal_values := 2; size := 1 |} ];
     literal_count := 4; term_count := 2 |}.

(** One minterm with an adjacent don't-care. *)
Definition lone_minterm : truth_table_t :=
  {| minterms := bits_of [0]; dont_cares := bits_of [1];
     num_vars := 2; minterm_count := 1 |}.

(** The invariants of section 3 as a test. *)
Definition valid_tableb (t : truth_table_t) : bool :=
  (2 <=? num_vars t) && (num_vars t <=? 6)
  && (Z.land (minterms t) (dont_cares t) =? 0)
  && (0 <=? minterms t) && (minterms t <? 2 ^ (2 ^ num_vars t))
  && (0 <=? dont_cares t) && (dont_cares t <? 2 ^ (2 ^ num_vars t))
  && (minterm_count t =? popcount (minterms t)).

(** Three nested implicants, the middle one first. *)
Definition nested_solution : solution_t :=
  {| implicants :=
       [ {| covered_minterms := bits_of [1; 2]; literal_mask := 4;
            literal_values := 0; size := 2 |};
         {| covered_minterms := bits_of [1]; literal_mask := 7;
            literal_values := 1; size := 1 |};
         {| covered_minterms := bits_of [1; 2; 3]; literal_mask := 0;
            literal_values := 0; size := 3 |} ];
     literal_count := 0; term_count := 0 |}.

(** Six variables, one minterm, no don't-care. *)
Definition six_var_minterm : truth_table_t :=
  {| minterms := bits_of [0]; dont_cares := 0; num_vars := 6;
     minterm_count := 1 |}.

(** Six variables, no minterm, one don't-care. *)
Definition six_var_dont_care : truth_table_t :=
  {| minterms := 0; dont_cares := bits_of [0]; num_vars := 6;
     minterm_count := 0 |}.

(** Scenario B as the specification has it: four variables, minterms 0
    and 2, don't-cares 1 and 3. *)
Definition scenario_B : truth_table_t :=
  {| minterms := bits_of [0; 2]; dont_cares := bits_of [1; 3];
     num_vars := 4; minterm_count := 2 |}.

(** Its solution. *)
Definition solution_B : solution_t :=
  {| implicants :=
       [ {| covered_minterms := bits_of [0]; literal_mask := 14;
            literal_values := 0; size := 1 |};
         {| covered_minterms := bits_of [2]; literal_mask := 14;
            literal_values := 2; size := 1 |} ];
     literal_count := 6; term_count := 2 |}.

(** The pattern "1X1X" as the parser reads it: two variables, minterms 1
    and 3, don't-cares 0 and 2. *)
Definition pattern_1X1X : truth_table_t :=
  {| minterms := bits_of [1; 3]; dont_cares := bits_of [0; 2];
     num_vars := 2; minterm_count := 2 |}.

(** Its solution. *)
Definition solution_1X1X : solution_t :=
  {| implicants :=
       [ {| covered_minterms := bits_of [1; 3]; literal_mask := 1;
            literal_values := 1; size := 2 |} ];
     literal_count := 1; term_count := 1 |}.

(** Scenario D: two variables, no minterm, every cell a don't-care. *)
Definition scenario_D : truth_table_t :=
  {| minterms := 0; dont_cares := bits_of [0; 1; 2; 3];
     num_vars := 2; minterm_count := 0 |}.

(* ------------------------------------------------------------------ *)
(** ** Gray code (kmap_core.c, the lookup tables and the two conversions) *)

Definition gray_2var : list Z := [0; 1; 3; 2].
Definition gray_3var : list Z := [0; 1; 3; 2; 6; 7; 5; 4].
Definition gray_4var : list Z :=
  [0; 1; 3; 2; 6; 7; 5; 4; 12; 13; 15; 14; 10; 11; 9; 8].

Definition linear_2var : list Z := [0; 1; 3; 2].
Definition linear_3var : list Z := [0; 1; 3; 2; 7; 6; 4; 5].
Definition linear_4var : list Z :=
  [0; 1; 3; 2; 7; 6; 4; 5; 15; 14; 12; 13; 8; 9; 11; 10].

(** [table[i]], for an index the guard of the caller keeps inside the
    table. *)
Definition table_at (table : list Z) (i : Z) : Z := nth (Z.to_nat i) table 0.

Definition linear_to_gray (linear num_vars : Z) : Z :=
  if linear >=? Z.shiftl 1 num_vars then 0
  else if num_vars =? 2 then table_at gray_2var linear
  else if num_vars =? 3 then table_at gray_3var linear
  else if num_vars =? 4 then table_at gray_4var linear
  else if (num_vars =? 5) || (num_vars =? 6)
       then u8 (Z.lxor linear (Z.shiftr linear 1))
  else 0.

Definition gray_to_linear (gray num_vars : Z) : Z :=
  if gray >=? Z.shiftl 1 num_vars then 0
  else if num_vars =? 2 then table_at linear_2var gray
  else if num_vars =? 3 then table_at linear_3var gray
  else if num_vars =? 4 then table_at linear_4var gray
  else if (num_vars =? 5) || (num_vars =? 6)
       then fold_left (fun result i => u8 (Z.lxor result (Z.shiftr gray i)))
              (range 1 num_vars) gray
  else 0.

(** A test on every cell below 64, for each number of variables from 2
    to 6. *)
Definition cell_check1 (P : Z -> Z -> bool) : bool :=
  forallb (fun n => forallb (P n) (range 0 64)) (range 2 7).

Definition gray_round_trip_ok (n c : Z) : bool :=
  if c <? 2 ^ n
  then (gray_to_linear (linear_to_gray c n) n =? c)
       && (linear_to_gray (gray_to_linear c n) n =? c)
       && (linear_to_gray c n <? 2 ^ n) && (gray_to_linear c n <? 2 ^ n)
       && (0 <=? linear_to_gray c n) && (0 <=? gray_to_linear c n)
  else true.

Definition gray_formula_ok (n c : Z) : bool :=
  if c <? 2 ^ n
  then linear_to_gray c n =? Z.lxor c (Z.shiftr c 1)
  else true.

Definition gray_step_ok (n c : Z) : bool :=
  if c <? 2 ^ n
  then are_adjacent (linear_to_gray c n)
         (linear_to_gray ((c + 1) mod 2 ^ n) n) n
  else true.

(* ------------------------------------------------------------------ *)
(** ** The function a solution stands for *)

(** The truth value of the product term that [generate_sop_expression]
    writes for a mask and its values, at the assignment that gives the
    variable [var] the bit [var] of the cell [m]: one literal for each
    variable of the mask, complemented when its value bit is 0.  A term
    without literal is 1. *)
Definition term_holds (num_vars lmask lvalues m : Z) : bool :=
  forallb (fun var =>
             let var_bit := u8 (Z.shiftl 1 var) in
             if negb (Z.land lmask var_bit =? 0)
             then Bool.eqb (negb (Z.land m var_bit =? 0))
                           (negb (Z.land lvalues var_bit =? 0))
             else true)
          (range 0 num_vars).

Definition implicant_holds (num_vars : Z) (g : implicant_t) (m : Z) : bool :=
  term_holds num_vars (literal_mask g) (literal_values g) m.

(** The sum of the terms; without term it is 0. *)
Definition solution_holds (num_vars : Z) (imps : list implicant_t) (m : Z)
  : bool :=
  existsb (fun g => implicant_holds num_vars g m) imps.

Definition pair_holds_ok (n c d : Z) : bool :=
  if are_adjacent c d n
  then forallb (fun m =>
                  Bool.eqb (implicant_holds n (pair_implicant 0 n c d) m)
                           ((m =? c) || (m =? d)))
               (range 0 (2 ^ n))
  else true.

Definition single_holds_ok (n c : Z) : bool :=
  if c <? 2 ^ n
  then forallb (fun m =>
                  Bool.eqb (implicant_holds n (single_implicant n c) m)
                           (m =? c))
               (range 0 (2 ^ n))
  else true.

(** The covered minterms of each implicant are apart from those of all the
    implicants after it. *)
Fixpoint apart (gs : list implicant_t) : Prop :=
  match gs with
  | [] => True
  | g :: rest =>
    Z.land (covered_minterms g) (covered_union rest) = 0 /\ apart rest
  end.

(** A group written by the pair pass, with where its second cell comes
    from. *)
Definition pair_cells (M D n : Z) (g : implicant_t) : Prop :=
  exists c d, 0 <= c < d /\ d < 2 ^ n /\ are_adjacent c d n = true /\
              Z.testbit M c = true /\
              Z.testbit M d || Z.testbit D d = true /\
              g = pair_implicant M n c d.

Definition cell_shaped (M D n : Z) (g : implicant_t) : Prop :=
  pair_cells M D n g \/ single_shaped M n g.

(** What holds besides [pair_inv] between two iterations of the first loop:
    the groups are apart from each other and from what remains, the pool
    holds only minterms and don't-cares. *)
Definition pair_inv2 (M D n : Z) (st : gstate) : Prop :=
  apart (groups st)
  /\ Z.land (covered_union (groups st)) (remaining_minterms st) = 0
  /\ (forall i, Z.testbit (available_for_grouping st) i = true ->
                Z.testbit M i || Z.testbit D i = true)
  /\ Forall (pair_cells M D n) (groups st).

(** The sums that the statistics stand for, without the width of the
    fields. *)
Definition literal_total (imps : list implicant_t) : Z :=
  fold_right (fun g acc => popcount (literal_mask g) + acc) 0 imps.

Definition size_total (imps : list implicant_t) : Z :=
  fold_right (fun g acc => size g + acc) 0 imps.

Definition popcount_bit_ok (n c : Z) : bool :=
  if c <? 64 then popcount (bit c) =? 1 else true.

(** What the first loop never lets grow: the groups written plus the blocks
    that still hold a required cell. *)
Definition spent (st : gstate) : Z :=
  group_count st + rem_blocks (remaining_minterms st).

(* ------------------------------------------------------------------ *)
(** ** Input parsing and the main solving function *)

Module Front.
Import String Ascii.

(** A C string is the text before its terminator.  [isspace] is that of the
    C locale; [long] has 64 bits; [strdup] is taken to succeed. *)
Definition code (c : ascii) : Z := Z.of_nat (nat_of_ascii c).

Definition isspace (c : ascii) : bool :=
  (code c =? 32) || ((9 <=? code c) && (code c <=? 13)).

(** [while (isspace( *p)) p++]. *)
Fixpoint skip_space (s : string) : string :=
  match s with
  | String c rest => if isspace c then skip_space rest else s
  | EmptyString => s
  end.

(** [strchr(s, c) != NULL]. *)
Fixpoint strchr (s : string) (c : ascii) : bool :=
  match s with
  | String x rest => if Ascii.eqb x c then true else strchr rest c
  | EmptyString => false
  end.

Fixpoint strspn (s accept : string) : Z :=
  match s with
  | String c rest => if strchr accept c then 1 + strspn rest accept else 0
  | EmptyString => 0
  end.

Definition zero_table : truth_table_t :=
  {| minterms := 0; dont_cares := 0; num_vars := 0; minterm_count := 0 |}.

(** [while ((1U << num_vars) < len) num_vars++], from 0: the first count
    whose power reaches [len]; none below 32, where the shift of the 32-bit
    one is undefined. *)
Definition width_of (len : Z) : option Z :=
  find (fun k => len <=? 2 ^ k) (range 0 32).

(** The loop over the characters; [i] is the index of the head of [s].  The
    result is the code and the table as the loop leaves it. *)
Fixpoint binary_cells (len i : Z) (s : string) (t : truth_table_t)
  : Z * truth_table_t :=
  match s with
  | EmptyString => (0, t)
  | String c rest =>
    let b := bit (len - 1 - i) in
    if Ascii.eqb c "1" then
      binary_cells len (i + 1) rest
        {| minterms := Z.lor (minterms t) b; dont_cares := dont_cares t;
           num_vars := num_vars t;
           minterm_count := u8 (minterm_count t + 1) |}
    else if Ascii.eqb c "0" then binary_cells len (i + 1) rest t
    else if Ascii.eqb c "X" || Ascii.eqb c "x" || Ascii.eqb c "-" then
      binary_cells len (i + 1) rest
        {| minterms := minterms t; dont_cares := Z.lor (dont_cares t) b;
           num_vars := num_vars t; minterm_count := minterm_count t |}
    else (-1, t)
  end.

(** [None] is the undefined shift of [width_of]. *)
Definition parse_binary_string (input : string) (t : truth_table_t)
  : option (Z * truth_table_t) :=
  let len := strlen input in
  match width_of len with
  | None => None
  | Some n =>
    if negb (2 ^ n =? len) || (n <? 2) || (n >? MAX_VARIABLES)
    then Some (-1, t)
    else Some (binary_cells len 0 input
                 {| minterms := 0; dont_cares := 0; num_vars := n;
                    minterm_count := 0 |})
  end.

(** [strtok(.., ",")]: the tokens are the runs between commas that are not
    empty; [cur] is the run being read. *)
Fixpoint tokens_from (s cur : string) : list string :=
  match s with
  | EmptyString => if strlen cur =? 0 then [] else [cur]
  | String c rest =>
    if Ascii.eqb c "," then
      if strlen cur =? 0 then tokens_from rest EmptyString
      else cur :: tokens_from rest EmptyString
    else tokens_from rest (cur ++ String c EmptyString)%string
  end.

Definition tokens (s : string) : list string := tokens_from s EmptyString.

Definition is_digit (c : ascii) : bool := (48 <=? code c) && (code c <=? 57).

(** The digits at the head of [s], after the value [acc], and the text that
    follows them. *)
Fixpoint digits (s : string) (acc : Z) : Z * string :=
  match s with
  | String c rest =>
    if is_digit c then digits rest (10 * acc + (code c - 48)) else (acc, s)
  | EmptyString => (acc, s)
  end.

Definition MAX_CELLS : Z := Z.shiftl 1 MAX_VARIABLES.

Definition LONG_MAX : Z := 2 ^ 63 - 1.
Definition LONG_MIN : Z := - 2 ^ 63.

(** [strtol(s, &endptr, 10)]: the value and the text at [endptr].  White
    space, then an optional sign, then digits; without a digit the value is 0
    and [endptr] is [s]; a value out of range is [LONG_MAX] or [LONG_MIN]. *)
Definition strtol (s : string) : Z * string :=
  let t := skip_space s in
  let signed :=
    match t with
    | String c rest =>
      if Ascii.eqb c "-" then (true, rest)
      else if Ascii.eqb c "+" then (false, rest) else (false, t)
    | EmptyString => (false, t)
    end in
  match snd signed with
  | String c _ =>
    if is_digit c then
      let r := digits (snd signed) 0 in
      (if fst signed then Z.max LONG_MIN (- fst r) else Z.min LONG_MAX (fst r),
       snd r)
    else (0, s)
  | EmptyString => (0, s)
  end.

(** The loop over the tokens; the state is the table and [max_minterm]. *)
Fixpoint minterm_tokens (toks : list string) (t : truth_table_t)
    (max_minterm : Z) : Z * truth_table_t * Z :=
  match toks with
  | [] => (0, t, max_minterm)
  | token :: rest =>
    let r := strtol (skip_space token) in
    if negb (strlen (snd r) =? 0) || (fst r <? 0) || (fst r >=? MAX_CELLS)
    then (-1, t, max_minterm)
    else
      let minterm := u8 (fst r) in
      minterm_tokens rest
        {| minterms := Z.lor (minterms t) (bit minterm);
           dont_cares := dont_cares t; num_vars := num_vars t;
           minterm_count := u8 (minterm_count t + 1) |}
        (if minterm >? max_minterm then minterm else max_minterm)
  end.

(** [num_vars = 2; while ((1U << num_vars) <= max_minterm) num_vars++]: the
    first count from 2 whose power is above [max_minterm]; none below 32,
    where the shift is undefined. *)
Definition vars_of (max_minterm : Z) : option Z :=
  find (fun k => max_minterm <? 2 ^ k) (range 2 32).

(** [None] is that undefined shift. *)
Definition parse_minterm_list (input : string) (t : truth_table_t)
  : option (Z * truth_table_t) :=
  let start := {| minterms := 0; dont_cares := 0; num_vars := num_vars t;
                  minterm_count := 0 |} in
  match minterm_tokens (tokens input) start 0 with
  | (0, t1, max_minterm) =>
    match vars_of max_minterm with
    | None => None
    | Some n =>
      let t2 := {| minterms := minterms t1; dont_cares := dont_cares t1;
                   num_vars := n; minterm_count := minterm_count t1 |} in
      if n >? MAX_VARIABLES then Some (-1, t2) else Some (0, t2)
    end
  | (c, t1, _) => Some (c, t1)
  end.

(** The result is the code and the table afterwards. *)
Definition parse_input (input : option string) (table : option truth_table_t)
  : option (Z * option truth_table_t) :=
  match input, table with
  | Some s, Some _ =>
    let s := skip_space s in
    if strlen s =? 0 then Some (-1, Some zero_table)
    else if strchr s "," then
      option_map (fun r => (fst r, Some (snd r)))
                 (parse_minterm_list s zero_table)
    else if strspn s "01Xx-" =? strlen s then
      option_map (fun r => (fst r, Some (snd r)))
                 (parse_binary_string s zero_table)
    else Some (-1, Some zero_table)
  | _, _ => Some (-1, table)
  end.

(** The result is the code and the text in [output] afterwards; the table
    and the solution are locals of the function. *)
Definition solve_kmap (sm : shift_model) (input output : option string)
    (output_len : Z) : option (Z * option string) :=
  match input, output with
  | Some _, Some _ =>
    if output_len <=? 0 then Some (-1, output)
    else
      match parse_input input (Some zero_table) with
      | None => None
      | Some (result, table) =>
        if negb (result =? 0) then Some (result, output)
        else
          match validate_truth_table sm table, table with
          | None, _ => None
          | Some false, _ | _, None => Some (-2, output)
          | Some true, Some t =>
            if minterm_count t =? 0
            then Some (0, Some (strncpy_terminated "0" output_len))
            else
              match shl64 sm 1 (Z.shiftl 1 (num_vars t)) with
              | None => None
              | Some w =>
                if minterms t =? (w - 1) mod 2 ^ 64
                then Some (0, Some (strncpy_terminated "1" output_len))
                else
                  match find_prime_implicants sm table (Some zero_solution)
                  with
                  | None => None
                  | Some (result, solution) =>
                    if negb (result =? 0) then Some (result, output)
                    else
                      match validate_solution sm table solution with
                      | None => None
                      | Some false => Some (-3, output)
                      | Some true =>
                        Some (generate_sop_expression solution (num_vars t)
                                output output_len)
                      end
                  end
              end
          end
      end
  | _, _ => Some (-1, output)
  end.

(** What the loop of [parse_minterm_list] reads in a token, and whether it
    takes it. *)
Definition token_value (token : string) : Z :=
  fst (strtol (skip_space token)).

Definition token_ok (token : string) : bool :=
  (strlen (snd (strtol (skip_space token))) =? 0)
  && (0 <=? token_value token) && (token_value token <? MAX_CELLS).

Definition dont_care_char (c : ascii) : bool :=
  Ascii.eqb c "X" || Ascii.eqb c "x" || Ascii.eqb c "-".

(** The test of what [vars_of] finds for a highest cell. *)
Definition vars_of_ok (max_minterm : Z) : bool :=
  match vars_of max_minterm with
  | Some n => (2 <=? n) && (n <=? 6) && (max_minterm <? 2 ^ n)
              && ((n =? 2) || (2 ^ (n - 1) <=? max_minterm))
  | None => false
  end.

(** What holds of the table before the character of index [i] of a pattern
    of [L] characters is read. *)
Definition cells_inv (L i : Z) (t : truth_table_t) : Prop :=
  0 <= minterms t /\ 0 <= dont_cares t
  /\ (forall k, Z.testbit (minterms t) k = true -> L - i <= k < L)
  /\ (forall k, Z.testbit (dont_cares t) k = true -> L - i <= k < L)
  /\ Z.land (minterms t) (dont_cares t) = 0
  /\ minterm_count t = popcount (minterms t).

End Front.
Import Front.

(** Two minterms on a diagonal: neither finds a second cell. *)
Definition diagonal : truth_table_t :=
  {| minterms := bits_of [0; 3]; dont_cares := 0; num_vars := 2;
     minterm_count := 2 |}.

(** The survivors as the specification words them: the implicants of the
    solution, as they were before the sweep, that were not removed already
    and that no other implicant subsumes, in their order. *)
Definition spec_survivors (imps : list implicant_t) : list implicant_t :=
  map (slot imps)
      (filter (fun i => negb (size (slot imps i) =? 0)
                        && negb (spec_subsumed imps i))
              (seq 0 (length imps))).





(* ================================================================== *)
(** * Properties *)

(** ** Bit-level facts *)

Lemma In_range a b c : In c (range a b) <-> a <= c < b.
Proof.
  unfold range. rewrite in_map_iff. split.
  - intros (k & <- & Hk). apply in_seq in Hk. lia.
  - intros H. exists (Z.to_nat (c - a)). split; [lia|]. apply in_seq. lia.
Qed.

Lemma range_nil a b : b <= a -> range a b = [].
Proof.
  intros H. unfold range. replace (Z.to_nat (b - a)) with 0%nat by lia.
  reflexivity.
Qed.

Lemma range_cons a b : a < b -> range a b = a :: range (a + 1) b.
Proof.
  intros H. unfold range.
  replace (Z.to_nat (b - a)) with (S (Z.to_nat (b - (a + 1)))) by lia.
  cbn [seq map]. f_equal; [lia|].
  rewrite <- seq_shift, map_map. apply map_ext. intros k. lia.
Qed.

Lemma range_forallb a b (P : Z -> bool) :
  forallb P (range a b) = true -> forall c, a <= c < b -> P c = true.
Proof.
  intros H c Hc. rewrite forallb_forall in H. apply H, In_range, Hc.
Qed.

Lemma testbit_bit c i : 0 <= c -> Z.testbit (bit c) i = (c =? i).
Proof.
  intros Hc. unfold bit. rewrite Z.shiftl_1_l. apply Z.pow2_bits_eqb, Hc.
Qed.

Lemma has_spec x c : 0 <= c -> has x c = Z.testbit x c.
Proof.
  intros Hc. unfold has. destruct (Z.testbit x c) eqn:E.
  - destruct (Z.eqb_spec (Z.land x (bit c)) 0) as [H0|]; [|reflexivity].
    assert (Z.testbit (Z.land x (bit c)) c = true) as H
      by (rewrite Z.land_spec, E, testbit_bit, Z.eqb_refl; auto).
    rewrite H0, Z.bits_0 in H. discriminate.
  - replace (Z.land x (bit c)) with 0; [reflexivity|].
    apply Z.bits_inj'. intros i Hi.
    rewrite Z.bits_0, Z.land_spec, testbit_bit by assumption.
    destruct (Z.eqb_spec c i); subst; rewrite ?E, ?andb_false_r; reflexivity.
Qed.

Lemma testbit_not64 x i :
  0 <= i -> Z.testbit (not64 x) i = negb (Z.testbit x i) && (i <? 64).
Proof.
  intros Hi. unfold not64, mask64.
  rewrite Z.land_spec, Z.lnot_spec, Z.testbit_ones_nonneg by lia.
  reflexivity.
Qed.

Lemma testbit_bound x k i :
  0 <= x < 2 ^ k -> 0 <= k -> Z.testbit x i = true -> 0 <= i < k.
Proof.
  intros Hx Hk Hb. split.
  - destruct (Z.neg_nonneg_cases i) as [Hn|]; [|assumption].
    rewrite Z.testbit_neg_r in Hb by assumption. discriminate.
  - destruct (Z.lt_ge_cases i k) as [|Hge]; [assumption|].
    destruct (Z.eq_dec x 0) as [->|Hx0]; [rewrite Z.bits_0 in Hb; discriminate|].
    assert (Z.log2 x < k) by (apply Z.log2_lt_pow2; lia).
    rewrite Z.bits_above_log2 in Hb; [discriminate|lia|lia].
Qed.

Lemma land_subset_trans a b c :
  Z.land a b = a -> Z.land b c = b -> Z.land a c = a.
Proof.
  intros Hab Hbc. rewrite <- Hab at 1.
  rewrite <- Z.land_assoc, Hbc. exact Hab.
Qed.

(** ** Facts about cells, checked on every cell of every supported size *)

Lemma cell_check_sound (P : Z -> Z -> Z -> bool) :
  cell_check P = true ->
  forall n c d, 2 <= n <= 6 -> 0 <= c < 64 -> 0 <= d < 64 -> P n c d = true.
Proof.
  intros H n c d Hn Hc Hd. unfold cell_check in H.
  pose proof (range_forallb _ _ _ H n ltac:(lia)) as H1. cbv beta in H1.
  pose proof (range_forallb _ _ _ H1 c Hc) as H2. cbv beta in H2.
  exact (range_forallb _ _ _ H2 d Hd).
Qed.

Lemma total_cells_eq n : 0 <= n -> Z.shiftl 1 n = 2 ^ n.
Proof. intros _. apply Z.shiftl_1_l. Qed.

Lemma total_cells_bound n : 2 <= n <= 6 -> 4 <= 2 ^ n <= 64.
Proof.
  intros Hn. split.
  - change 4 with (2 ^ 2). apply Z.pow_le_mono_r; lia.
  - change 64 with (2 ^ 6). apply Z.pow_le_mono_r; lia.
Qed.

Lemma implb_mp (a b : bool) : implb a b = true -> a = true -> b = true.
Proof. intros H ->. exact H. Qed.

(** An even cell and its successor are adjacent. *)
Lemma adjacent_block n c :
  2 <= n <= 6 -> 0 <= c < 2 ^ n -> Z.even c = true ->
  are_adjacent c (c + 1) n = true.
Proof.
  intros Hn Hc He. pose proof (total_cells_bound n Hn).
  assert (cell_check block_ok = true) as H0 by (vm_compute; reflexivity).
  pose proof (cell_check_sound _ H0 n c 0 Hn ltac:(lia) ltac:(lia)) as H1.
  clear H0. apply (implb_mp _ _ H1).
  rewrite He, andb_true_r. apply Z.ltb_lt. lia.
Qed.

(** The fields of a pair do not depend on the minterms. *)
Lemma pair_implicant_fields M n c d :
  literal_mask (pair_implicant M n c d) = literal_mask (pair_implicant 0 n c d)
  /\ literal_values (pair_implicant M n c d)
     = literal_values (pair_implicant 0 n c d).
Proof.
  unfold pair_implicant. cbn [literal_mask literal_values].
  split; exact eq_refl.
Qed.

(** What adjacency gives the fields of a pair: the two cells are distinct
    cells of the domain, the mask drops exactly one of the [n] variable bits,
    and both cells agree with the values on the mask. *)
Lemma adjacent_fields M n c d :
  2 <= n <= 6 -> 0 <= c < 64 -> 0 <= d < 64 -> are_adjacent c d n = true ->
  c < 2 ^ n /\ d < 2 ^ n /\ c <> d /\
  popcount (literal_mask (pair_implicant M n c d)) = n - 1 /\
  Z.land c (literal_mask (pair_implicant M n c d))
    = literal_values (pair_implicant M n c d) /\
  Z.land d (literal_mask (pair_implicant M n c d))
    = literal_values (pair_implicant M n c d).
Proof.
  intros Hn Hc Hd Ha.
  destruct (pair_implicant_fields M n c d) as [-> ->].
  assert (cell_check pair_ok = true) as H0 by (vm_compute; reflexivity).
  pose proof (cell_check_sound _ H0 n c d Hn Hc Hd) as H1. clear H0.
  pose proof (implb_mp _ _ H1 Ha) as H2. clear H1.
  repeat (apply andb_prop in H2; destruct H2 as [H2 ?]).
  repeat split;
    try (apply Z.eqb_eq; assumption); try (apply Z.ltb_lt; assumption).
  intros ->. rewrite Z.eqb_refl in *. discriminate.
Qed.

(** The fields of a single-cell implicant. *)
Lemma single_fields n c :
  2 <= n <= 6 -> 0 <= c < 2 ^ n ->
  popcount (literal_mask (single_implicant n c)) = n /\
  Z.land c (literal_mask (single_implicant n c))
    = literal_values (single_implicant n c).
Proof.
  intros Hn Hc. pose proof (total_cells_bound n Hn).
  assert (cell_check single_ok = true) as H0 by (vm_compute; reflexivity).
  pose proof (cell_check_sound _ H0 n c 0 Hn ltac:(lia) ltac:(lia)) as H1.
  clear H0.
  assert ((c <? 2 ^ n) = true) as Hlt by (apply Z.ltb_lt; lia).
  pose proof (implb_mp _ _ H1 Hlt) as H2. clear H1.
  apply andb_prop in H2. destruct H2 as [Hp Hl].
  split; apply Z.eqb_eq; [exact Hp|exact Hl].
Qed.

(** ** The pools of the engine *)

Lemma covered_union_from (l : list implicant_t) (a : Z) :
  fold_left (fun covered g => Z.lor covered (covered_minterms g)) l a
  = Z.lor a (covered_union l).
Proof.
  unfold covered_union. revert a.
  induction l as [|g l IH]; intros a; cbn [fold_left].
  - rewrite Z.lor_0_r. reflexivity.
  - rewrite (IH (Z.lor a _)), (IH (Z.lor 0 _)), Z.lor_0_l, Z.lor_assoc.
    reflexivity.
Qed.

Lemma covered_union_app l1 l2 :
  covered_union (l1 ++ l2) = Z.lor (covered_union l1) (covered_union l2).
Proof.
  unfold covered_union at 1. rewrite fold_left_app.
  fold (covered_union l1). apply covered_union_from.
Qed.

Lemma covered_union_cons g l :
  covered_union (g :: l) = Z.lor (covered_minterms g) (covered_union l).
Proof. apply (covered_union_app [g] l). Qed.

Lemma testbit_covered_union l i :
  Z.testbit (covered_union l) i
  = existsb (fun g => Z.testbit (covered_minterms g) i) l.
Proof.
  induction l as [|g l IH].
  - apply Z.bits_0.
  - rewrite covered_union_cons, Z.lor_spec, IH. reflexivity.
Qed.

(** The bits of the two pools after the emission of a pair. *)
Lemma testbit_pair_cover M n c d i :
  0 <= c -> 0 <= d ->
  Z.testbit (covered_minterms (pair_implicant M n c d)) i
  = ((c =? i) || (d =? i)) && Z.testbit M i.
Proof.
  intros Hc Hd. cbn [pair_implicant covered_minterms].
  rewrite Z.land_spec, Z.lor_spec, !testbit_bit by assumption. reflexivity.
Qed.

Lemma emit_pair_remaining M n c d st i :
  0 <= c -> 0 <= d -> 0 <= i < 64 ->
  Z.testbit (remaining_minterms
               (emit (pair_implicant M n c d) (Z.lor (bit c) (bit d)) st)) i
  = Z.testbit (remaining_minterms st) i
    && negb (((c =? i) || (d =? i)) && Z.testbit M i).
Proof.
  intros Hc Hd Hi. cbn [emit remaining_minterms].
  rewrite Z.land_spec, testbit_not64, testbit_pair_cover by lia.
  destruct (Z.ltb_spec i 64); [|lia]. rewrite andb_true_r. reflexivity.
Qed.

Lemma emit_pair_available M n c d st i :
  0 <= c -> 0 <= d -> 0 <= i < 64 ->
  Z.testbit (available_for_grouping
               (emit (pair_implicant M n c d) (Z.lor (bit c) (bit d)) st)) i
  = Z.testbit (available_for_grouping st) i && negb ((c =? i) || (d =? i)).
Proof.
  intros Hc Hd Hi. cbn [emit available_for_grouping].
  rewrite Z.land_spec, testbit_not64, Z.lor_spec, !testbit_bit by lia.
  destruct (Z.ltb_spec i 64); [|lia]. rewrite andb_true_r. reflexivity.
Qed.

(** The inner loop of the pair pass either finds no partner and leaves the
    state alone, or emits the pair with the first adjacent cell of the pool. *)
Lemma pair_scan_cases M n c st l :
  0 <= c -> Z.testbit M c = true -> (forall d, In d l -> 0 <= d) ->
  (pair_scan M n c st l = st /\
   forall d, In d l -> Z.testbit (available_for_grouping st) d = true ->
             are_adjacent c d n = false)
  \/ (exists l1 d l2,
        l = l1 ++ d :: l2 /\
        Z.testbit (available_for_grouping st) d = true /\
        are_adjacent c d n = true /\
        pair_scan M n c st l
        = emit (pair_implicant M n c d) (Z.lor (bit c) (bit d)) st /\
        forall d', In d' l1 ->
                   Z.testbit (available_for_grouping st) d' = true ->
                   are_adjacent c d' n = false).
Proof.
  intros Hc HMc. induction l as [|d l IH]; intros Hl.
  - left. split; [reflexivity|]. intros d [].
  - assert (0 <= d) as Hd by (apply Hl; left; reflexivity).
    assert (forall d', In d' l -> 0 <= d') as Hl'
      by (intros d' ?; apply Hl; right; assumption).
    cbn [pair_scan]. rewrite has_spec by assumption.
    destruct (Z.testbit (available_for_grouping st) d) eqn:Ea; cbn [negb].
    + destruct (are_adjacent c d n) eqn:Eadj.
      * assert (covered_minterms (pair_implicant M n c d) <> 0) as Hne.
        { intros H0.
          assert (Z.testbit (covered_minterms (pair_implicant M n c d)) c
                  = true) as Hb
            by (rewrite testbit_pair_cover, Z.eqb_refl, HMc by assumption;
                reflexivity).
          rewrite H0, Z.bits_0 in Hb. discriminate. }
        apply Z.eqb_neq in Hne. rewrite Hne. cbn [negb].
        right. exists [], d, l. repeat split; auto. intros d' [].
      * destruct (IH Hl') as [[Heq Hall]|(l1 & d0 & l2 & -> & H1 & H2 & H3 & H4)].
        -- left. split; [exact Heq|]. intros d' [<-|Hin] Hav; auto.
        -- right. exists (d :: l1), d0, l2. repeat split; auto.
           intros d' [<-|Hin] Hav; auto.
    + destruct (IH Hl') as [[Heq Hall]|(l1 & d0 & l2 & -> & H1 & H2 & H3 & H4)].
      * left. split; [exact Heq|]. intros d' [<-|Hin] Hav; [congruence|auto].
      * right. exists (d :: l1), d0, l2. repeat split; auto.
        intros d' [<-|Hin] Hav; [congruence|auto].
Qed.

Lemma filter_length_le {A : Type} (f f' : A -> bool) (l : list A) :
  (forall k, f' k = true -> f k = true) ->
  (length (filter f' l) <= length (filter f l))%nat.
Proof.
  intros Hsub. induction l as [|a l IH]; cbn [filter]; [lia|].
  destruct (f' a) eqn:E'.
  - rewrite (Hsub a E'). cbn [length]. lia.
  - destruct (f a); cbn [length]; lia.
Qed.

Lemma filter_length_drop {A : Type} (f f' : A -> bool) (l : list A) (k0 : A) :
  (forall k, f' k = true -> f k = true) ->
  In k0 l -> f k0 = true -> f' k0 = false ->
  (length (filter f' l) + 1 <= length (filter f l))%nat.
Proof.
  intros Hsub Hin Hf Hf'. induction l as [|a l IH]; [destruct Hin|].
  cbn [filter]. destruct Hin as [->|Hin].
  - rewrite Hf, Hf'. cbn [length].
    pose proof (filter_length_le f f' l Hsub). lia.
  - specialize (IH Hin). destruct (f' a) eqn:E'.
    + rewrite (Hsub a E'). cbn [length]. lia.
    + destruct (f a); cbn [length]; lia.
Qed.

Lemma parity_cases c :
  (exists k, c = 2 * k /\ Z.even c = true)
  \/ (exists k, c = 2 * k + 1 /\ Z.even (c - 1) = true).
Proof.
  destruct (Z.even c) eqn:E.
  - left. apply Z.even_spec in E. destruct E as [k ->]. exists k.
    split; reflexivity.
  - right. rewrite <- Z.negb_odd in E. apply negb_false_iff in E.
    apply Z.odd_spec in E. destruct E as [k ->]. exists k.
    split; [reflexivity|]. apply Z.even_spec. exists k. lia.
Qed.

Lemma minterm_bits M n i :
  2 <= n <= 6 -> 0 <= M < 2 ^ (2 ^ n) -> Z.testbit M i = true ->
  0 <= i < 2 ^ n.
Proof.
  intros Hn HM Hb. pose proof (total_cells_bound n Hn).
  apply (testbit_bound M (2 ^ n) i); [assumption|lia|assumption].
Qed.

Lemma group_count_emit g m st :
  group_count (emit g m st) = group_count st + 1.
Proof.
  unfold group_count, emit. cbn [groups]. rewrite length_app. cbn [length].
  lia.
Qed.

Lemma rem_blocks_eq rem :
  rem_blocks rem = Z.of_nat (length (filter (block_has rem) (range 0 32))).
Proof. reflexivity. Qed.

(** Emptying one block pays for one more group. *)
Lemma budget_drop (rem rem' cnt k0 : Z) :
  0 <= k0 < 32 ->
  (forall i, Z.testbit rem' i = true -> Z.testbit rem i = true) ->
  block_has rem k0 = true -> block_has rem' k0 = false ->
  cnt + rem_blocks rem <= 32 -> cnt + 1 + rem_blocks rem' <= 32.
Proof.
  intros Hk0 Hsub Hb1 Hb2 Hbud. rewrite rem_blocks_eq in *.
  assert (forall k, block_has rem' k = true -> block_has rem k = true) as Hmono.
  { intros k Hk. unfold block_has in *. apply orb_prop in Hk.
    destruct Hk as [Hk|Hk]; apply Hsub in Hk; rewrite Hk;
      auto using orb_true_r. }
  pose proof (filter_length_drop (block_has rem) (block_has rem') (range 0 32)
                k0 Hmono (proj2 (In_range 0 32 k0) Hk0) Hb1 Hb2) as Hdrop.
  revert Hdrop Hbud.
  generalize (length (filter (block_has rem') (range 0 32))).
  generalize (length (filter (block_has rem) (range 0 32))).
  intros b b' Hdrop Hbud. lia.
Qed.

(** One iteration of the first loop. *)
Lemma pair_body_step M n c st :
  2 <= n <= 6 -> 0 <= M < 2 ^ (2 ^ n) -> 0 <= c < 2 ^ n ->
  pools_ok M n st -> Forall (pair_shaped M n) (groups st) ->
  settled n c st -> within_budget st ->
  pools_ok M n (pair_body M n (Z.shiftl 1 n) c st)
  /\ Forall (pair_shaped M n) (groups (pair_body M n (Z.shiftl 1 n) c st))
  /\ settled n (c + 1) (pair_body M n (Z.shiftl 1 n) c st)
  /\ within_budget (pair_body M n (Z.shiftl 1 n) c st).
Proof.
  intros Hn HM Hc (Hdom & Hrem & Hcov) Hshape Hset Hbud.
  pose proof (total_cells_bound n Hn) as Htot.
  assert (H64 : forall i, Z.testbit (available_for_grouping st) i = true ->
                          0 <= i < 64)
    by (intros i Hi; specialize (Hdom i Hi); lia).
  unfold pair_body. rewrite !has_spec by lia.
  assert (Hstay : Z.testbit (remaining_minterms st) c = false ->
          pools_ok M n st /\ Forall (pair_shaped M n) (groups st)
          /\ settled n (c + 1) st /\ within_budget st).
  { intros Hc0.
    split; [exact (conj Hdom (conj Hrem Hcov))|].
    split; [assumption|]. split; [|assumption].
    intros e He Hre d Hd Ha.
    destruct (Z.eq_dec e c) as [->|]; [congruence|].
    apply (Hset e); auto; lia. }
  destruct (Z.testbit (available_for_grouping st) c) eqn:Eav; cbn [negb].
  2:{ apply Hstay. rewrite Hrem, Eav by lia. reflexivity. }
  destruct (Z.testbit (remaining_minterms st) c) eqn:Ere; cbn [negb].
  2:{ apply Hstay. reflexivity. }
  assert (HMc : Z.testbit M c = true).
  { rewrite Hrem, Eav in Ere by lia. exact Ere. }
  rewrite total_cells_eq by lia.
  destruct (pair_scan_cases M n c st (range (c + 1) (2 ^ n)))
    as [[-> Hnone]|(l1 & d & l2 & Hl & Had & Hadj & -> & Hfirst)];
    [lia|assumption|intros d Hd; apply In_range in Hd; lia| |].
  - (* no partner *)
    split; [exact (conj Hdom (conj Hrem Hcov))|].
    split; [assumption|]. split; [|assumption].
    intros e He Hre d Hd Ha.
    destruct (Z.eq_dec e c) as [->|]; [|apply (Hset e); auto; lia].
    destruct (Z.testbit (available_for_grouping st) d) eqn:Ed; [|reflexivity].
    rewrite (Hnone d) in Ha; [discriminate|apply In_range; lia|assumption].
  - (* the pair (c, d) is emitted *)
    assert (Hd : c + 1 <= d < 2 ^ n).
    { apply In_range. rewrite Hl. apply in_elt. }
    set (st' := emit (pair_implicant M n c d) (Z.lor (bit c) (bit d)) st).
    assert (Hav' : forall i, Z.testbit (available_for_grouping st') i = true ->
                             Z.testbit (available_for_grouping st) i = true).
    { intros i Hi. unfold st' in Hi. cbn [emit available_for_grouping] in Hi.
      rewrite Z.land_spec in Hi. apply andb_prop in Hi. tauto. }
    assert (Hre' : forall i, Z.testbit (remaining_minterms st') i = true ->
                             Z.testbit (remaining_minterms st) i = true).
    { intros i Hi. unfold st' in Hi. cbn [emit remaining_minterms] in Hi.
      rewrite Z.land_spec in Hi. apply andb_prop in Hi. tauto. }
    assert (Hrc : Z.testbit (remaining_minterms st') c = false).
    { unfold st'. rewrite emit_pair_remaining by lia.
      rewrite Z.eqb_refl, HMc, Ere. reflexivity. }
    split; [|split; [|split]].
    + (* pools *)
      split; [|split].
      * intros i Hi. apply Hdom, Hav', Hi.
      * intros i Hi. destruct (Z.ltb_spec i 64) as [Hlt|Hge].
        -- unfold st'. rewrite emit_pair_remaining, emit_pair_available by lia.
           rewrite Hrem by lia.
           destruct (Z.testbit (available_for_grouping st) i),
             (Z.testbit M i), (c =? i), (d =? i); reflexivity.
        -- destruct (Z.testbit (available_for_grouping st') i) eqn:E1.
           { apply Hav', H64 in E1. lia. }
           destruct (Z.testbit (remaining_minterms st') i) eqn:E2;
             [|reflexivity].
           apply Hre' in E2. rewrite Hrem in E2 by lia.
           apply andb_prop in E2. destruct E2 as [E2 _].
           apply H64 in E2. lia.
      * intros i Hi. unfold st' at 1. cbn [emit groups].
        rewrite covered_union_app, Z.lor_spec.
        change (covered_union [pair_implicant M n c d])
          with (Z.lor 0 (covered_minterms (pair_implicant M n c d))).
        rewrite Z.lor_0_l, testbit_pair_cover by lia.
        destruct (Z.ltb_spec i 64) as [Hlt|Hge].
        -- unfold st'. rewrite emit_pair_remaining by lia.
           rewrite <- (Hcov i Hi).
           specialize (Hrem i Hi).
           destruct (Z.testbit (covered_union (groups st)) i),
             (Z.testbit (remaining_minterms st) i),
             (Z.testbit (available_for_grouping st) i),
             (Z.testbit M i), (c =? i), (d =? i);
             try reflexivity; try discriminate;
             specialize (Hcov i Hi); cbn in Hcov; congruence.
        -- assert (Z.testbit M i = false) as HMi.
           { destruct (Z.testbit M i) eqn:E; [|reflexivity].
             apply (minterm_bits M n i Hn HM) in E. lia. }
           rewrite HMi, andb_false_r, orb_false_r.
           destruct (Z.testbit (remaining_minterms st') i) eqn:E2.
           { apply Hre' in E2. rewrite Hrem, HMi, andb_false_r in E2 by lia.
             discriminate. }
           rewrite orb_false_r. specialize (Hcov i Hi). rewrite HMi in Hcov.
           apply orb_false_elim in Hcov. tauto.
    + (* shape *)
      unfold st'. cbn [emit groups]. apply Forall_app. split; [assumption|].
      constructor; [|constructor]. exists c, d. repeat split; auto; lia.
    + (* settled *)
      intros e He Hre d0 Hd0 Ha.
      destruct (Z.eq_dec e c) as [->|]; [congruence|].
      destruct (Z.testbit (available_for_grouping st') d0) eqn:E; [|reflexivity].
      apply Hav' in E. rewrite (Hset e) in E; auto; lia.
    + (* budget *)
      assert (Hblock : exists k0, 0 <= k0 < 32 /\
                block_has (remaining_minterms st) k0 = true /\
                block_has (remaining_minterms st') k0 = false).
      { destruct (parity_cases c) as [(k & Hk & Hev)|(k & Hk & Hev)].
        - exists k. split; [lia|]. unfold block_has. rewrite <- Hk.
          rewrite Ere, Hrc. split; [reflexivity|]. cbn [orb].
          destruct (Z.testbit (remaining_minterms st') (c + 1)) eqn:E;
            [|reflexivity].
          assert (Z.testbit (remaining_minterms st) (c + 1) = true) as E0
            by (apply Hre', E).
          assert (Z.testbit (available_for_grouping st) (c + 1) = true) as E1.
          { rewrite Hrem in E0 by lia. apply andb_prop in E0. tauto. }
          pose proof (adjacent_block n c Hn Hc Hev) as Hadj1.
          unfold st' in E. rewrite emit_pair_remaining in E by lia.
          destruct (Z.eqb_spec d (c + 1)) as [Hdc|Hdc].
          + rewrite Hrem, E1 in E by lia. cbn [andb] in E.
            rewrite orb_true_r in E. cbn [andb] in E.
            destruct (Z.testbit M (c + 1)); discriminate.
          + assert (In (c + 1) l1) as Hin1.
            { destruct l1 as [|x l1'].
              - rewrite range_cons in Hl by lia. cbn [app] in Hl.
                injection Hl as Hx _. lia.
              - rewrite range_cons in Hl by lia. cbn [app] in Hl.
                injection Hl as Hx _. left. lia. }
            rewrite (Hfirst (c + 1) Hin1 E1) in Hadj1. discriminate.
        - exists k. split; [lia|]. unfold block_has.
          replace (2 * k + 1) with c by lia.
          replace (2 * k) with (c - 1) by lia.
          rewrite Ere, Hrc, !orb_true_r, orb_false_r.
          split; [reflexivity|].
          destruct (Z.testbit (remaining_minterms st') (c - 1)) eqn:E;
            [|reflexivity].
          apply Hre' in E.
          assert (Z.testbit (available_for_grouping st) (c - 1) = true) as E1.
          { rewrite Hrem in E by lia. apply andb_prop in E. tauto. }
          pose proof (Hdom _ E1) as Hc1.
          pose proof (adjacent_block n (c - 1) Hn ltac:(lia) Hev) as Hadj1.
          replace (c - 1 + 1) with c in Hadj1 by lia.
          rewrite (Hset (c - 1) ltac:(lia) E c ltac:(lia) Hadj1) in Eav.
          discriminate. }
      destruct Hblock as (k0 & Hk0 & Hb1 & Hb2).
      unfold within_budget. unfold st' at 1. rewrite group_count_emit.
      exact (budget_drop _ _ _ k0 Hk0 Hre' Hb1 Hb2 Hbud).
Qed.

Lemma pair_free_inv M n :
  2 <= n <= 6 -> 0 <= M < 2 ^ (2 ^ n) ->
  forall (k : nat) c st,
    0 <= c -> c + Z.of_nat k = 2 ^ n -> pair_inv M n c st ->
    pair_inv M n (2 ^ n)
      (pair_free M n (Z.shiftl 1 n) (range c (2 ^ n)) st).
Proof.
  intros Hn HM. induction k as [|k IH]; intros c st Hc Hk Hinv.
  - rewrite range_nil by lia. replace (2 ^ n) with c by lia. exact Hinv.
  - rewrite range_cons by lia. cbn [pair_free fold_left].
    apply (IH (c + 1)); [lia|lia|].
    destruct Hinv as (H1 & H2 & H3 & H4).
    apply pair_body_step; auto; lia.
Qed.

Lemma filter_nil_all {A : Type} (f : A -> bool) (l : list A) :
  length (filter f l) = 0%nat -> forall x, In x l -> f x = false.
Proof.
  induction l as [|a l IH]; intros Hlen x Hin; [destruct Hin|].
  cbn [filter] in Hlen. destruct (f a) eqn:E; [discriminate|].
  destruct Hin as [<-|Hin]; auto.
Qed.

(** With the budget spent, nothing remains to cover. *)
Lemma budget_spent M n st :
  2 <= n <= 6 -> pools_ok M n st -> within_budget st ->
  32 <= group_count st ->
  forall i, 0 <= i -> Z.testbit (remaining_minterms st) i = false.
Proof.
  intros Hn (Hdom & Hrem & _) Hbud Hcnt i Hi.
  pose proof (total_cells_bound n Hn) as Htot.
  unfold within_budget in Hbud. rewrite rem_blocks_eq in Hbud.
  assert (length (filter (block_has (remaining_minterms st)) (range 0 32))
          = 0%nat) as Hlen by lia.
  destruct (Z.testbit (remaining_minterms st) i) eqn:E; [|reflexivity].
  assert (0 <= i < 2 ^ n) as Hi2.
  { apply Hdom. rewrite Hrem in E by lia. apply andb_prop in E. tauto. }
  destruct (parity_cases i) as [(k & Hk & _)|(k & Hk & _)].
  - pose proof (filter_nil_all _ _ Hlen k (proj2 (In_range 0 32 k) ltac:(lia)))
      as Hb.
    unfold block_has in Hb. rewrite <- Hk, E in Hb. discriminate.
  - pose proof (filter_nil_all _ _ Hlen k (proj2 (In_range 0 32 k) ltac:(lia)))
      as Hb.
    unfold block_has in Hb. rewrite <- Hk, E, orb_true_r in Hb. discriminate.
Qed.

Lemma pair_body_idle M n total c st :
  0 <= c -> Z.testbit (remaining_minterms st) c = false ->
  pair_body M n total c st = st.
Proof.
  intros Hc Hr. unfold pair_body. rewrite !has_spec, Hr by assumption.
  destruct (Z.testbit (available_for_grouping st) c); reflexivity.
Qed.

Lemma pair_free_idle M n total l st :
  (forall c, In c l -> 0 <= c) ->
  (forall i, 0 <= i -> Z.testbit (remaining_minterms st) i = false) ->
  pair_free M n total l st = st.
Proof.
  intros Hl Hr. induction l as [|c l IH]; [reflexivity|].
  cbn [pair_free fold_left]. rewrite pair_body_idle.
  - apply IH. intros c' Hc'. apply Hl. right. assumption.
  - apply Hl. left. reflexivity.
  - apply Hr, Hl. left. reflexivity.
Qed.

(** With a capacity of at least 32 the condition on the count never cuts
    the first loop short. *)
Lemma pair_pass_free M n cap :
  2 <= n <= 6 -> 0 <= M < 2 ^ (2 ^ n) -> 32 <= cap ->
  forall (k : nat) c st,
    0 <= c -> c + Z.of_nat k = 2 ^ n -> pair_inv M n c st ->
    pair_pass cap M n (Z.shiftl 1 n) (range c (2 ^ n)) st
    = pair_free M n (Z.shiftl 1 n) (range c (2 ^ n)) st.
Proof.
  intros Hn HM Hcap. induction k as [|k IH]; intros c st Hc Hk Hinv.
  - rewrite range_nil by lia. reflexivity.
  - rewrite range_cons by lia. cbn [pair_pass].
    destruct (Z.ltb_spec (group_count st) cap) as [Hlt|Hge].
    + cbn [pair_free fold_left]. apply (IH (c + 1)); [lia|lia|].
      destruct Hinv as (H1 & H2 & H3 & H4).
      apply pair_body_step; auto; lia.
    + symmetry. apply pair_free_idle.
      * intros c' [<-|Hc']; [lia|]. apply In_range in Hc'. lia.
      * destruct Hinv as (H1 & H2 & H3 & H4).
        apply (budget_spent M n st); auto; lia.
Qed.

Lemma initial_inv M D n :
  2 <= n <= 6 -> 0 <= M < 2 ^ (2 ^ n) -> 0 <= D < 2 ^ (2 ^ n) ->
  pair_inv M n 0 (initial_gstate M D).
Proof.
  intros Hn HM HD. pose proof (total_cells_bound n Hn) as Htot.
  unfold pair_inv, initial_gstate. cbn [groups].
  split; [|split; [constructor|split]].
  - split; [|split]; cbn [remaining_minterms available_for_grouping groups].
    + intros i Hi. rewrite Z.lor_spec in Hi. apply orb_prop in Hi.
      destruct Hi as [Hi|Hi];
        [apply (minterm_bits M n i Hn HM Hi)|apply (minterm_bits D n i Hn HD Hi)].
    + intros i Hi. rewrite Z.lor_spec.
      destruct (Z.testbit M i), (Z.testbit D i); reflexivity.
    + intros i Hi. change (covered_union []) with 0. rewrite Z.bits_0.
      reflexivity.
  - intros e He. lia.
  - unfold within_budget, group_count. cbn [groups remaining_minterms length].
    rewrite rem_blocks_eq.
    pose proof (filter_length_le (fun _ => true) (block_has M) (range 0 32)
                  (fun _ _ => eq_refl)) as Hle.
    assert (length (filter (fun _ : Z => true) (range 0 32)) = 32%nat) as H32
      by (vm_compute; reflexivity).
    rewrite H32 in Hle. clear H32. revert Hle.
    generalize (length (filter (block_has M) (range 0 32))).
    intros a Ha. lia.
Qed.

(** The state after the first loop of the engine. *)
Lemma pair_pass_inv M D n cap :
  2 <= n <= 6 -> 0 <= M < 2 ^ (2 ^ n) -> 0 <= D < 2 ^ (2 ^ n) -> 32 <= cap ->
  pair_pass cap M n (Z.shiftl 1 n) (range 0 (Z.shiftl 1 n))
    (initial_gstate M D)
  = pair_free M n (Z.shiftl 1 n) (range 0 (2 ^ n)) (initial_gstate M D)
  /\ pair_inv M n (2 ^ n)
       (pair_free M n (Z.shiftl 1 n) (range 0 (2 ^ n)) (initial_gstate M D)).
Proof.
  intros Hn HM HD Hcap. pose proof (total_cells_bound n Hn) as Htot.
  pose proof (initial_inv M D n Hn HM HD) as H0.
  split.
  - rewrite (total_cells_eq n) at 2 by lia.
    apply (pair_pass_free M n cap Hn HM Hcap (Z.to_nat (2 ^ n))); [lia|lia|].
    exact H0.
  - apply (pair_free_inv M n Hn HM (Z.to_nat (2 ^ n))); [lia|lia|exact H0].
Qed.

(** ** The quad pass and the final pass *)

Lemma quad_scan2_none M avail n total c l :
  (forall d, In d l -> 0 <= d) ->
  (forall d, In d l -> are_adjacent c d n = true ->
             Z.testbit avail d = false) ->
  quad_scan2 M avail n total c l = None.
Proof.
  induction l as [|d l IH]; intros Hpos Hno; [reflexivity|].
  cbn [quad_scan2].
  assert (quad_scan2 M avail n total c l = None) as Hrest.
  { apply IH; intros d' Hd'; [apply Hpos|apply Hno]; right; assumption. }
  destruct (are_adjacent c d n) eqn:Ea; cbn [negb]; [|exact Hrest].
  rewrite has_spec by (apply Hpos; left; reflexivity).
  rewrite (Hno d (or_introl eq_refl) Ea). cbn [negb]. exact Hrest.
Qed.

(** A required cell the first loop left uncovered finds no second cell. *)
Lemma quad_body_idle M n c st :
  2 <= n <= 6 -> 0 <= c < 2 ^ n -> settled n (2 ^ n) st ->
  quad_body M n (Z.shiftl 1 n) c st = st.
Proof.
  intros Hn Hc Hset. unfold quad_body. rewrite has_spec by lia.
  destruct (Z.testbit (remaining_minterms st) c) eqn:Er; cbn [negb];
    [|reflexivity].
  rewrite total_cells_eq by lia.
  rewrite quad_scan2_none; [reflexivity| |].
  - intros d Hd. apply In_range in Hd. lia.
  - intros d Hd Ha. apply In_range in Hd. apply (Hset c); auto; lia.
Qed.

Lemma quad_pass_idle M n cap l st :
  2 <= n <= 6 -> (forall c, In c l -> 0 <= c < 2 ^ n) ->
  settled n (2 ^ n) st ->
  quad_pass cap M n (Z.shiftl 1 n) l st = st.
Proof.
  intros Hn Hl Hset. induction l as [|c l IH]; [reflexivity|].
  cbn [quad_pass].
  destruct ((group_count st <? cap) && negb (remaining_minterms st =? 0));
    [|reflexivity].
  rewrite quad_body_idle by (auto; apply Hl; left; reflexivity).
  apply IH. intros c' Hc'. apply Hl. right. assumption.
Qed.

Lemma single_pass_all cap n l :
  (forall c, In c l -> 0 <= c) ->
  forall st,
    group_count st
    + Z.of_nat (length (filter (Z.testbit (remaining_minterms st)) l)) <= cap ->
    single_pass cap n l st = with_singles n l st.
Proof.
  intros Hl. induction l as [|c l IH]; intros st Hcap.
  - unfold with_singles. cbn [single_pass filter map].
    rewrite app_nil_r. destruct st; reflexivity.
  - assert (0 <= c) as Hc by (apply Hl; left; reflexivity).
    assert (forall c', In c' l -> 0 <= c') as Hl'
      by (intros c' ?; apply Hl; right; assumption).
    cbn [single_pass]. rewrite has_spec by assumption.
    unfold with_singles. cbn [filter] in *.
    destruct (Z.testbit (remaining_minterms st) c) eqn:Er.
    + cbn [length] in Hcap.
      destruct (Z.ltb_spec (group_count st) cap) as [Hlt|Hge]; [|lia].
      rewrite (IH Hl').
      * unfold with_singles. cbn [remaining_minterms available_for_grouping
                                   groups map].
        rewrite <- app_assoc. reflexivity.
      * unfold group_count in *. cbn [groups remaining_minterms].
        rewrite length_app. cbn [length]. lia.
    + destruct (Z.ltb_spec (group_count st) cap) as [Hlt|Hge].
      * apply (IH Hl'). exact Hcap.
      * assert (filter (Z.testbit (remaining_minterms st)) l = []) as ->.
        { destruct (filter (Z.testbit (remaining_minterms st)) l);
            [reflexivity|]. cbn [length] in Hcap. lia. }
        cbn [map]. rewrite app_nil_r. destruct st; reflexivity.
Qed.

Lemma range_app a b c : a <= b <= c -> range a c = range a b ++ range b c.
Proof.
  intros H. remember (Z.to_nat (b - a)) as k eqn:Hk.
  revert a H Hk. induction k as [|k IH]; intros a H Hk.
  - assert (a = b) as -> by lia. rewrite (range_nil b b) by lia. reflexivity.
  - rewrite (range_cons a c), (range_cons a b) by lia.
    cbn [app]. f_equal. apply IH; lia.
Qed.

Lemma range_one a : range a (a + 1) = [a].
Proof. rewrite range_cons, range_nil by lia. reflexivity. Qed.

(** When no block holds two cells of [rem], the cells of [rem] are no more
    than the blocks that hold one. *)
Lemma cells_le_blocks rem :
  (forall k, 0 <= k -> Z.testbit rem (2 * k) = true ->
             Z.testbit rem (2 * k + 1) = false) ->
  forall m : nat,
    (length (filter (Z.testbit rem) (range 0 (2 * Z.of_nat m)))
     <= length (filter (block_has rem) (range 0 (Z.of_nat m))))%nat.
Proof.
  intros Hone. induction m as [|m IH].
  - rewrite !range_nil by lia. cbn. lia.
  - rewrite (range_app 0 (Z.of_nat m) (Z.of_nat (S m))) by lia.
    rewrite (range_app 0 (2 * Z.of_nat m) (2 * Z.of_nat (S m))) by lia.
    replace (Z.of_nat (S m)) with (Z.of_nat m + 1) by lia.
    rewrite range_one.
    rewrite (range_cons (2 * Z.of_nat m)) by lia.
    replace (2 * (Z.of_nat m + 1)) with (2 * Z.of_nat m + 1 + 1) by lia.
    rewrite range_one, !filter_app, !length_app.
    cbn [filter]. unfold block_has at 2.
    specialize (Hone (Z.of_nat m) ltac:(lia)).
    destruct (Z.testbit rem (2 * Z.of_nat m)).
    + rewrite (Hone eq_refl). cbn [orb length]. lia.
    + cbn [orb]. destruct (Z.testbit rem (2 * Z.of_nat m + 1)); cbn [length]; lia.
Qed.

(** After the first loop the groups and the cells that remain fit in the
    capacity of 32. *)
Lemma singles_fit M n st :
  2 <= n <= 6 -> pair_inv M n (2 ^ n) st ->
  group_count st
  + Z.of_nat (length (filter (Z.testbit (remaining_minterms st))
                        (range 0 (2 ^ n)))) <= 32.
Proof.
  intros Hn ((Hdom & Hrem & Hcov) & _ & Hset & Hbud).
  pose proof (total_cells_bound n Hn) as Htot.
  unfold within_budget in Hbud. rewrite rem_blocks_eq in Hbud.
  assert (forall k, 0 <= k ->
            Z.testbit (remaining_minterms st) (2 * k) = true ->
            Z.testbit (remaining_minterms st) (2 * k + 1) = false) as Hone.
  { intros k Hk Hb.
    assert (0 <= 2 * k < 2 ^ n) as Hk2.
    { apply Hdom. rewrite Hrem in Hb by lia. apply andb_prop in Hb. tauto. }
    assert (Z.even (2 * k) = true) as Hev by (apply Z.even_spec; exists k; lia).
    pose proof (adjacent_block n (2 * k) Hn Hk2 Hev) as Hadj.
    destruct (Z.testbit (remaining_minterms st) (2 * k + 1)) eqn:E;
      [|reflexivity].
    rewrite Hrem in E by lia. apply andb_prop in E. destruct E as [E _].
    pose proof (Hdom _ E) as Hk3.
    rewrite (Hset (2 * k) ltac:(lia) Hb (2 * k + 1) ltac:(lia) Hadj) in E.
    discriminate. }
  pose proof (cells_le_blocks _ Hone 32) as Hle.
  change (2 * Z.of_nat 32) with 64 in Hle.
  change (Z.of_nat 32) with 32 in Hle.
  rewrite (range_app 0 (2 ^ n) 64), filter_app, length_app in Hle by lia.
  revert Hle Hbud.
  generalize (length (filter (Z.testbit (remaining_minterms st))
                        (range 0 (2 ^ n)))).
  generalize (length (filter (Z.testbit (remaining_minterms st))
                        (range (2 ^ n) 64))).
  generalize (length (filter (block_has (remaining_minterms st))
                        (range 0 32))).
  unfold group_count. generalize (length (groups st)).
  intros a b c d Hle Hbud. lia.
Qed.

(** The state the engine returns, for every capacity of at least 32: the
    pairs of the first loop, then one single-cell group for each cell that
    remains, in increasing order. *)
Lemma engine_result M D n cap :
  2 <= n <= 6 -> 0 <= M < 2 ^ (2 ^ n) -> 0 <= D < 2 ^ (2 ^ n) -> 32 <= cap ->
  find_groups_cap cap M D n
  = with_singles n (range 0 (2 ^ n))
      (pair_free M n (Z.shiftl 1 n) (range 0 (2 ^ n)) (initial_gstate M D))
  /\ pair_inv M n (2 ^ n)
       (pair_free M n (Z.shiftl 1 n) (range 0 (2 ^ n)) (initial_gstate M D)).
Proof.
  intros Hn HM HD Hcap. pose proof (total_cells_bound n Hn) as Htot.
  destruct (pair_pass_inv M D n cap Hn HM HD Hcap) as [Heq Hinv].
  split; [|exact Hinv].
  unfold find_groups_cap. rewrite Heq.
  rewrite quad_pass_idle.
  - rewrite (total_cells_eq n) at 1 by lia.
    apply single_pass_all.
    + intros c Hc. apply In_range in Hc. lia.
    + pose proof (singles_fit M n _ Hn Hinv). lia.
  - exact Hn.
  - intros c Hc. rewrite total_cells_eq in Hc by lia.
    apply In_range in Hc. exact Hc.
  - destruct Hinv as (_ & _ & Hset & _). exact Hset.
Qed.

(** ** The redundancy reducer *)

Lemma length_store i x arr : length (store i x arr) = length arr.
Proof.
  revert i. induction arr as [|a arr IH]; intros [|i]; cbn; auto.
Qed.

Lemma slot_store_same i x arr :
  (i < length arr)%nat -> slot (store i x arr) i = x.
Proof.
  unfold slot. revert i.
  induction arr as [|a arr IH]; intros [|i] Hi; cbn in *; try lia; auto.
  apply IH. lia.
Qed.

Lemma slot_store_other i k x arr :
  i <> k -> slot (store i x arr) k = slot arr k.
Proof.
  unfold slot. revert i k.
  induction arr as [|a arr IH]; intros [|i] [|k] Hik; cbn; auto; try lia.
Qed.

Lemma firstn_store_below i x arr w :
  (w <= i)%nat -> firstn w (store i x arr) = firstn w arr.
Proof.
  revert i w. induction arr as [|a arr IH]; intros [|i] [|w] Hw; cbn;
    auto; try lia.
  f_equal. apply IH. lia.
Qed.

Lemma firstn_snoc_slot (arr : list implicant_t) w :
  (w < length arr)%nat -> firstn (S w) arr = firstn w arr ++ [slot arr w].
Proof.
  unfold slot. revert w.
  induction arr as [|a arr IH]; intros [|w] Hw; cbn in *; try lia; auto.
  f_equal. apply IH. lia.
Qed.

Lemma list_eq_slots (l1 l2 : list implicant_t) :
  length l1 = length l2 ->
  (forall i, (i < length l1)%nat -> slot l1 i = slot l2 i) -> l1 = l2.
Proof.
  intros Hlen Hs. apply (nth_ext l1 l2 zero_implicant zero_implicant Hlen Hs).
Qed.

Lemma set_size_same g : set_size g (size g) = g.
Proof. destruct g; reflexivity. Qed.

(** A slot of the array is the original or the original marked. *)
Lemma sweep_inv_slot imps arr t i :
  sweep_inv imps arr t -> (i < length imps)%nat ->
  slot arr i = slot imps i \/ slot arr i = set_size (slot imps i) 0.
Proof.
  intros (_ & Hlow & Hhigh & _) Hi.
  destruct (Nat.lt_ge_cases i t) as [Hlt|Hge].
  - rewrite (Hlow i Hlt Hi). unfold spec_mark.
    destruct (spec_subsumed imps i); auto.
  - left. apply Hhigh, Hge.
Qed.

Lemma sweep_inv_live imps arr t k :
  sweep_inv imps arr t -> (k < length imps)%nat ->
  size (slot arr k) <> 0 -> slot arr k = slot imps k.
Proof.
  intros Hinv Hk Hsz.
  destruct (sweep_inv_slot imps arr t k Hinv Hk) as [H|H]; [exact H|].
  rewrite H in Hsz. cbn in Hsz. congruence.
Qed.

(** The test of the program on the array as it is and the test of the
    specification on the original solution agree. *)
Lemma redundant_now_spec imps arr t :
  sweep_inv imps arr t -> (t < length imps)%nat ->
  redundant_now arr (length imps) t = spec_subsumed imps t.
Proof.
  intros Hinv Ht. pose proof Hinv as (Hlen & Hlow & Hhigh & Hdom).
  assert (slot arr t = slot imps t) as Hst by (apply Hhigh; lia).
  apply eq_iff_eq_true. unfold redundant_now, spec_subsumed.
  rewrite !existsb_exists. split.
  - intros (j & Hj & Hc). apply in_seq in Hj. exists j. split;
      [apply in_seq; lia|].
    unfold covers_now in Hc.
    apply andb_prop in Hc. destruct Hc as [Hc Hgt].
    apply andb_prop in Hc. destruct Hc as [Hne Hsub].
    apply negb_true_iff, orb_false_elim in Hne. destruct Hne as [Hne Hz].
    assert (slot arr j = slot imps j) as Hsj.
    { apply (sweep_inv_live imps arr t j Hinv); [lia|].
      apply Z.eqb_neq. exact Hz. }
    rewrite Hst, Hsj in *. rewrite Hsub, Hz. cbn [negb andb].
    apply Nat.eqb_neq in Hne.
    destruct (Nat.eqb_spec j t) as [->|_]; [congruence|]. cbn [negb andb].
    apply Z.ltb_lt. apply Z.gtb_lt in Hgt. exact Hgt.
  - intros (j & Hj & Hc). apply in_seq in Hj.
    apply andb_prop in Hc. destruct Hc as [Hc Hlt].
    apply andb_prop in Hc. destruct Hc as [Hc Hsub].
    apply andb_prop in Hc. destruct Hc as [Hne Hz].
    apply negb_true_iff in Hne, Hz.
    apply Nat.eqb_neq in Hne. apply Z.eqb_neq in Hz. apply Z.eqb_eq in Hsub.
    apply Z.ltb_lt in Hlt.
    destruct (Hdom j ltac:(lia) Hz) as (k & Hk & Hsk & Hzk & Hjk & Hor).
    assert (size (slot imps t) < size (slot imps k)) as Hlt' by
      (destruct Hor as [->|]; lia).
    exists k. split; [apply in_seq; lia|].
    unfold covers_now. rewrite Hst, Hsk.
    rewrite (land_subset_trans _ _ _ Hsub Hjk), Z.eqb_refl.
    destruct (Nat.eqb_spec t k) as [->|_]; [lia|].
    destruct (Z.eqb_spec (size (slot imps k)) 0); [congruence|].
    cbn [orb negb andb]. apply Z.gtb_lt. exact Hlt'.
Qed.

Lemma sweep_inv_step imps arr t :
  sweep_inv imps arr t -> (t < length imps)%nat ->
  sweep_inv imps
    (if size (slot arr t) =? 0 then arr
     else if redundant_now arr (length imps) t
          then store t (set_size (slot arr t) 0) arr else arr)
    (S t).
Proof.
  intros Hinv Ht. pose proof Hinv as (Hlen & Hlow & Hhigh & Hdom).
  assert (slot arr t = slot imps t) as Hst by (apply Hhigh; lia).
  assert (Hkeep : spec_mark imps t = slot imps t -> sweep_inv imps arr (S t)).
  { intros Hm. split; [exact Hlen|]. split; [|split; [|exact Hdom]].
    - intros i Hi Hi'. destruct (Nat.eq_dec i t) as [->|];
        [congruence|apply Hlow; lia].
    - intros i Hi. apply Hhigh. lia. }
  destruct (Z.eqb_spec (size (slot arr t)) 0) as [Hz|Hnz].
  - apply Hkeep. unfold spec_mark. destruct (spec_subsumed imps t);
      [|reflexivity].
    rewrite Hst in Hz. rewrite <- Hz. apply set_size_same.
  - rewrite (redundant_now_spec imps arr t Hinv Ht).
    destruct (spec_subsumed imps t) eqn:Esub.
    2:{ apply Hkeep. unfold spec_mark. rewrite Esub. reflexivity. }
    pose proof Esub as Enow.
    rewrite <- (redundant_now_spec imps arr t Hinv Ht) in Enow.
    unfold redundant_now in Enow. apply existsb_exists in Enow.
    destruct Enow as (j0 & Hj0 & Hc). apply in_seq in Hj0.
    unfold covers_now in Hc.
    apply andb_prop in Hc. destruct Hc as [Hc Hgt].
    apply andb_prop in Hc. destruct Hc as [Hne Hsub].
    apply negb_true_iff, orb_false_elim in Hne. destruct Hne as [Hne Hz].
    apply Nat.eqb_neq in Hne. apply Z.eqb_neq in Hz. apply Z.eqb_eq in Hsub.
    apply Z.gtb_lt in Hgt.
    assert (slot arr j0 = slot imps j0) as Hsj
      by (apply (sweep_inv_live imps arr t j0 Hinv); [lia|exact Hz]).
    rewrite Hst, Hsj in *.
    split; [rewrite length_store; exact Hlen|]. split; [|split].
    + intros i Hi Hi'. destruct (Nat.eq_dec i t) as [->|Hit].
      * rewrite slot_store_same by lia. unfold spec_mark. rewrite Esub.
        reflexivity.
      * rewrite slot_store_other by lia. apply Hlow; lia.
    + intros i Hi. rewrite slot_store_other by lia. apply Hhigh. lia.
    + intros j Hj Hzj.
      destruct (Hdom j Hj Hzj) as (k & Hk & Hsk & Hzk & Hjk & Hor).
      destruct (Nat.eq_dec k t) as [->|Hkt].
      * exists j0. split; [lia|]. split;
          [rewrite slot_store_other by lia; exact Hsj|].
        split; [exact Hz|]. split;
          [exact (land_subset_trans _ _ _ Hjk Hsub)|].
        right. destruct Hor as [->|]; lia.
      * exists k. split; [exact Hk|]. split;
          [rewrite slot_store_other by lia; exact Hsk|]. auto.
Qed.

Lemma sweep_loop_inv imps :
  forall (m t : nat) arr,
    (t + m = length imps)%nat -> sweep_inv imps arr t ->
    sweep_inv imps (sweep_loop (length imps) (seq t m) arr) (length imps).
Proof.
  induction m as [|m IH]; intros t arr Htm Hinv.
  - cbn [seq sweep_loop]. replace (length imps) with t by lia. exact Hinv.
  - cbn [seq sweep_loop].
    pose proof (sweep_inv_step imps arr t Hinv ltac:(lia)) as Hstep.
    destruct (size (slot arr t) =? 0);
      [|destruct (redundant_now arr (length imps) t)];
      apply (IH (S t)); auto; lia.
Qed.

Lemma sweep_inv_start imps : sweep_inv imps imps 0.
Proof.
  split; [reflexivity|]. split; [intros i Hi; lia|]. split; [reflexivity|].
  intros j Hj Hz. exists j. split; [exact Hj|]. split; [reflexivity|].
  split; [exact Hz|]. split; [apply Z.land_diag|]. left. reflexivity.
Qed.

(** The sweep of the program is the sweep of the specification. *)
Lemma sweep_spec imps : sweep imps = spec_sweep imps.
Proof.
  pose proof (sweep_loop_inv imps (length imps) 0 imps eq_refl
                (sweep_inv_start imps)) as (Hlen & Hlow & _).
  fold (sweep imps) in Hlen, Hlow.
  apply list_eq_slots.
  - unfold spec_sweep. rewrite length_map, length_seq. exact Hlen.
  - intros i Hi. rewrite Hlen in Hi. rewrite (Hlow i Hi Hi).
    unfold spec_sweep, slot.
    rewrite (nth_indep _ zero_implicant (spec_mark imps 0))
      by (rewrite length_map, length_seq; exact Hi).
    rewrite map_nth, seq_nth by exact Hi. reflexivity.
Qed.

Lemma length_sweep imps : length (sweep imps) = length imps.
Proof.
  rewrite sweep_spec. unfold spec_sweep. rewrite length_map, length_seq.
  reflexivity.
Qed.

(** The compaction loop leaves, below [write_pos], the live slots in their
    order. *)
Lemma compact_loop_spec (orig : list implicant_t) :
  forall (m r w : nat) arr,
    (r + m = length orig)%nat -> (w <= r)%nat -> length arr = length orig ->
    firstn w arr = filter (fun g => size g >? 0) (firstn r orig) ->
    (forall k, (r <= k)%nat -> slot arr k = slot orig k) ->
    firstn (fst (compact_loop (seq r m) w arr))
           (snd (compact_loop (seq r m) w arr))
    = filter (fun g => size g >? 0) orig.
Proof.
  induction m as [|m IH]; intros r w arr Hrm Hw Hlen Hpre Hrest.
  - cbn [seq compact_loop fst snd]. rewrite Hpre.
    replace r with (length orig) by lia. rewrite firstn_all. reflexivity.
  - cbn [seq compact_loop].
    assert (slot arr r = slot orig r) as Hr by (apply Hrest; lia).
    assert (filter (fun g => size g >? 0) (firstn (S r) orig)
            = filter (fun g => size g >? 0) (firstn r orig)
              ++ (if size (slot orig r) >? 0 then [slot orig r] else []))
      as Hnext.
    { rewrite firstn_snoc_slot, filter_app by lia. cbn [filter].
      destruct (size (slot orig r) >? 0); reflexivity. }
    rewrite Hr. destruct (size (slot orig r) >? 0) eqn:Elive.
    + apply IH; try lia.
      * destruct (Nat.eqb_spec w r); cbn [negb];
          [|rewrite length_store]; exact Hlen.
      * rewrite Hnext, <- Hpre.
        destruct (Nat.eqb_spec w r) as [->|Hne]; cbn [negb].
        -- rewrite firstn_snoc_slot, Hr by lia. reflexivity.
        -- rewrite firstn_snoc_slot by (rewrite length_store; lia).
           rewrite firstn_store_below, slot_store_same by lia. reflexivity.
      * intros k Hk. destruct (Nat.eqb_spec w r); cbn [negb];
          [|rewrite slot_store_other by lia]; apply Hrest; lia.
    + apply IH; try lia; auto.
      * rewrite Hnext, app_nil_r. exact Hpre.
      * intros k Hk. apply Hrest. lia.
Qed.

Lemma reduce_spec (s : solution_t) :
  implicants (remove_redundant_implicants s)
  = filter (fun g => size g >? 0) (spec_sweep (implicants s)).
Proof.
  unfold remove_redundant_implicants.
  pose proof (compact_loop_spec (sweep (implicants s))
                (length (implicants s)) 0 0 (sweep (implicants s))) as H.
  rewrite length_sweep in H.
  specialize (H eq_refl (le_n 0) eq_refl eq_refl (fun _ _ => eq_refl)).
  destruct (compact_loop (seq 0 (length (implicants s))) 0
              (sweep (implicants s))) as [w arr].
  cbn [implicants fst snd] in *. rewrite H, sweep_spec. reflexivity.
Qed.

Lemma In_slot (l : list implicant_t) g :
  In g l -> exists i, (i < length l)%nat /\ slot l i = g.
Proof. intros H. apply (In_nth l g zero_implicant H). Qed.

Lemma slot_In (l : list implicant_t) i :
  (i < length l)%nat -> In (slot l i) l.
Proof. intros H. apply nth_In, H. Qed.

Lemma subset_testbit a b i :
  Z.land a b = a -> Z.testbit a i = true -> Z.testbit b i = true.
Proof.
  intros Hab Ha. rewrite <- Hab, Z.land_spec in Ha.
  apply andb_prop in Ha. tauto.
Qed.

(** The reducer keeps the union of the covered minterms, when no implicant
    comes in already removed. *)
Lemma reduce_cover (s : solution_t) :
  Forall (fun g => 0 < size g) (implicants s) ->
  covered_union (implicants (remove_redundant_implicants s))
  = covered_union (implicants s).
Proof.
  intros Hpos. rewrite Forall_forall in Hpos.
  rewrite reduce_spec, <- sweep_spec.
  set (imps := implicants s) in *.
  pose proof (sweep_loop_inv imps (length imps) 0 imps eq_refl
                (sweep_inv_start imps)) as Hinv.
  fold (sweep imps) in Hinv.
  pose proof Hinv as (Hlen & _ & _ & Hdom).
  apply Z.bits_inj'. intros i Hi.
  rewrite !testbit_covered_union. apply eq_iff_eq_true.
  rewrite !existsb_exists. split.
  - intros (g & Hg & Hb). apply filter_In in Hg. destruct Hg as [Hg _].
    apply In_slot in Hg. destruct Hg as (k & Hk & <-).
    rewrite Hlen in Hk. exists (slot imps k). split; [apply slot_In, Hk|].
    destruct (sweep_inv_slot imps (sweep imps) _ k Hinv Hk) as [H|H];
      rewrite H in Hb; exact Hb.
  - intros (g & Hg & Hb). pose proof (Hpos g Hg) as Hsz.
    apply In_slot in Hg. destruct Hg as (j & Hj & <-).
    destruct (Hdom j Hj ltac:(lia)) as (k & Hk & Hsk & Hzk & Hjk & _).
    exists (slot imps k). split.
    + apply filter_In. split.
      * rewrite <- Hsk. apply slot_In. rewrite Hlen. exact Hk.
      * apply Z.gtb_lt. apply Hpos, slot_In, Hk.
    + exact (subset_testbit _ _ i Hjk Hb).
Qed.

(** Every implicant the reducer returns is one it was given. *)
Lemma reduce_incl (s : solution_t) g :
  In g (implicants (remove_redundant_implicants s)) -> In g (implicants s).
Proof.
  rewrite reduce_spec. intros Hg. apply filter_In in Hg.
  destruct Hg as [Hg Hlive]. unfold spec_sweep in Hg.
  apply in_map_iff in Hg. destruct Hg as (i & <- & Hi). apply in_seq in Hi.
  unfold spec_mark in *. destruct (spec_subsumed (implicants s) i).
  - cbn in Hlive. discriminate.
  - apply slot_In. lia.
Qed.

(** ** What the engine returns *)

Lemma popcount_eq v :
  popcount v = Z.of_nat (length (filter (Z.testbit v) (range 0 64))).
Proof. reflexivity. Qed.

Lemma popcount_pos v i :
  0 <= i < 64 -> Z.testbit v i = true -> 0 < popcount v.
Proof.
  intros Hi Hb. rewrite popcount_eq.
  assert (In i (filter (Z.testbit v) (range 0 64))) as Hin
    by (apply filter_In; split; [apply In_range; lia|exact Hb]).
  destruct (filter (Z.testbit v) (range 0 64)); [destruct Hin|].
  cbn [length]. lia.
Qed.

Lemma popcount_zero v :
  (forall i, 0 <= i < 64 -> Z.testbit v i = false) -> popcount v = 0.
Proof.
  intros Hz. rewrite popcount_eq.
  assert (filter (Z.testbit v) (range 0 64) = []) as ->; [|reflexivity].
  destruct (filter (Z.testbit v) (range 0 64)) as [|i l] eqn:E; [reflexivity|].
  assert (In i (filter (Z.testbit v) (range 0 64))) as Hin
    by (rewrite E; left; reflexivity).
  apply filter_In in Hin. destruct Hin as [Hin Hb]. apply In_range in Hin.
  rewrite Hz in Hb by lia. discriminate.
Qed.

Lemma singles_cover n rem T i :
  0 <= i -> (Z.testbit rem i = true -> i < T) ->
  Z.testbit (covered_union
               (map (single_implicant n) (filter (Z.testbit rem) (range 0 T))))
            i
  = Z.testbit rem i.
Proof.
  intros Hi Hdom. rewrite testbit_covered_union. apply eq_iff_eq_true.
  rewrite existsb_exists. split.
  - intros (g & Hg & Hb). apply in_map_iff in Hg.
    destruct Hg as (c & <- & Hc). apply filter_In in Hc.
    destruct Hc as [Hc Hrc]. apply In_range in Hc.
    cbn [single_implicant covered_minterms] in Hb.
    rewrite testbit_bit in Hb by lia. apply Z.eqb_eq in Hb. subst i.
    exact Hrc.
  - intros Hb. exists (single_implicant n i). split.
    + apply in_map. apply filter_In. split; [|exact Hb].
      apply In_range. specialize (Hdom Hb). lia.
    + cbn [single_implicant covered_minterms].
      rewrite testbit_bit by lia. apply Z.eqb_refl.
Qed.

(** The groups of the engine cover the minterms exactly, for every capacity
    of at least 32. *)
Lemma engine_cover M D n cap :
  2 <= n <= 6 -> 0 <= M < 2 ^ (2 ^ n) -> 0 <= D < 2 ^ (2 ^ n) -> 32 <= cap ->
  covered_union (groups (find_groups_cap cap M D n)) = M.
Proof.
  intros Hn HM HD Hcap.
  destruct (engine_result M D n cap Hn HM HD Hcap)
    as [-> ((Hdom & Hrem & Hcov) & _)].
  unfold with_singles. cbn [groups].
  apply Z.bits_inj'. intros i Hi.
  rewrite covered_union_app, Z.lor_spec, singles_cover.
  - apply Hcov, Hi.
  - exact Hi.
  - intros Hb. apply Hdom. rewrite Hrem in Hb by lia.
    apply andb_prop in Hb. tauto.
Qed.

(** Every group of the engine is a pair of the first loop or a single cell. *)
Lemma engine_shapes M D n cap :
  2 <= n <= 6 -> 0 <= M < 2 ^ (2 ^ n) -> 0 <= D < 2 ^ (2 ^ n) -> 32 <= cap ->
  Forall (engine_shaped M n) (groups (find_groups_cap cap M D n)).
Proof.
  intros Hn HM HD Hcap.
  destruct (engine_result M D n cap Hn HM HD Hcap)
    as [-> ((Hdom & Hrem & Hcov) & Hshape & _)].
  unfold with_singles. cbn [groups]. apply Forall_app. split.
  - apply (Forall_impl _ (fun g H => or_introl H) Hshape).
  - apply Forall_forall. intros g Hg. apply in_map_iff in Hg.
    destruct Hg as (c & <- & Hc). apply filter_In in Hc.
    destruct Hc as [Hc Hb]. apply In_range in Hc.
    right. exists c. split; [lia|]. split; [|reflexivity].
    rewrite Hrem in Hb by lia. apply andb_prop in Hb. tauto.
Qed.

(** A group of the engine covers at least one minterm and counts it. *)
Lemma engine_shaped_size M n g :
  2 <= n <= 6 -> engine_shaped M n g -> 0 < size g.
Proof.
  intros Hn [(c & d & Hcd & Hd & Ha & HMc & ->)|(c & Hc & HMc & ->)].
  - pose proof (total_cells_bound n Hn).
    cbn [pair_implicant size].
    apply (popcount_pos _ c); [lia|].
    change (Z.land (Z.lor (bit c) (bit d)) M)
      with (covered_minterms (pair_implicant M n c d)).
    rewrite testbit_pair_cover, Z.eqb_refl, HMc by lia. reflexivity.
  - cbn. lia.
Qed.

(** A group of the engine is a faithful product term on the cells it counts
    as covered. *)
Lemma engine_shaped_faithful M n g m :
  2 <= n <= 6 -> engine_shaped M n g ->
  Z.testbit (covered_minterms g) m = true ->
  Z.land m (literal_mask g) = literal_values g.
Proof.
  intros Hn Hg Hb. pose proof (total_cells_bound n Hn).
  destruct Hg as [(c & d & Hcd & Hd & Ha & HMc & ->)|(c & Hc & HMc & ->)].
  - rewrite testbit_pair_cover in Hb by lia.
    apply andb_prop in Hb. destruct Hb as [Hb _].
    destruct (adjacent_fields M n c d Hn ltac:(lia) ltac:(lia) Ha)
      as (_ & _ & _ & _ & Hvc & Hvd).
    apply orb_prop in Hb.
    destruct Hb as [Hb|Hb]; apply Z.eqb_eq in Hb; subst m; assumption.
  - cbn [single_implicant covered_minterms] in Hb.
    rewrite testbit_bit in Hb by lia. apply Z.eqb_eq in Hb. subst m.
    apply (single_fields n c Hn Hc).
Qed.

(** The mask of a group of the engine fixes all the variables, or all but
    one. *)
Lemma engine_shaped_mask M n g :
  2 <= n <= 6 -> engine_shaped M n g -> n - 1 <= popcount (literal_mask g).
Proof.
  intros Hn Hg. pose proof (total_cells_bound n Hn).
  destruct Hg as [(c & d & Hcd & Hd & Ha & HMc & ->)|(c & Hc & HMc & ->)].
  - destruct (adjacent_fields M n c d Hn ltac:(lia) ltac:(lia) Ha)
      as (_ & _ & _ & Hp & _). lia.
  - destruct (single_fields n c Hn Hc) as [Hp _]. lia.
Qed.

(** ** Validation and the entry point *)

Lemma outside_domain_zero x k :
  0 <= k -> (forall i, Z.testbit x i = true -> i < k) ->
  Z.land x (not64 (2 ^ k - 1)) = 0.
Proof.
  intros Hk Hx. apply Z.bits_inj'. intros i Hi.
  rewrite Z.bits_0, Z.land_spec, testbit_not64 by assumption.
  destruct (Z.testbit x i) eqn:E; [|reflexivity].
  pose proof (Hx i E) as Hik.
  replace (2 ^ k - 1) with (Z.ones k) by (rewrite Z.ones_equiv; lia).
  rewrite Z.testbit_ones_nonneg by lia.
  destruct (Z.ltb_spec i k); [reflexivity|lia].
Qed.

Lemma domain_pow_small n : 2 <= n <= 5 -> 0 < 2 ^ (2 ^ n) < 2 ^ 64.
Proof.
  intros Hn. assert (4 <= 2 ^ n <= 32) as Hb.
  { split.
    - change 4 with (2 ^ 2). apply Z.pow_le_mono_r; lia.
    - change 32 with (2 ^ 5). apply Z.pow_le_mono_r; lia. }
  split; [apply Z.pow_pos_nonneg; lia|apply Z.pow_lt_mono_r; lia].
Qed.

(** Up to five variables the shift of the range check is inside the width
    and the validation accepts every table that satisfies the invariants. *)
Lemma validate_small sm t :
  valid_table t -> num_vars t <= 5 ->
  validate_truth_table sm (Some t) = Some true.
Proof.
  intros (Hn & Hdis & HM & HD & Hcnt) H5.
  assert (2 <= num_vars t <= 5) as Hn5 by lia.
  pose proof (domain_pow_small _ Hn5) as Hpow.
  assert (4 <= 2 ^ num_vars t <= 32) as Hb.
  { split.
    - change 4 with (2 ^ 2). apply Z.pow_le_mono_r; lia.
    - change 32 with (2 ^ 5). apply Z.pow_le_mono_r; lia. }
  unfold validate_truth_table, MAX_VARIABLES, shl64.
  destruct (Z.ltb_spec (num_vars t) 2); [lia|].
  destruct (Z.gtb_spec (num_vars t) 6); [lia|]. cbn [orb].
  rewrite total_cells_eq by lia.
  destruct (Z.ltb_spec (2 ^ num_vars t) 64); [|lia].
  rewrite Z.mul_1_l, (Z.mod_small (2 ^ 2 ^ num_vars t)) by lia.
  rewrite (Z.mod_small (2 ^ 2 ^ num_vars t - 1)) by lia.
  rewrite Hdis. cbn [Z.eqb negb].
  rewrite outside_domain_zero.
  - cbn [Z.eqb negb]. rewrite Hcnt, Z.eqb_refl. reflexivity.
  - lia.
  - intros i Hi. rewrite Z.lor_spec in Hi. apply orb_prop in Hi.
    destruct Hi as [Hi|Hi];
      [apply (testbit_bound _ _ i HM)|apply (testbit_bound _ _ i HD)];
      auto; lia.
Qed.

(** With six variables the range check shifts by 64: the C language gives
    the shift no result, and a shifter that takes the count modulo 64 makes
    the domain mask empty, so that every table with a cell is rejected. *)
Lemma validate_six t :
  num_vars t = 6 ->
  validate_truth_table C_undefined (Some t) = None
  /\ (Z.land (minterms t) (dont_cares t) = 0 ->
      0 <= Z.lor (minterms t) (dont_cares t) < 2 ^ 64 ->
      Z.lor (minterms t) (dont_cares t) <> 0 ->
      validate_truth_table Count_mod_64 (Some t) = Some false).
Proof.
  intros H6. unfold validate_truth_table. rewrite H6. split; [reflexivity|].
  intros Hdis Hb Hnz.
  change ((6 <? 2) || (6 >? MAX_VARIABLES)) with false.
  change (shl64 Count_mod_64 1 (Z.shiftl 1 6)) with (Some 1).
  cbv iota. rewrite Hdis. cbn [Z.eqb negb].
  change ((1 - 1) mod 2 ^ 64) with 0.
  assert (Z.land (Z.lor (minterms t) (dont_cares t)) (not64 0)
          = Z.lor (minterms t) (dont_cares t)) as ->.
  { apply Z.bits_inj'. intros i Hi.
    rewrite Z.land_spec, testbit_not64, Z.bits_0 by assumption.
    destruct (Z.testbit (Z.lor (minterms t) (dont_cares t)) i) eqn:E;
      [|reflexivity].
    pose proof (testbit_bound _ 64 i Hb ltac:(lia) E).
    destruct (Z.ltb_spec i 64); [reflexivity|lia]. }
  apply Z.eqb_neq in Hnz. rewrite Hnz. reflexivity.
Qed.

Lemma find_filter {A : Type} (f : A -> bool) (l : list A) :
  find f l = match filter f l with [] => None | x :: _ => Some x end.
Proof.
  induction l as [|a l IH]; [reflexivity|]. cbn [find filter].
  destruct (f a); [reflexivity|exact IH].
Qed.

(** A word with one bit set is the bit at its count of trailing zeros. *)
Lemma single_bit_word M :
  0 <= M < 2 ^ 64 -> popcount M = 1 ->
  0 <= ctz M < 64 /\ Z.testbit M (ctz M) = true /\ bit (ctz M) = M.
Proof.
  intros HM Hp. rewrite popcount_eq in Hp. unfold ctz. rewrite find_filter.
  destruct (filter (Z.testbit M) (range 0 64)) as [|x [|y l]] eqn:E;
    cbn [length] in Hp; try lia.
  assert (In x (filter (Z.testbit M) (range 0 64))) as Hx
    by (rewrite E; left; reflexivity).
  apply filter_In in Hx. destruct Hx as [Hx Hbx]. apply In_range in Hx.
  split; [lia|]. split; [exact Hbx|].
  apply Z.bits_inj'. intros i Hi. rewrite testbit_bit by lia.
  destruct (Z.eqb_spec x i) as [->|Hne]; [symmetry; exact Hbx|].
  destruct (Z.testbit M i) eqn:Ei; [|reflexivity].
  pose proof (testbit_bound M 64 i HM ltac:(lia) Ei) as Hi64.
  assert (In i (filter (Z.testbit M) (range 0 64))) as Hin
    by (apply filter_In; split; [apply In_range; lia|exact Ei]).
  rewrite E in Hin. destruct Hin as [->|[]]. congruence.
Qed.

(** The three ways the entry point succeeds. *)
Lemma find_prime_implicants_success sm t s0 sol :
  find_prime_implicants sm (Some t) (Some s0) = Some (0, Some sol) ->
  validate_truth_table sm (Some t) = Some true /\
  ((minterm_count t = 0 /\ sol = zero_solution)
   \/ (minterm_count t = 1 /\
       implicants sol = [single_implicant (num_vars t) (ctz (minterms t))])
   \/ (minterm_count t <> 0 /\ minterm_count t <> 1 /\
       implicants sol
       = implicants
           (remove_redundant_implicants
              {| implicants :=
                   find_groups_with_dont_cares (minterms t) (dont_cares t)
                     (num_vars t);
                 literal_count := 0;
                 term_count := 0 |}))).
Proof.
  unfold find_prime_implicants.
  destruct (validate_truth_table sm (Some t)) as [[|]|]; try discriminate.
  intros H. split; [reflexivity|].
  destruct (Z.eqb_spec (minterm_count t) 0) as [H0|H0].
  - left. split; [exact H0|]. congruence.
  - destruct (Z.eqb_spec (minterm_count t) 1) as [H1|H1].
    + right. left. split; [exact H1|].
      injection H as <-. reflexivity.
    + right. right. split; [exact H0|]. split; [exact H1|].
      injection H as <-. reflexivity.
Qed.

Lemma valid_table_word t :
  valid_table t ->
  0 <= minterms t < 2 ^ 64 /\ 0 <= dont_cares t < 2 ^ 64.
Proof.
  intros (Hn & _ & HM & HD & _).
  pose proof (total_cells_bound _ Hn) as Hb.
  assert (2 ^ (2 ^ num_vars t) <= 2 ^ 64) by (apply Z.pow_le_mono_r; lia).
  lia.
Qed.

(** Whatever way the entry point succeeds on a valid table, its implicants
    have the shape of the engine's groups and cover the minterms exactly. *)
Lemma solution_shapes sm t s0 sol :
  valid_table t ->
  find_prime_implicants sm (Some t) (Some s0) = Some (0, Some sol) ->
  Forall (engine_shaped (minterms t) (num_vars t)) (implicants sol)
  /\ covered_union (implicants sol) = minterms t.
Proof.
  intros Hv Hrun. pose proof Hv as (Hn & Hdis & HM & HD & Hcnt).
  pose proof (valid_table_word t Hv) as [HM64 HD64].
  destruct (find_prime_implicants_success sm t s0 sol Hrun)
    as [_ [[H0 ->]|[[H1 ->]|(H0 & H1 & ->)]]].
  - split; [constructor|]. cbn [zero_solution implicants].
    change (covered_union []) with 0.
    rewrite Hcnt in H0. symmetry.
    apply Z.bits_inj'. intros i Hi. rewrite Z.bits_0.
    destruct (Z.testbit (minterms t) i) eqn:E; [|reflexivity].
    pose proof (testbit_bound _ 64 i HM64 ltac:(lia) E) as Hi64.
    pose proof (popcount_pos _ i Hi64 E). lia.
  - rewrite Hcnt in H1.
    destruct (single_bit_word (minterms t) HM64 H1) as (Hc & Hb & Heq).
    split.
    + constructor; [|constructor]. right. exists (ctz (minterms t)).
      split; [|split; [exact Hb|reflexivity]].
      apply (minterm_bits (minterms t) (num_vars t) _ Hn HM Hb).
    + change (covered_union [single_implicant (num_vars t) (ctz (minterms t))])
        with (Z.lor 0 (bit (ctz (minterms t)))).
      rewrite Z.lor_0_l. exact Heq.
  - pose proof (engine_shapes (minterms t) (dont_cares t) (num_vars t)
                  MAX_GROUPS Hn HM HD ltac:(unfold MAX_GROUPS; lia)) as Hsh.
    fold (find_groups_with_dont_cares (minterms t) (dont_cares t) (num_vars t))
      in Hsh.
    split.
    + apply Forall_forall. intros g Hg. apply reduce_incl in Hg.
      cbn [implicants] in Hg. rewrite Forall_forall in Hsh. apply Hsh, Hg.
    + rewrite reduce_cover.
      * cbn [implicants].
        apply (engine_cover (minterms t) (dont_cares t) (num_vars t)
                 MAX_GROUPS Hn HM HD). unfold MAX_GROUPS. lia.
      * cbn [implicants]. apply (Forall_impl _ (fun g Hg =>
          engine_shaped_size (minterms t) (num_vars t) g Hn Hg) Hsh).
Qed.

(** ** The pair pass as the specification words it *)

Lemma spec_ok_all : cell_check spec_ok = true.
Proof. vm_compute. reflexivity. Qed.

Lemma adjacent_spec n c d :
  2 <= n <= 6 -> 0 <= c < 64 -> 0 <= d < 64 ->
  are_adjacent c d n = spec_adjacent n c d.
Proof.
  intros Hn Hc Hd.
  pose proof (cell_check_sound _ spec_ok_all n c d Hn Hc Hd) as H1.
  apply andb_prop in H1. destruct H1 as [H1 _].
  apply eqb_prop in H1. exact H1.
Qed.

Lemma implicant_ext (g h : implicant_t) :
  covered_minterms g = covered_minterms h ->
  literal_mask g = literal_mask h ->
  literal_values g = literal_values h ->
  size g = size h -> g = h.
Proof. destruct g, h. cbn. intros -> -> -> ->. reflexivity. Qed.

Lemma spec_pair_fields M n c d :
  literal_mask (spec_pair M n c d) = literal_mask (spec_pair 0 n c d)
  /\ literal_values (spec_pair M n c d) = literal_values (spec_pair 0 n c d)
  /\ covered_minterms (spec_pair M n c d)
     = covered_minterms (pair_implicant M n c d)
  /\ size (spec_pair M n c d) = size (pair_implicant M n c d).
Proof.
  unfold spec_pair, pair_implicant.
  cbn [covered_minterms literal_mask literal_values size].
  split; [exact eq_refl|]. split; [exact eq_refl|].
  split; exact eq_refl.
Qed.

Lemma pair_implicant_spec M n c d :
  2 <= n <= 6 -> 0 <= c < 64 -> 0 <= d < 64 -> are_adjacent c d n = true ->
  pair_implicant M n c d = spec_pair M n c d.
Proof.
  intros Hn Hc Hd Ha.
  pose proof (cell_check_sound _ spec_ok_all n c d Hn Hc Hd) as H1.
  apply andb_prop in H1. destruct H1 as [_ H1].
  pose proof (implb_mp _ _ H1 Ha) as H2. clear H1.
  apply andb_prop in H2. destruct H2 as [Hm Hv].
  apply Z.eqb_eq in Hm, Hv.
  destruct (pair_implicant_fields M n c d) as [Em Ev].
  destruct (spec_pair_fields M n c d) as (Sm & Sv & Sc & Ss).
  apply implicant_ext; congruence.
Qed.

Lemma find_none_all {A : Type} (f : A -> bool) (l : list A) :
  (forall x, In x l -> f x = false) -> find f l = None.
Proof.
  induction l as [|a l IH]; intros H; [reflexivity|]. cbn [find].
  rewrite (H a (or_introl eq_refl)). apply IH. intros x Hx. apply H.
  right. exact Hx.
Qed.

Lemma find_first {A : Type} (f : A -> bool) (l1 l2 : list A) (d : A) :
  (forall x, In x l1 -> f x = false) -> f d = true ->
  find f (l1 ++ d :: l2) = Some d.
Proof.
  induction l1 as [|a l1 IH]; intros H Hd; cbn [app find].
  - rewrite Hd. reflexivity.
  - rewrite (H a (or_introl eq_refl)). apply IH; [|exact Hd].
    intros x Hx. apply H. right. exact Hx.
Qed.

Lemma land_not64_ldiff x y :
  (forall i, Z.testbit x i = true -> 0 <= i < 64) ->
  Z.land x (not64 y) = Z.ldiff x y.
Proof.
  intros Hx. apply Z.bits_inj'. intros i Hi.
  rewrite Z.land_spec, Z.ldiff_spec, testbit_not64 by assumption.
  destruct (Z.testbit x i) eqn:E; [|reflexivity].
  specialize (Hx i E). destruct (Z.ltb_spec i 64); [|lia].
  rewrite andb_true_r. reflexivity.
Qed.

(** One iteration of the first loop does what the specification says of one
    cell. *)
Lemma pair_body_spec M n c st :
  2 <= n <= 6 -> 0 <= c < 2 ^ n -> pools_ok M n st ->
  pair_body M n (Z.shiftl 1 n) c st = spec_pair_step M n c st.
Proof.
  intros Hn Hc (Hdom & Hrem & _). pose proof (total_cells_bound n Hn) as Htot.
  unfold pair_body, spec_pair_step. rewrite !has_spec by lia.
  destruct (Z.testbit (available_for_grouping st) c) eqn:Eav; cbn [negb andb];
    [|reflexivity].
  destruct (Z.testbit (remaining_minterms st) c) eqn:Ere; cbn [negb];
    [|reflexivity].
  assert (HMc : Z.testbit M c = true).
  { rewrite Hrem, Eav in Ere by lia. exact Ere. }
  rewrite total_cells_eq by lia.
  destruct (pair_scan_cases M n c st (range (c + 1) (2 ^ n)))
    as [[-> Hnone]|(l1 & d & l2 & Hl & Had & Hadj & -> & Hfirst)];
    [lia|assumption|intros d Hd; apply In_range in Hd; lia| |].
  - rewrite find_none_all; [reflexivity|].
    intros d Hd. pose proof Hd as Hd'. apply In_range in Hd'.
    destruct (Z.testbit (available_for_grouping st) d) eqn:Ed; [|reflexivity].
    rewrite <- adjacent_spec by lia. rewrite (Hnone d Hd Ed). reflexivity.
  - assert (Hd : c + 1 <= d < 2 ^ n).
    { apply In_range. rewrite Hl. apply in_elt. }
    rewrite Hl, (find_first _ l1 l2 d).
    + rewrite <- pair_implicant_spec by (auto; lia).
      assert (covered_minterms (pair_implicant M n c d) <> 0) as Hne.
      { intros H0.
        assert (Z.testbit (covered_minterms (pair_implicant M n c d)) c
                = true) as Hb
          by (rewrite testbit_pair_cover, Z.eqb_refl, HMc by lia;
              reflexivity).
        rewrite H0, Z.bits_0 in Hb. discriminate. }
      apply Z.eqb_neq in Hne. rewrite Hne.
      unfold emit. f_equal; apply land_not64_ldiff.
      * intros i Hi. rewrite Hrem in Hi.
        -- apply andb_prop in Hi. destruct Hi as [Hi _].
           specialize (Hdom i Hi). lia.
        -- destruct (Z.neg_nonneg_cases i) as [Hneg|]; [|assumption].
           rewrite Z.testbit_neg_r in Hi by assumption. discriminate.
      * intros i Hi. specialize (Hdom i Hi). lia.
    + intros x Hx.
      assert (In x (range (c + 1) (2 ^ n))) as Hx'
        by (rewrite Hl; apply in_or_app; left; exact Hx).
      apply In_range in Hx'.
      destruct (Z.testbit (available_for_grouping st) x) eqn:Ex;
        [|reflexivity].
      rewrite <- adjacent_spec by lia. rewrite (Hfirst x Hx Ex). reflexivity.
    + rewrite Had, <- adjacent_spec by lia. exact Hadj.
Qed.

Lemma pair_free_spec M n :
  2 <= n <= 6 -> 0 <= M < 2 ^ (2 ^ n) ->
  forall (k : nat) c st,
    0 <= c -> c + Z.of_nat k = 2 ^ n -> pair_inv M n c st ->
    pair_free M n (Z.shiftl 1 n) (range c (2 ^ n)) st
    = fold_left (fun s c' => spec_pair_step M n c' s) (range c (2 ^ n)) st.
Proof.
  intros Hn HM. induction k as [|k IH]; intros c st Hc Hk Hinv.
  - rewrite range_nil by lia. reflexivity.
  - rewrite range_cons by lia. cbn [pair_free fold_left].
    destruct Hinv as (H1 & H2 & H3 & H4).
    rewrite <- (pair_body_spec M n c st) by (auto; lia).
    apply (IH (c + 1)); [lia|lia|].
    apply pair_body_step; auto; lia.
Qed.

(** ** Checking the invariants on a given table *)

Lemma valid_table_check t : valid_tableb t = true -> valid_table t.
Proof.
  unfold valid_tableb, valid_table. intros H.
  repeat (apply andb_prop in H; destruct H as [H ?]).
  repeat match goal with
         | H : (_ <=? _) = true |- _ => apply Z.leb_le in H
         | H : (_ <? _) = true |- _ => apply Z.ltb_lt in H
         | H : (_ =? _) = true |- _ => apply Z.eqb_eq in H
         end.
  auto 10.
Qed.

(** ** The claims on the grouping engine *)

(** C1.  On every table that satisfies the invariants of section 3 the
    union of the covered minterms of the implicants is the set of minterms,
    neither more nor less: for the groups the engine returns, for what the
    redundancy reducer leaves of them, and for the solution of every
    successful call of [find_prime_implicants], which [validate_solution]
    accepts. *)
Theorem full_coverage (t : truth_table_t) :
  valid_table t ->
  covered_union
    (find_groups_with_dont_cares (minterms t) (dont_cares t) (num_vars t))
  = minterms t
  /\ covered_union
       (implicants
          (remove_redundant_implicants
             {| implicants :=
                  find_groups_with_dont_cares (minterms t) (dont_cares t)
                    (num_vars t);
                literal_count := 0; term_count := 0 |}))
     = minterms t
  /\ forall sm s0 sol,
       find_prime_implicants sm (Some t) (Some s0) = Some (0, Some sol) ->
       covered_union (implicants sol) = minterms t
       /\ validate_solution sm (Some t) (Some sol) = Some true.
Proof.
  intros Hv. pose proof Hv as (Hn & Hdis & HM & HD & Hcnt).
  assert (32 <= MAX_GROUPS) as Hcap by (unfold MAX_GROUPS; lia).
  pose proof (engine_cover _ _ _ MAX_GROUPS Hn HM HD Hcap) as Hcov.
  pose proof (engine_shapes _ _ _ MAX_GROUPS Hn HM HD Hcap) as Hsh.
  fold (find_groups_with_dont_cares (minterms t) (dont_cares t) (num_vars t))
    in Hcov, Hsh.
  split; [exact Hcov|]. split.
  - rewrite reduce_cover; [exact Hcov|]. cbn [implicants].
    apply (Forall_impl _ (fun g Hg =>
      engine_shaped_size (minterms t) (num_vars t) g Hn Hg) Hsh).
  - intros sm s0 sol Hrun.
    destruct (solution_shapes sm t s0 sol Hv Hrun) as [_ Hsol].
    split; [exact Hsol|].
    destruct (find_prime_implicants_success sm t s0 sol Hrun) as [Hval _].
    unfold validate_solution. rewrite Hval, Hsol, Z.eqb_refl. reflexivity.
Qed.

Lemma full_coverage_witness :
  valid_table scenario_A
  /\ find_prime_implicants C_undefined (Some scenario_A) (Some zero_solution)
     = Some (0, Some solution_A)
  /\ covered_union
       (find_groups_with_dont_cares (minterms scenario_A)
          (dont_cares scenario_A) (num_vars scenario_A))
     = minterms scenario_A
  /\ covered_union (implicants solution_A) = minterms scenario_A.
Proof.
  assert (valid_table scenario_A) as Hv
    by (apply valid_table_check; vm_compute; reflexivity).
  assert (find_prime_implicants C_undefined (Some scenario_A)
            (Some zero_solution) = Some (0, Some solution_A)) as Hrun
    by (vm_compute; reflexivity).
  split; [exact Hv|]. split; [exact Hrun|].
  destruct (full_coverage scenario_A Hv) as (H1 & _ & H3).
  split; [exact H1|].
  exact (proj1 (H3 C_undefined zero_solution solution_A Hrun)).
Defined.

(** C2.  On every table that satisfies the invariants, every implicant of
    the engine, and every implicant of the solution of a successful call of
    [find_prime_implicants], is a faithful product term on the cells it
    counts as covered: each cell [m] whose bit is set in [covered_minterms]
    has [m & literal_mask == literal_values]. *)
Theorem implicants_faithful (t : truth_table_t) :
  valid_table t ->
  (forall g m,
     In g (find_groups_with_dont_cares (minterms t) (dont_cares t)
             (num_vars t)) ->
     Z.testbit (covered_minterms g) m = true ->
     Z.land m (literal_mask g) = literal_values g)
  /\ forall sm s0 sol,
       find_prime_implicants sm (Some t) (Some s0) = Some (0, Some sol) ->
       forall g m,
         In g (implicants sol) ->
         Z.testbit (covered_minterms g) m = true ->
         Z.land m (literal_mask g) = literal_values g.
Proof.
  intros Hv. pose proof Hv as (Hn & Hdis & HM & HD & Hcnt).
  assert (32 <= MAX_GROUPS) as Hcap by (unfold MAX_GROUPS; lia).
  pose proof (engine_shapes _ _ _ MAX_GROUPS Hn HM HD Hcap) as Hsh.
  fold (find_groups_with_dont_cares (minterms t) (dont_cares t) (num_vars t))
    in Hsh.
  split.
  - intros g m Hg Hb. rewrite Forall_forall in Hsh.
    exact (engine_shaped_faithful _ _ g m Hn (Hsh g Hg) Hb).
  - intros sm s0 sol Hrun g m Hg Hb.
    destruct (solution_shapes sm t s0 sol Hv Hrun) as [Hsol _].
    rewrite Forall_forall in Hsol.
    exact (engine_shaped_faithful _ _ g m Hn (Hsol g Hg) Hb).
Qed.

Lemma implicants_faithful_witness :
  valid_table scenario_A
  /\ find_prime_implicants C_undefined (Some scenario_A) (Some zero_solution)
     = Some (0, Some solution_A)
  /\ In (slot (implicants solution_A) 0) (implicants solution_A)
  /\ Z.testbit (covered_minterms (slot (implicants solution_A) 0)) 5 = true
  /\ Z.land 5 (literal_mask (slot (implicants solution_A) 0))
     = literal_values (slot (implicants solution_A) 0).
Proof.
  assert (valid_table scenario_A) as Hv
    by (apply valid_table_check; vm_compute; reflexivity).
  assert (find_prime_implicants C_undefined (Some scenario_A)
            (Some zero_solution) = Some (0, Some solution_A)) as Hrun
    by (vm_compute; reflexivity).
  assert (In (slot (implicants solution_A) 0) (implicants solution_A)) as Hin
    by (left; reflexivity).
  assert (Z.testbit (covered_minterms (slot (implicants solution_A) 0)) 5
          = true) as Hb by (vm_compute; reflexivity).
  split; [exact Hv|]. split; [exact Hrun|]. split; [exact Hin|].
  split; [exact Hb|].
  exact (proj2 (implicants_faithful scenario_A Hv) C_undefined zero_solution
           solution_A Hrun _ 5 Hin Hb).
Defined.

(** C3.  On every table that satisfies the invariants the quad pass emits
    nothing: after the first loop no required cell that is still uncovered
    has an adjacent cell of higher index left in the pool, so the second
    loop returns the state it was given.  Every implicant of the engine, and
    of the solution of a successful call, is then a pair of the first loop
    or a single cell (from the final pass or from the shortcut for one
    minterm), and its mask has at least [num_vars - 1] bits set. *)
Theorem quad_pass_never_emits (t : truth_table_t) :
  valid_table t ->
  (forall e d,
     0 <= e < d -> d < Z.shiftl 1 (num_vars t) ->
     Z.testbit
       (remaining_minterms
          (pair_pass MAX_GROUPS (minterms t) (num_vars t)
             (Z.shiftl 1 (num_vars t)) (range 0 (Z.shiftl 1 (num_vars t)))
             (initial_gstate (minterms t) (dont_cares t)))) e = true ->
     are_adjacent e d (num_vars t) = true ->
     Z.testbit
       (available_for_grouping
          (pair_pass MAX_GROUPS (minterms t) (num_vars t)
             (Z.shiftl 1 (num_vars t)) (range 0 (Z.shiftl 1 (num_vars t)))
             (initial_gstate (minterms t) (dont_cares t)))) d = false)
  /\ quad_pass MAX_GROUPS (minterms t) (num_vars t) (Z.shiftl 1 (num_vars t))
       (range 0 (Z.shiftl 1 (num_vars t)))
       (pair_pass MAX_GROUPS (minterms t) (num_vars t)
          (Z.shiftl 1 (num_vars t)) (range 0 (Z.shiftl 1 (num_vars t)))
          (initial_gstate (minterms t) (dont_cares t)))
     = pair_pass MAX_GROUPS (minterms t) (num_vars t)
         (Z.shiftl 1 (num_vars t)) (range 0 (Z.shiftl 1 (num_vars t)))
         (initial_gstate (minterms t) (dont_cares t))
  /\ Forall (fun g => engine_shaped (minterms t) (num_vars t) g
                      /\ num_vars t - 1 <= popcount (literal_mask g))
       (find_groups_with_dont_cares (minterms t) (dont_cares t) (num_vars t))
  /\ forall sm s0 sol,
       find_prime_implicants sm (Some t) (Some s0) = Some (0, Some sol) ->
       Forall (fun g => engine_shaped (minterms t) (num_vars t) g
                        /\ num_vars t - 1 <= popcount (literal_mask g))
         (implicants sol).
Proof.
  intros Hv. pose proof Hv as (Hn & Hdis & HM & HD & Hcnt).
  pose proof (total_cells_bound _ Hn) as Htot.
  assert (32 <= MAX_GROUPS) as Hcap by (unfold MAX_GROUPS; lia).
  destruct (pair_pass_inv _ _ _ MAX_GROUPS Hn HM HD Hcap)
    as [-> (Hpools & _ & Hset & _)].
  pose proof (engine_shapes _ _ _ MAX_GROUPS Hn HM HD Hcap) as Hsh.
  fold (find_groups_with_dont_cares (minterms t) (dont_cares t) (num_vars t))
    in Hsh.
  split; [|split; [|split]].
  - intros e d Hed Hd Hre Ha. rewrite total_cells_eq in Hd by lia.
    apply (Hset e); auto; lia.
  - apply quad_pass_idle; [exact Hn| |exact Hset].
    intros c Hc. apply In_range in Hc. rewrite total_cells_eq in Hc by lia.
    exact Hc.
  - apply (Forall_impl _ (fun g Hg =>
      conj Hg (engine_shaped_mask (minterms t) (num_vars t) g Hn Hg)) Hsh).
  - intros sm s0 sol Hrun.
    destruct (solution_shapes sm t s0 sol Hv Hrun) as [Hsol _].
    apply (Forall_impl _ (fun g Hg =>
      conj Hg (engine_shaped_mask (minterms t) (num_vars t) g Hn Hg)) Hsol).
Qed.

Lemma quad_pass_never_emits_witness :
  valid_table scenario_A
  /\ find_prime_implicants C_undefined (Some scenario_A) (Some zero_solution)
     = Some (0, Some solution_A)
  /\ Forall (fun g => engine_shaped (minterms scenario_A)
                        (num_vars scenario_A) g
                      /\ num_vars scenario_A - 1 <= popcount (literal_mask g))
       (implicants solution_A).
Proof.
  assert (valid_table scenario_A) as Hv
    by (apply valid_table_check; vm_compute; reflexivity).
  assert (find_prime_implicants C_undefined (Some scenario_A)
            (Some zero_solution) = Some (0, Some solution_A)) as Hrun
    by (vm_compute; reflexivity).
  split; [exact Hv|]. split; [exact Hrun|].
  exact (proj2 (proj2 (proj2 (quad_pass_never_emits scenario_A Hv)))
           C_undefined zero_solution solution_A Hrun).
Defined.

Lemma filter_length_bound {A : Type} (f : A -> bool) (l : list A) :
  (length (filter f l) <= length l)%nat.
Proof.
  induction l as [|a l IH]; cbn [filter length]; [lia|].
  destruct (f a); cbn [length]; lia.
Qed.











(** C8, as the program has it.  On every table that satisfies the
    invariants the first loop of the engine is the pair pass of the
    specification: each cell that is usable and still required is paired
    with the first adjacent usable cell of higher index, the pair covering
    the two cells that are minterms, its mask every variable bit but the
    differing one and its values the fixed bits of the first cell.  The
    engine runs only for two minterms or more: the solution is then what the
    reducer leaves of the pairs followed by the single cells; a table with
    exactly one minterm never reaches the pair pass, its solution is the one
    single-cell implicant with the full mask. *)
Theorem pair_pass_refines_spec (t : truth_table_t) :
  valid_table t ->
  pair_pass MAX_GROUPS (minterms t) (num_vars t) (Z.shiftl 1 (num_vars t))
    (range 0 (Z.shiftl 1 (num_vars t)))
    (initial_gstate (minterms t) (dont_cares t))
  = spec_pair_pass (minterms t) (dont_cares t) (num_vars t)
  /\ forall sm s0 sol,
       find_prime_implicants sm (Some t) (Some s0) = Some (0, Some sol) ->
       (minterm_count t = 1 ->
        implicants sol
        = [single_implicant (num_vars t) (ctz (minterms t))])
       /\ (2 <= minterm_count t ->
           implicants sol
           = spec_reduce
               (groups
                  (with_singles (num_vars t) (range 0 (2 ^ num_vars t))
                     (spec_pair_pass (minterms t) (dont_cares t)
                        (num_vars t))))).
Proof.
  intros Hv. pose proof Hv as (Hn & Hdis & HM & HD & Hcnt).
  pose proof (total_cells_bound _ Hn) as Htot.
  assert (32 <= MAX_GROUPS) as Hcap by (unfold MAX_GROUPS; lia).
  destruct (pair_pass_inv _ _ _ MAX_GROUPS Hn HM HD Hcap) as [Epass _].
  assert (pair_free (minterms t) (num_vars t) (Z.shiftl 1 (num_vars t))
            (range 0 (2 ^ num_vars t))
            (initial_gstate (minterms t) (dont_cares t))
          = spec_pair_pass (minterms t) (dont_cares t) (num_vars t)) as Efree.
  { apply (pair_free_spec _ _ Hn HM (Z.to_nat (2 ^ num_vars t))); [lia|lia|].
    apply initial_inv; assumption. }
  split; [rewrite Epass; exact Efree|].
  intros sm s0 sol Hrun.
  destruct (find_prime_implicants_success sm t s0 sol Hrun)
    as [_ [[H0 _]|[[H1 E]|(H0 & H1 & E)]]].
  - split; intros; lia.
  - split; [intros _; exact E|intros; lia].
  - split; [intros; lia|]. intros _. rewrite E, reduce_spec.
    cbn [implicants]. unfold spec_reduce.
    destruct (engine_result _ _ _ MAX_GROUPS Hn HM HD Hcap) as [E2 _].
    pose proof (engine_shapes _ _ _ MAX_GROUPS Hn HM HD Hcap) as Hsh.
    unfold find_groups_with_dont_cares. rewrite E2 in *. rewrite Efree in *.
    remember (groups (with_singles (num_vars t) (range 0 (2 ^ num_vars t))
                (spec_pair_pass (minterms t) (dont_cares t) (num_vars t))))
      as gs eqn:Egs.
    clear Egs. apply filter_ext_in. intros g Hg. unfold spec_sweep in Hg.
    apply in_map_iff in Hg. destruct Hg as (i & <- & Hi). apply in_seq in Hi.
    unfold spec_mark. destruct (spec_subsumed gs i); [reflexivity|].
    rewrite Forall_forall in Hsh.
    assert (i < length gs)%nat as Hi' by lia.
    pose proof (engine_shaped_size _ _ _ Hn (Hsh _ (slot_In gs i Hi')))
      as Hpos.
    destruct (Z.gtb_spec (size (slot gs i)) 0) as [_|Hle]; [|lia].
    destruct (Z.eqb_spec (size (slot gs i)) 0) as [Hz|_]; [lia|reflexivity].
Qed.

Lemma pair_pass_refines_spec_witness :
  valid_table scenario_A
  /\ find_prime_implicants C_undefined (Some scenario_A) (Some zero_solution)
     = Some (0, Some solution_A)
  /\ 2 <= minterm_count scenario_A
  /\ implicants solution_A
     = spec_reduce
         (groups
            (with_singles (num_vars scenario_A)
               (range 0 (2 ^ num_vars scenario_A))
               (spec_pair_pass (minterms scenario_A) (dont_cares scenario_A)
                  (num_vars scenario_A)))).
Proof.
  assert (valid_table scenario_A) as Hv
    by (apply valid_table_check; vm_compute; reflexivity).
  assert (find_prime_implicants C_undefined (Some scenario_A)
            (Some zero_solution) = Some (0, Some solution_A)) as Hrun
    by (vm_compute; reflexivity).
  assert (2 <= minterm_count scenario_A) as H2 by (cbn; lia).
  split; [exact Hv|]. split; [exact Hrun|]. split; [exact H2|].
  exact (proj2 (proj2 (pair_pass_refines_spec scenario_A Hv) C_undefined
                  zero_solution solution_A Hrun) H2).
Defined.

(** C8 as it is stated fails on a table with exactly one minterm: the pair
    pass would pair cell 0 with the don't-care 1 and drop a variable, but
    the entry point does not run the engine and returns the single cell with
    both variables. *)
Lemma lone_minterm_skips_pair_pass :
  valid_table lone_minterm
  /\ minterm_count lone_minterm = 1
  /\ groups (spec_pair_pass (minterms lone_minterm) (dont_cares lone_minterm)
               (num_vars lone_minterm))
     = [ {| covered_minterms := 1; literal_mask := 2; literal_values := 0;
            size := 1 |} ]
  /\ find_groups_with_dont_cares (minterms lone_minterm)
       (dont_cares lone_minterm) (num_vars lone_minterm)
     = [ {| covered_minterms := 1; literal_mask := 2; literal_values := 0;
            size := 1 |} ]
  /\ find_prime_implicants C_undefined (Some lone_minterm) (Some zero_solution)
     = Some (0, Some {| implicants :=
                          [ {| covered_minterms := 1; literal_mask := 3;
                               literal_values := 0; size := 1 |} ];
                        literal_count := 0; term_count := 0 |}).
Proof.
  split; [apply valid_table_check; vm_compute; reflexivity|].
  split; [reflexivity|].
  split; [vm_compute; reflexivity|].
  split; vm_compute; reflexivity.
Qed.

(** ** The reducer (claim C4) *)

Lemma filter_map_swap {A B : Type} (f : B -> bool) (g : A -> B) (l : list A) :
  filter f (map g l) = map g (filter (fun x => f (g x)) l).
Proof.
  induction l as [|a l IH]; [reflexivity|]. cbn [map filter].
  destruct (f (g a)); cbn [map]; rewrite IH; reflexivity.
Qed.

Lemma slot_spec_sweep imps i :
  (i < length imps)%nat -> slot (spec_sweep imps) i = spec_mark imps i.
Proof.
  intros Hi. unfold spec_sweep, slot.
  rewrite (nth_indep _ zero_implicant (spec_mark imps 0))
    by (rewrite length_map, length_seq; exact Hi).
  rewrite map_nth, seq_nth by exact Hi. reflexivity.
Qed.

(** C4.  For every solution whose sizes are [uint8_t] values, the sweep of
    the reducer, which marks in place, judges every implicant on the solution
    as it was before the sweep.  After the sweep the implicant at [i] has
    size 0 exactly when it had size 0 before or another implicant that was
    not removed before the sweep covers its minterms and is larger; its other
    fields and every other size are as they were.  A mark made earlier in
    the sweep therefore neither causes nor prevents a later one.  The
    compaction then returns the implicants that are not marked, as they
    were, in their order: a marked implicant leaves the solution. *)
Theorem reducer_judges_original_sizes (s : solution_t) :
  Forall (fun g => 0 <= size g < 256) (implicants s) ->
  length (sweep (implicants s)) = length (implicants s)
  /\ (forall i, (i < length (implicants s))%nat ->
        size (slot (sweep (implicants s)) i)
        = (if spec_subsumed (implicants s) i then 0
           else size (slot (implicants s) i))
        /\ covered_minterms (slot (sweep (implicants s)) i)
           = covered_minterms (slot (implicants s) i)
        /\ literal_mask (slot (sweep (implicants s)) i)
           = literal_mask (slot (implicants s) i)
        /\ literal_values (slot (sweep (implicants s)) i)
           = literal_values (slot (implicants s) i))
  /\ implicants (remove_redundant_implicants s)
     = spec_survivors (implicants s)
  /\ sweep (implicants s) = spec_sweep (implicants s)
  /\ implicants (remove_redundant_implicants s) = spec_reduce (implicants s).
Proof.
  intros Hsz. rewrite Forall_forall in Hsz.
  assert (forall i, (i < length (implicants s))%nat ->
                    0 <= size (slot (implicants s) i) < 256) as Hslot
    by (intros i Hi; apply Hsz, slot_In, Hi).
  split; [apply length_sweep|]. split; [|split; [|split]].
  - intros i Hi. rewrite sweep_spec, slot_spec_sweep by exact Hi.
    unfold spec_mark.
    destruct (spec_subsumed (implicants s) i); unfold set_size;
      cbn [size covered_minterms literal_mask literal_values]; auto.
  - rewrite reduce_spec. unfold spec_sweep, spec_survivors.
    rewrite filter_map_swap.
    rewrite (filter_ext_in
               (fun i => size (spec_mark (implicants s) i) >? 0)
               (fun i => negb (size (slot (implicants s) i) =? 0)
                         && negb (spec_subsumed (implicants s) i))).
    + apply map_ext_in. intros i Hi. apply filter_In in Hi.
      destruct Hi as [_ Hi]. apply andb_prop in Hi. destruct Hi as [_ Hi].
      unfold spec_mark. apply negb_true_iff in Hi. rewrite Hi. reflexivity.
    + intros i Hi. apply in_seq in Hi. unfold spec_mark.
      destruct (spec_subsumed (implicants s) i).
      * unfold set_size. cbn [size]. rewrite andb_false_r. reflexivity.
      * pose proof (Hslot i ltac:(lia)) as Hb. rewrite andb_true_r.
        destruct (Z.gtb_spec (size (slot (implicants s) i)) 0);
          destruct (Z.eqb_spec (size (slot (implicants s) i)) 0);
          try reflexivity; lia.
  - apply sweep_spec.
  - rewrite reduce_spec. unfold spec_reduce. apply filter_ext_in.
    intros g Hg. unfold spec_sweep in Hg. apply in_map_iff in Hg.
    destruct Hg as (i & <- & Hi). apply in_seq in Hi.
    unfold spec_mark. destruct (spec_subsumed (implicants s) i);
      [reflexivity|].
    pose proof (Hslot i ltac:(lia)) as Hb.
    destruct (Z.gtb_spec (size (slot (implicants s) i)) 0);
      destruct (Z.eqb_spec (size (slot (implicants s) i)) 0);
      try reflexivity; lia.
Qed.

Lemma reducer_judges_original_sizes_witness :
  Forall (fun g => 0 <= size g < 256) (implicants nested_solution)
  /\ size (slot (sweep (implicants nested_solution)) 0) = 0
  /\ size (slot (sweep (implicants nested_solution)) 1) = 0
  /\ size (slot (sweep (implicants nested_solution)) 2) = 3
  /\ implicants (remove_redundant_implicants nested_solution)
     = [slot (implicants nested_solution) 2].
Proof.
  assert (Forall (fun g => 0 <= size g < 256) (implicants nested_solution))
    as H by (repeat constructor; cbn; lia).
  split; [exact H|].
  destruct (reducer_judges_original_sizes nested_solution H)
    as (_ & Hmark & Hkeep & _).
  split; [|split; [|split]].
  - exact (proj1 (Hmark 0%nat ltac:(cbn; lia))).
  - exact (proj1 (Hmark 1%nat ltac:(cbn; lia))).
  - exact (proj1 (Hmark 2%nat ltac:(cbn; lia))).
  - exact Hkeep.
Defined.

(** The reducer on the three nested implicants: the two smaller ones go,
    whatever their order. *)
Example nested_solution_reduced :
  implicants (remove_redundant_implicants nested_solution)
  = [ {| covered_minterms := bits_of [1; 2; 3]; literal_mask := 0;
         literal_values := 0; size := 3 |} ].
Proof. vm_compute. reflexivity. Qed.

(** ** The validation (claims C7 and C10) *)

(** Up to five variables the entry point succeeds on every table that
    satisfies the invariants. *)
Lemma entry_point_small sm t s0 :
  valid_table t -> num_vars t <= 5 ->
  exists sol, find_prime_implicants sm (Some t) (Some s0) = Some (0, Some sol).
Proof.
  intros Hv H5. unfold find_prime_implicants.
  rewrite (validate_small sm t Hv H5).
  destruct (minterm_count t =? 0); [eexists; reflexivity|].
  destruct (minterm_count t =? 1); eexists; reflexivity.
Qed.

(** A null argument gives -1 and leaves the solution alone. *)
Lemma entry_point_null sm table solution :
  table = None \/ solution = None ->
  find_prime_implicants sm table solution = Some (-1, solution).
Proof.
  intros [-> | ->]; [reflexivity|]. destruct table; reflexivity.
Qed.

(** With six variables the entry point never succeeds on a table that has a
    cell: the shift of the range check has no result, or the result that
    empties the domain mask. *)
Lemma entry_point_six sm t s0 sol :
  valid_table t -> num_vars t = 6 ->
  Z.lor (minterms t) (dont_cares t) <> 0 ->
  find_prime_implicants sm (Some t) (Some s0) <> Some (0, Some sol).
Proof.
  intros Hv H6 Hnz. pose proof Hv as (Hn & Hdis & HM & HD & Hcnt).
  destruct (valid_table_word t Hv) as [HM64 HD64].
  destruct (validate_six t H6) as [Hc Hm].
  unfold find_prime_implicants. destruct sm.
  - rewrite Hc. discriminate.
  - rewrite Hm; [discriminate|exact Hdis| |exact Hnz].
    split; [apply Z.lor_nonneg; lia|].
    destruct (Z_lt_le_dec (Z.lor (minterms t) (dont_cares t)) (2 ^ 64))
      as [|Hge]; [assumption|].
    exfalso.
    assert (Z.log2 (Z.lor (minterms t) (dont_cares t)) < 64) as Hlog.
    { rewrite Z.log2_lor by lia. apply Z.max_lub_lt.
      - destruct (Z.eq_dec (minterms t) 0) as [->|]; [cbn; lia|].
        apply Z.log2_lt_pow2; lia.
      - destruct (Z.eq_dec (dont_cares t) 0) as [->|]; [cbn; lia|].
        apply Z.log2_lt_pow2; lia. }
    assert (64 <= Z.log2 (Z.lor (minterms t) (dont_cares t)));
      [|lia].
    apply Z.log2_le_pow2; lia.
Qed.

(** C7, at the input where the program fails it.  The table with six
    variables and the one minterm 0 satisfies the invariants, and
    [find_prime_implicants] does not succeed on it: the range check shifts a
    64-bit one by 64, which has no result in C, and with the count taken
    modulo 64 the call returns -2. *)
Theorem six_variables_rejected :
  valid_table six_var_minterm
  /\ find_prime_implicants C_undefined (Some six_var_minterm)
       (Some zero_solution) = None
  /\ find_prime_implicants Count_mod_64 (Some six_var_minterm)
       (Some zero_solution) = Some (-2, Some zero_solution).
Proof.
  split; [apply valid_table_check; vm_compute; reflexivity|].
  split; vm_compute; reflexivity.
Qed.

(** ** The renderer (claims C5, C9 and C10) *)

Module RenderFacts.
Import String Ascii.

Lemma append_nil_r (a : string) : (a ++ EmptyString)%string = a.
Proof. induction a as [|c a IH]; cbn; [reflexivity|]. rewrite IH. reflexivity. Qed.

Lemma append_assoc (a b c : string) :
  ((a ++ b) ++ c)%string = (a ++ (b ++ c))%string.
Proof. induction a as [|x a IH]; cbn; [reflexivity|]. rewrite IH. reflexivity. Qed.

Lemma strlen_append (a b : string) : strlen (a ++ b) = strlen a + strlen b.
Proof.
  unfold strlen. induction a as [|x a IH]; cbn [append String.length].
  - lia.
  - rewrite !Nat2Z.inj_succ, IH. lia.
Qed.

Lemma strlen_nonneg (a : string) : 0 <= strlen a.
Proof. unfold strlen. lia. Qed.

Lemma strlen_pos (a : string) : 0 < strlen a -> a <> EmptyString.
Proof. intros H ->. cbn in H. lia. Qed.

Lemma append_nonempty (a b : string) : a <> EmptyString -> (a ++ b)%string <> EmptyString.
Proof. destruct a; [congruence|]. cbn. discriminate. Qed.

Lemma extends_refl a : extends a a.
Proof. exists EmptyString. symmetry. apply append_nil_r. Qed.

Lemma extends_append a b : extends a (a ++ b).
Proof. exists b. reflexivity. Qed.

Lemma extends_app_r a b c : extends a b -> extends a (b ++ c).
Proof. intros [r ->]. exists (r ++ c)%string. apply append_assoc. Qed.

Lemma extends_trans a b c : extends a b -> extends b c -> extends a c.
Proof.
  intros [r ->] [r' ->]. exists (r ++ r')%string. apply append_assoc.
Qed.

Lemma var_str_length var : 0 <= var < 8 -> strlen (var_str var) = 1.
Proof.
  intros Hv.
  assert (forallb (fun v => strlen (var_str v) =? 1) (range 0 8) = true) as H
    by (vm_compute; reflexivity).
  apply Z.eqb_eq. exact (range_forallb 0 8 _ H var Hv).
Qed.

(** A checked append. *)
Lemma runs_put k tok len output :
  strlen output < len -> 0 < strlen tok <= k -> k <= 3 ->
  runs (fun o => o) len (put k tok len output) (output ++ tok)%string.
Proof.
  intros Hout Htok Hk. unfold put, runs.
  destruct (Z.geb_spec (strlen output + k) len) as [Hge|Hlt].
  - split; [reflexivity|]. split; [lia|].
    exists tok. split; [apply strlen_pos; lia|reflexivity].
  - split; [reflexivity|]. rewrite strlen_append. lia.
Qed.

Lemma runs_go {A : Type} (txt : A -> string) len (a : A) :
  strlen (txt a) < len -> runs txt len (Go a) a.
Proof. intros H. split; [reflexivity|exact H]. Qed.

(** Sequencing: what stops in the first part stops the whole, with a prefix
    of the whole text. *)
Lemma runs_bind {A B : Type} (txtA : A -> string) (txtB : B -> string) len
    (m : step A) (k : A -> step B) (fullA : A) (fullB : B) :
  runs txtA len m fullA ->
  extends (txtA fullA) (txtB fullB) ->
  (strlen (txtA fullA) < len -> runs txtB len (k fullA) fullB) ->
  runs txtB len (bind m k) fullB.
Proof.
  intros Hm Hext Hk. destruct m as [a|code text]; cbn [bind runs] in *.
  - destruct Hm as [-> Hlen]. apply Hk, Hlen.
  - destruct Hm as (Hc & Hlen & rest & Hne & Hfull).
    split; [exact Hc|]. split; [exact Hlen|].
    destruct Hext as [r Hr]. exists (rest ++ r)%string.
    split; [apply append_nonempty, Hne|].
    rewrite Hr, Hfull. apply append_assoc.
Qed.

Lemma literals_text_extends imp vars :
  forall output first_literal,
    extends output (fst (literals_text imp vars output first_literal)).
Proof.
  induction vars as [|var vars IH]; intros output first_literal;
    cbn [literals_text fst].
  - apply extends_refl.
  - destruct (negb (Z.land (literal_mask imp) (u8 (Z.shiftl 1 var)) =? 0));
      [|apply IH].
    eapply extends_trans; [|apply IH].
    destruct (negb first_literal),
      (Z.land (literal_values imp) (u8 (Z.shiftl 1 var)) =? 0);
      repeat apply extends_app_r; apply extends_refl.
Qed.

(** A term that has a literal is longer than what came before it. *)
Lemma literals_text_grows imp vars :
  Forall (fun v => 0 <= v < 8) vars ->
  forall output first_literal,
    strlen output
    <= strlen (fst (literals_text imp vars output first_literal))
    /\ (snd (literals_text imp vars output first_literal) = false ->
        first_literal = false
        \/ strlen output
           < strlen (fst (literals_text imp vars output first_literal))).
Proof.
  induction 1 as [|var vars Hvar Hvars IH]; intros output first_literal;
    cbn [literals_text fst snd].
  - split; [lia|]. intros ->. left. reflexivity.
  - destruct (negb (Z.land (literal_mask imp) (u8 (Z.shiftl 1 var)) =? 0));
      [|apply IH].
    match goal with
    | |- context [literals_text imp vars ?o false] =>
        destruct (IH o false) as [Hle _];
        assert (strlen output < strlen o) as Hlt
    end.
    { destruct (negb first_literal),
        (Z.land (literal_values imp) (u8 (Z.shiftl 1 var)) =? 0);
        rewrite ?strlen_append, (var_str_length var Hvar);
        pose proof (strlen_nonneg output);
        change (strlen "&") with 1; change (strlen "~") with 1; lia. }
    split; [lia|]. intros _. right. lia.
Qed.

Lemma literals_runs imp len vars :
  Forall (fun v => 0 <= v < 8) vars ->
  forall output first_literal,
    strlen output < len ->
    runs fst len (literals imp len vars output first_literal)
      (literals_text imp vars output first_literal).
Proof.
  induction 1 as [|var vars Hvar Hvars IH]; intros output first_literal Hout;
    cbn [literals literals_text].
  - apply (runs_go fst). exact Hout.
  - destruct (negb (Z.land (literal_mask imp) (u8 (Z.shiftl 1 var)) =? 0));
      [|apply IH, Hout].
    set (o1 := if negb first_literal then (output ++ "&")%string else output).
    set (o2 := if Z.land (literal_values imp) (u8 (Z.shiftl 1 var)) =? 0
               then (o1 ++ "~")%string else o1).
    apply (runs_bind (fun o => o) fst len _ _ o1).
    + unfold o1. destruct (negb first_literal).
      * apply runs_put; [exact Hout|cbn; lia|lia].
      * apply (runs_go (fun o => o)). exact Hout.
    + eapply extends_trans; [|apply literals_text_extends].
      apply extends_app_r.
      unfold o2. destruct (Z.land (literal_values imp) _ =? 0);
        repeat apply extends_app_r; apply extends_refl.
    + intros H1. apply (runs_bind (fun o => o) fst len _ _ o2).
      * unfold o2. destruct (Z.land (literal_values imp) _ =? 0).
        -- apply runs_put; [exact H1|cbn; lia|lia].
        -- apply (runs_go (fun o => o)). exact H1.
      * eapply extends_trans; [|apply literals_text_extends].
        apply extends_append.
      * intros H2.
        apply (runs_bind (fun o => o) fst len _ _ (o2 ++ var_str var)%string).
        -- apply runs_put; [exact H2| |lia].
           rewrite (var_str_length var Hvar). lia.
        -- apply literals_text_extends.
        -- intros H3. apply IH. exact H3.
Qed.

Lemma terms_text_extends n imps :
  forall i output, extends output (terms_text n i imps output).
Proof.
  induction imps as [|imp imps IH]; intros i output; cbn [terms_text].
  - apply extends_refl.
  - eapply extends_trans; [|apply IH].
    destruct (snd (literals_text imp (range 0 n) _ true)).
    + eapply extends_trans; [|apply extends_append].
      eapply extends_trans; [|apply literals_text_extends].
      destruct (i >? 0); [apply extends_append|apply extends_refl].
    + eapply extends_trans; [|apply literals_text_extends].
      destruct (i >? 0); [apply extends_append|apply extends_refl].
Qed.

Lemma vars_in_names n :
  n <= 8 -> Forall (fun v => 0 <= v < 8) (range 0 n).
Proof.
  intros Hn. apply Forall_forall. intros v Hv. apply In_range in Hv. lia.
Qed.

Lemma terms_runs n len imps :
  n <= 8 ->
  forall i output,
    strlen output < len ->
    runs (fun o => o) len (terms n len i imps output)
      (terms_text n i imps output).
Proof.
  intros Hn. induction imps as [|imp imps IH]; intros i output Hout;
    cbn [terms terms_text].
  - apply (runs_go (fun o => o)). exact Hout.
  - set (o1 := if i >? 0 then (output ++ " + ")%string else output).
    set (r := literals_text imp (range 0 n) o1 true).
    set (o2 := if snd r then (fst r ++ "1")%string else fst r).
    assert (extends (fst r) o2) as Hext2.
    { unfold o2. destruct (snd r); [apply extends_append|apply extends_refl]. }
    apply (runs_bind (fun o => o) (fun o => o) len _ _ o1).
    + unfold o1. destruct (i >? 0).
      * apply runs_put; [exact Hout|cbn; lia|lia].
      * apply (runs_go (fun o => o)). exact Hout.
    + eapply extends_trans; [|apply terms_text_extends].
      eapply extends_trans; [|exact Hext2].
      apply literals_text_extends.
    + intros H1. apply (runs_bind fst (fun o => o) len _ _ r).
      * apply literals_runs; [apply vars_in_names, Hn|exact H1].
      * eapply extends_trans; [exact Hext2|apply terms_text_extends].
      * intros H2.
        apply (runs_bind (fun o => o) (fun o => o) len _ _ o2).
        -- unfold o2. destruct (snd r).
           ++ apply runs_put; [exact H2|cbn; lia|lia].
           ++ apply (runs_go (fun o => o)). exact H2.
        -- apply terms_text_extends.
        -- intros H3. apply IH. exact H3.
Qed.

(** The expression of a solution with an implicant is not empty. *)
Lemma expression_nonempty n imps :
  n <= 8 -> imps <> [] -> 0 < strlen (expression n imps).
Proof.
  intros Hn Hne. destruct imps as [|imp imps]; [congruence|].
  unfold expression. cbn [terms_text]. change (0 >? 0) with false. cbv iota.
  set (r := literals_text imp (range 0 n) EmptyString true).
  destruct (terms_text_extends n imps (0 + 1)
              (if snd r then (fst r ++ "1")%string else fst r)) as [rest ->].
  rewrite strlen_append. pose proof (strlen_nonneg rest).
  destruct (snd r) eqn:Es.
  - rewrite strlen_append. pose proof (strlen_nonneg (fst r)).
    change (strlen "1") with 1. lia.
  - destruct (literals_text_grows imp (range 0 n) (vars_in_names n Hn)
                EmptyString true) as [_ Hg].
    fold r in Hg. destruct (Hg Es) as [Hf|Hlt]; [discriminate|].
    change (strlen EmptyString) with 0 in Hlt. lia.
Qed.

(** C5, as the program has it.  For every solution with an implicant, every
    variable count up to 8 and every buffer size, [generate_sop_expression]
    either succeeds with the complete expression or returns -3
    (BufferTooSmall) on the first token its check refuses; the tokens
    written before stay in the buffer, which then holds a proper prefix of
    the complete expression, shorter than the buffer.  A buffer more than
    three bytes longer than the expression always succeeds. *)
Theorem buffer_too_small_keeps_prefix (s : solution_t) (n len : Z)
    (before : string) :
  implicants s <> [] -> n <= 8 -> 0 < len ->
  (generate_sop_expression (Some s) n (Some before) len
   = (0, Some (expression n (implicants s)))
   \/ exists text rest,
        generate_sop_expression (Some s) n (Some before) len
        = (-3, Some text)
        /\ rest <> EmptyString
        /\ expression n (implicants s) = (text ++ rest)%string
        /\ strlen text < len <= strlen text + 3)
  /\ (strlen (expression n (implicants s)) + 3 < len ->
      generate_sop_expression (Some s) n (Some before) len
      = (0, Some (expression n (implicants s)))).
Proof.
  intros Hne Hn Hlen.
  pose proof (expression_nonempty n (implicants s) Hn Hne) as Hpos.
  pose proof (terms_runs n len (implicants s) Hn 0 EmptyString Hlen) as Hrun.
  fold (expression n (implicants s)) in Hrun.
  unfold generate_sop_expression.
  destruct (Z.leb_spec len 0) as [|_]; [lia|].
  destruct (Z.gtb_spec n 8) as [|_]; [lia|].
  assert ((implicant_count s =? 0) = false) as ->.
  { apply Z.eqb_neq. unfold implicant_count.
    destruct (implicants s); [congruence|]. cbn [List.length]. lia. }
  destruct (terms n len 0 (implicants s) EmptyString) as [text|code text];
    cbn [runs] in Hrun.
  - destruct Hrun as [-> _].
    destruct (Z.eqb_spec (strlen (expression n (implicants s))) 0); [lia|].
    split; [left; reflexivity|]. intros _. reflexivity.
  - destruct Hrun as (-> & Hfit & rest & Hrest & Hfull).
    split.
    + right. exists text, rest. auto.
    + intros Hbig. rewrite Hfull, strlen_append in Hbig.
      pose proof (strlen_nonneg rest). lia.
Qed.

Lemma buffer_too_small_keeps_prefix_witness :
  implicants solution_A <> [] /\ 3 <= 8 /\ 0 < 6
  /\ exists text rest,
       generate_sop_expression (Some solution_A) 3 (Some EmptyString) 6
       = (-3, Some text)
       /\ rest <> EmptyString
       /\ expression 3 (implicants solution_A) = (text ++ rest)%string.
Proof.
  assert (implicants solution_A <> []) as H1 by (cbn; discriminate).
  assert (3 <= 8) as H2 by lia.
  assert (0 < 6) as H3 by lia.
  split; [exact H1|]. split; [exact H2|]. split; [exact H3|].
  destruct (proj1 (buffer_too_small_keeps_prefix solution_A 3 6 EmptyString
                     H1 H2 H3)) as [H|(text & rest & H & Hr & He & _)].
  - vm_compute in H. discriminate.
  - exists text, rest. auto.
Defined.

(** C5 as it is stated fails: with a buffer of six bytes the rendering of
    scenario A returns -3 and leaves the first term in the buffer. *)
Lemma buffer_too_small_leaves_partial_output :
  generate_sop_expression (Some solution_A) 3 (Some EmptyString) 6
  = (-3, Some "A&~B"%string)
  /\ expression 3 (implicants solution_A) = "A&~B + ~A&B"%string.
Proof. split; vm_compute; reflexivity. Qed.

(** With no implicant the renderer never returns -3: a buffer of one byte
    gets the empty string and the code 0. *)
Example empty_solution_truncated :
  generate_sop_expression (Some zero_solution) 2 (Some "junk"%string) 1
  = (0, Some EmptyString).
Proof. vm_compute. reflexivity. Qed.

(** C9, as the program has it.  With four variables, minterms 0 and 2 and
    don't-cares 1 and 3, each minterm is paired with a don't-care and the
    solution renders as two product terms of three literals each.  The
    one-literal term comes from the pattern "1X1X" read as the parser reads
    it, with two variables, minterms 1 and 3 and don't-cares 0 and 2: its
    solution renders as the single literal "A". *)
Theorem scenario_B_renders :
  (find_prime_implicants C_undefined (Some scenario_B) (Some zero_solution)
   = Some (0, Some solution_B)
   /\ generate_sop_expression (Some solution_B) 4 (Some EmptyString) 1024
      = (0, Some "~B&~C&~D + B&~C&~D"%string))
  /\ (find_prime_implicants C_undefined (Some pattern_1X1X)
        (Some zero_solution)
      = Some (0, Some solution_1X1X)
      /\ generate_sop_expression (Some solution_1X1X) 2 (Some EmptyString) 1024
         = (0, Some "A"%string)).
Proof. repeat split; vm_compute; reflexivity. Qed.

(** C9 as it is stated fails: the solution of scenario B has two terms and
    six literals. *)
Lemma scenario_B_has_two_terms :
  valid_table scenario_B
  /\ find_prime_implicants C_undefined (Some scenario_B) (Some zero_solution)
     = Some (0, Some solution_B)
  /\ term_count solution_B = 2 /\ literal_count solution_B = 6
  /\ generate_sop_expression (Some solution_B) 4 (Some EmptyString) 1024
     = (0, Some "~B&~C&~D + B&~C&~D"%string).
Proof.
  split; [apply valid_table_check; vm_compute; reflexivity|].
  split; [vm_compute; reflexivity|].
  split; [reflexivity|]. split; [reflexivity|]. vm_compute. reflexivity.
Qed.

(** Up to five variables a table without minterms gives the solution
    without implicants, which a buffer of two bytes or more receives
    as "0". *)
Lemma empty_minterms_small sm t s0 before len :
  valid_table t -> minterms t = 0 -> num_vars t <= 5 -> 2 <= len ->
  find_prime_implicants sm (Some t) (Some s0) = Some (0, Some zero_solution)
  /\ generate_sop_expression (Some zero_solution) (num_vars t) (Some before)
       len = (0, Some "0"%string).
Proof.
  intros Hv HM0 H5 Hlen. pose proof Hv as (Hn & _ & _ & _ & Hcnt).
  split.
  - unfold find_prime_implicants. rewrite (validate_small sm t Hv H5).
    rewrite Hcnt, HM0. change (popcount 0) with 0. reflexivity.
  - unfold generate_sop_expression.
    destruct (Z.leb_spec len 0) as [|_]; [lia|].
    destruct (Z.gtb_spec (num_vars t) 8) as [|_]; [lia|].
    change (implicant_count zero_solution =? 0) with true. cbv iota.
    unfold strncpy_terminated.
    destruct (Z.to_nat (len - 1)) as [|k] eqn:E; [lia|].
    cbn. destruct k; reflexivity.
Qed.

(** Scenario D. *)
Example scenario_D_renders_zero :
  find_prime_implicants C_undefined (Some scenario_D) (Some zero_solution)
  = Some (0, Some zero_solution)
  /\ generate_sop_expression (Some zero_solution) 2 (Some EmptyString) 1024
     = (0, Some "0"%string).
Proof. split; vm_compute; reflexivity. Qed.

(** C10, at the input where the program fails it.  The table with six
    variables, no minterm and the one don't-care 0 satisfies the invariants,
    and [find_prime_implicants] gives no solution for it: the range check
    shifts by 64, which has no result in C, and with the count taken modulo
    64 the call returns -2 and leaves the solution as it was. *)
Theorem empty_minterms_six_variables :
  valid_table six_var_dont_care
  /\ minterms six_var_dont_care = 0
  /\ find_prime_implicants C_undefined (Some six_var_dont_care)
       (Some solution_A) = None
  /\ find_prime_implicants Count_mod_64 (Some six_var_dont_care)
       (Some solution_A) = Some (-2, Some solution_A).
Proof.
  split; [apply valid_table_check; vm_compute; reflexivity|].
  split; [reflexivity|]. split; vm_compute; reflexivity.
Qed.

End RenderFacts.

(** ** The adjacency oracle and the Gray code *)

Lemma cell_check1_sound (P : Z -> Z -> bool) :
  cell_check1 P = true ->
  forall n c, 2 <= n <= 6 -> 0 <= c < 64 -> P n c = true.
Proof.
  intros H n c Hn Hc. unfold cell_check1 in H.
  pose proof (range_forallb _ _ _ H n ltac:(lia)) as H1. cbv beta in H1.
  exact (range_forallb _ _ _ H1 c Hc).
Qed.

Lemma if_true_elim (a b : bool) :
  (if a then b else true) = true -> a = true -> b = true.
Proof. intros H ->. exact H. Qed.

(** X1.  Adjacency is symmetric, for all cells and every number of
    variables. *)
Theorem are_adjacent_sym (a b n : Z) : are_adjacent a b n = are_adjacent b a n.
Proof.
  unfold are_adjacent. rewrite (Z.lxor_comm a b), orb_comm. reflexivity.
Qed.

(** X2.  For 2 to 6 variables, two cells are adjacent exactly when both lie
    in the domain and their XOR is one of the [n] variable bits: they differ
    in exactly one variable.  In particular a cell is not adjacent to
    itself. *)
Theorem are_adjacent_one_bit (a b n : Z) :
  2 <= n <= 6 -> 0 <= a -> 0 <= b ->
  (are_adjacent a b n = true <->
   a < 2 ^ n /\ b < 2 ^ n /\ exists i, 0 <= i < n /\ Z.lxor a b = 2 ^ i)
  /\ are_adjacent a a n = false.
Proof.
  intros Hn Ha Hb. pose proof (total_cells_bound n Hn) as Htot.
  assert (Hout : forall x y, 2 ^ n <= x \/ 2 ^ n <= y ->
                             are_adjacent x y n = false).
  { intros x y Hxy. unfold are_adjacent. rewrite total_cells_eq by lia.
    destruct (Z.geb_spec x (2 ^ n)); [reflexivity|].
    destruct (Z.geb_spec y (2 ^ n)); [reflexivity|]. lia. }
  assert (Hin : forall x y, 0 <= x < 2 ^ n -> 0 <= y < 2 ^ n ->
            (are_adjacent x y n = true <->
             exists i, 0 <= i < n /\ Z.lxor x y = 2 ^ i)).
  { intros x y Hx Hy. rewrite adjacent_spec by lia. unfold spec_adjacent.
    destruct (Z.ltb_spec x (2 ^ n)); [|lia].
    destruct (Z.ltb_spec y (2 ^ n)); [|lia]. cbn [andb].
    rewrite existsb_exists. split.
    - intros (i & Hi & He). apply In_range in Hi. apply Z.eqb_eq in He.
      exists i. auto.
    - intros (i & Hi & He). exists i. split; [apply In_range; lia|].
      apply Z.eqb_eq. exact He. }
  split.
  - split.
    + intros Hadj.
      destruct (Z_lt_le_dec a (2 ^ n)) as [Ha'|Ha'];
        [|rewrite Hout in Hadj by auto; discriminate].
      destruct (Z_lt_le_dec b (2 ^ n)) as [Hb'|Hb'];
        [|rewrite Hout in Hadj by auto; discriminate].
      split; [exact Ha'|]. split; [exact Hb'|].
      apply Hin; auto; lia.
    + intros (Ha' & Hb' & Hex). apply Hin; auto; lia.
  - destruct (Z_lt_le_dec a (2 ^ n)) as [Ha'|Ha']; [|apply Hout; auto].
    destruct (are_adjacent a a n) eqn:E; [|reflexivity].
    apply Hin in E; [|lia|lia]. destruct E as (i & Hi & He).
    rewrite Z.lxor_nilpotent in He.
    assert (0 < 2 ^ i) by (apply Z.pow_pos_nonneg; lia). lia.
Qed.

Lemma are_adjacent_one_bit_witness :
  2 <= 3 <= 6 /\ 0 <= 1 /\ 0 <= 5
  /\ (are_adjacent 1 5 3 = true <->
      1 < 2 ^ 3 /\ 5 < 2 ^ 3 /\ exists i, 0 <= i < 3 /\ Z.lxor 1 5 = 2 ^ i).
Proof.
  assert (2 <= 3 <= 6) as H1 by lia.
  assert (0 <= 1) as H2 by lia.
  assert (0 <= 5) as H3 by lia.
  split; [exact H1|]. split; [exact H2|]. split; [exact H3|].
  exact (proj1 (are_adjacent_one_bit 1 5 3 H1 H2 H3)).
Defined.

Lemma gray_round_trip_all : cell_check1 gray_round_trip_ok = true.
Proof. vm_compute. reflexivity. Qed.

Lemma gray_formula_all : cell_check1 gray_formula_ok = true.
Proof. vm_compute. reflexivity. Qed.

Lemma gray_step_all : cell_check1 gray_step_ok = true.
Proof. vm_compute. reflexivity. Qed.

(** X3.  For 2 to 6 variables the two conversions are inverse to each other
    on the domain, and both stay inside it: each is a permutation of the
    cells. *)
Theorem gray_round_trip (n c : Z) :
  2 <= n <= 6 -> 0 <= c < 2 ^ n ->
  gray_to_linear (linear_to_gray c n) n = c
  /\ linear_to_gray (gray_to_linear c n) n = c
  /\ 0 <= linear_to_gray c n < 2 ^ n
  /\ 0 <= gray_to_linear c n < 2 ^ n.
Proof.
  intros Hn Hc. pose proof (total_cells_bound n Hn) as Htot.
  pose proof (cell_check1_sound _ gray_round_trip_all n c Hn ltac:(lia)) as H.
  assert ((c <? 2 ^ n) = true) as Hlt by (apply Z.ltb_lt; lia).
  apply (if_true_elim _ _ H) in Hlt. clear H. rename Hlt into H.
  repeat (apply andb_prop in H; destruct H as [H ?]).
  repeat match goal with
         | H : (_ <=? _) = true |- _ => apply Z.leb_le in H
         | H : (_ <? _) = true |- _ => apply Z.ltb_lt in H
         | H : (_ =? _) = true |- _ => apply Z.eqb_eq in H
         end.
  auto.
Qed.

Lemma gray_round_trip_witness :
  2 <= 5 <= 6 /\ 0 <= 19 < 2 ^ 5
  /\ gray_to_linear (linear_to_gray 19 5) 5 = 19
  /\ linear_to_gray (gray_to_linear 19 5) 5 = 19.
Proof.
  assert (2 <= 5 <= 6) as H1 by lia.
  assert (0 <= 19 < 2 ^ 5) as H2 by (cbn; lia).
  split; [exact H1|]. split; [exact H2|].
  destruct (gray_round_trip 5 19 H1 H2) as (Ha & Hb & _).
  split; [exact Ha|exact Hb].
Defined.

(** X4.  For 2 to 6 variables the codes of consecutive indices, the last
    and the first included, are adjacent cells. *)
Theorem gray_consecutive_adjacent (n c : Z) :
  2 <= n <= 6 -> 0 <= c < 2 ^ n ->
  are_adjacent (linear_to_gray c n) (linear_to_gray ((c + 1) mod 2 ^ n) n) n
  = true.
Proof.
  intros Hn Hc. pose proof (total_cells_bound n Hn) as Htot.
  pose proof (cell_check1_sound _ gray_step_all n c Hn ltac:(lia)) as H.
  apply (if_true_elim _ _ H). apply Z.ltb_lt. lia.
Qed.

Lemma gray_consecutive_adjacent_witness :
  2 <= 4 <= 6 /\ 0 <= 15 < 2 ^ 4
  /\ are_adjacent (linear_to_gray 15 4)
       (linear_to_gray ((15 + 1) mod 2 ^ 4) 4) 4 = true.
Proof.
  assert (2 <= 4 <= 6) as H1 by lia.
  assert (0 <= 15 < 2 ^ 4) as H2 by (cbn; lia).
  split; [exact H1|]. split; [exact H2|].
  exact (gray_consecutive_adjacent 4 15 H1 H2).
Defined.

(** X5.  The three lookup tables hold the values of the formula used for
    five and six variables: for 2 to 6 variables the code of [c] is
    [c ^ (c >> 1)]. *)
Theorem gray_tables_are_formula (n c : Z) :
  2 <= n <= 6 -> 0 <= c < 2 ^ n ->
  linear_to_gray c n = Z.lxor c (Z.shiftr c 1).
Proof.
  intros Hn Hc. pose proof (total_cells_bound n Hn) as Htot.
  pose proof (cell_check1_sound _ gray_formula_all n c Hn ltac:(lia)) as H.
  apply Z.eqb_eq. apply (if_true_elim _ _ H). apply Z.ltb_lt. lia.
Qed.

Lemma gray_tables_are_formula_witness :
  2 <= 3 <= 6 /\ 0 <= 6 < 2 ^ 3
  /\ linear_to_gray 6 3 = Z.lxor 6 (Z.shiftr 6 1).
Proof.
  assert (2 <= 3 <= 6) as H1 by lia.
  assert (0 <= 6 < 2 ^ 3) as H2 by (cbn; lia).
  split; [exact H1|]. split; [exact H2|].
  exact (gray_tables_are_formula 3 6 H1 H2).
Defined.

(** ** The validation, both ways *)

Lemma below_pow2 x k :
  0 <= k -> 0 <= x -> (forall i, k <= i -> Z.testbit x i = false) ->
  x < 2 ^ k.
Proof.
  intros Hk Hx Hbits.
  destruct (Z.eq_dec x 0) as [->|Hnz]; [apply Z.pow_pos_nonneg; lia|].
  destruct (Z_lt_le_dec x (2 ^ k)) as [|Hge]; [assumption|exfalso].
  assert (k <= Z.log2 x) as Hlog by (apply Z.log2_le_pow2; lia).
  pose proof (Z.bit_log2 x ltac:(lia)) as Hb.
  rewrite (Hbits _ Hlog) in Hb. discriminate.
Qed.

Lemma inside_domain x k :
  0 <= k <= 64 -> 0 <= x < 2 ^ 64 ->
  Z.land x (not64 (2 ^ k - 1)) = 0 -> x < 2 ^ k.
Proof.
  intros Hk Hx Hz. apply below_pow2; [lia|lia|].
  intros i Hi. destruct (Z.testbit x i) eqn:E; [|reflexivity].
  pose proof (testbit_bound x 64 i Hx ltac:(lia) E) as Hi64.
  assert (Z.testbit (Z.land x (not64 (2 ^ k - 1))) i = true) as Hb.
  { rewrite Z.land_spec, testbit_not64, E by lia.
    replace (2 ^ k - 1) with (Z.ones k) by (rewrite Z.ones_equiv; lia).
    rewrite Z.testbit_ones_nonneg by lia.
    destruct (Z.ltb_spec i k); [lia|].
    destruct (Z.ltb_spec i 64); [reflexivity|lia]. }
  rewrite Hz, Z.bits_0 in Hb. discriminate.
Qed.

(** The three checks, for 2 to 5 variables, where the shift is inside the
    width. *)
Lemma validate_small_eq sm t :
  2 <= num_vars t <= 5 ->
  validate_truth_table sm (Some t)
  = Some ((Z.land (minterms t) (dont_cares t) =? 0)
          && (Z.land (Z.lor (minterms t) (dont_cares t))
                     (not64 (2 ^ (2 ^ num_vars t) - 1)) =? 0)
          && (minterm_count t =? popcount (minterms t))).
Proof.
  intros Hn5. pose proof (domain_pow_small _ Hn5) as Hpow.
  assert (4 <= 2 ^ num_vars t <= 32) as Hb.
  { split.
    - change 4 with (2 ^ 2). apply Z.pow_le_mono_r; lia.
    - change 32 with (2 ^ 5). apply Z.pow_le_mono_r; lia. }
  unfold validate_truth_table, MAX_VARIABLES, shl64.
  destruct (Z.ltb_spec (num_vars t) 2); [lia|].
  destruct (Z.gtb_spec (num_vars t) 6); [lia|]. cbn [orb].
  rewrite total_cells_eq by lia.
  destruct (Z.ltb_spec (2 ^ num_vars t) 64); [|lia].
  rewrite Z.mul_1_l, (Z.mod_small (2 ^ 2 ^ num_vars t)) by lia.
  rewrite (Z.mod_small (2 ^ 2 ^ num_vars t - 1)) by lia.
  destruct (Z.land (minterms t) (dont_cares t) =? 0); [|reflexivity].
  destruct (Z.land (Z.lor (minterms t) (dont_cares t))
              (not64 (2 ^ 2 ^ num_vars t - 1)) =? 0); [|reflexivity].
  destruct (minterm_count t =? popcount (minterms t)); reflexivity.
Qed.

Lemma lor_word a b :
  0 <= a < 2 ^ 64 -> 0 <= b < 2 ^ 64 -> 0 <= Z.lor a b < 2 ^ 64.
Proof.
  intros Ha Hb. split; [apply Z.lor_nonneg; lia|].
  apply below_pow2; [lia|apply Z.lor_nonneg; lia|].
  intros i Hi. rewrite Z.lor_spec.
  destruct (Z.testbit a i) eqn:E1.
  { pose proof (testbit_bound _ 64 i Ha ltac:(lia) E1). lia. }
  destruct (Z.testbit b i) eqn:E2; [|reflexivity].
  pose proof (testbit_bound _ 64 i Hb ltac:(lia) E2). lia.
Qed.

Lemma land_not64_zero x : 0 <= x < 2 ^ 64 -> Z.land x (not64 0) = x.
Proof.
  intros Hx. apply Z.bits_inj'. intros i Hi.
  rewrite Z.land_spec, testbit_not64, Z.bits_0 by assumption.
  destruct (Z.testbit x i) eqn:E; [|reflexivity].
  pose proof (testbit_bound _ 64 i Hx ltac:(lia) E).
  destruct (Z.ltb_spec i 64); [reflexivity|lia].
Qed.

(** Whatever the validation accepts satisfies the invariants, when the two
    bit vectors are 64-bit words. *)
Lemma validate_sound sm t :
  0 <= minterms t < 2 ^ 64 -> 0 <= dont_cares t < 2 ^ 64 ->
  validate_truth_table sm (Some t) = Some true -> valid_table t.
Proof.
  intros HM HD Hval.
  pose proof (lor_word _ _ HM HD) as Hlor.
  destruct (Z_lt_le_dec (num_vars t) 2) as [Hlt|Hge].
  { unfold validate_truth_table in Hval.
    destruct (Z.ltb_spec (num_vars t) 2); [|lia].
    cbn [orb] in Hval. discriminate. }
  destruct (Z_le_gt_dec (num_vars t) 6) as [Hle|Hgt].
  2:{ unfold validate_truth_table, MAX_VARIABLES in Hval.
      destruct (Z.gtb_spec (num_vars t) 6); [|lia].
      rewrite orb_true_r in Hval. discriminate. }
  destruct (Z.eq_dec (num_vars t) 6) as [H6|Hne].
  - destruct sm.
    { rewrite (proj1 (validate_six t H6)) in Hval. discriminate. }
    unfold validate_truth_table in Hval. rewrite H6 in Hval.
    change ((6 <? 2) || (6 >? MAX_VARIABLES)) with false in Hval.
    change (shl64 Count_mod_64 1 (Z.shiftl 1 6)) with (Some 1) in Hval.
    cbv iota in Hval. change ((1 - 1) mod 2 ^ 64) with 0 in Hval.
    rewrite (land_not64_zero _ Hlor) in Hval.
    destruct (Z.eqb_spec (Z.land (minterms t) (dont_cares t)) 0) as [Hdis|];
      [|discriminate].
    destruct (Z.eqb_spec (Z.lor (minterms t) (dont_cares t)) 0) as [Hz|];
      [|discriminate].
    destruct (Z.eqb_spec (minterm_count t) (popcount (minterms t)))
      as [Hcnt|]; [|discriminate].
    apply Z.lor_eq_0_iff in Hz. destruct Hz as [HM0 HD0].
    unfold valid_table. rewrite HM0, HD0 in *.
    assert (0 < 2 ^ 2 ^ num_vars t)
      by (apply Z.pow_pos_nonneg; [lia|apply Z.pow_nonneg; lia]).
    split; [lia|]. split; [reflexivity|]. split; [lia|]. split; [lia|].
    exact Hcnt.
  - assert (2 <= num_vars t <= 5) as Hn5 by lia.
    assert (4 <= 2 ^ num_vars t <= 32) as Hb.
    { split.
      - change 4 with (2 ^ 2). apply Z.pow_le_mono_r; lia.
      - change 32 with (2 ^ 5). apply Z.pow_le_mono_r; lia. }
    rewrite (validate_small_eq sm t Hn5) in Hval.
    injection Hval as Hval.
    apply andb_prop in Hval. destruct Hval as [Hval Hcnt].
    apply andb_prop in Hval. destruct Hval as [Hdis Hdom].
    apply Z.eqb_eq in Hcnt, Hdis, Hdom.
    pose proof (inside_domain _ (2 ^ num_vars t) ltac:(lia) Hlor Hdom) as Hin.
    assert (forall i, 2 ^ num_vars t <= i ->
              Z.testbit (Z.lor (minterms t) (dont_cares t)) i = false) as Hhi.
    { intros i Hi.
      destruct (Z.testbit (Z.lor (minterms t) (dont_cares t)) i) eqn:E;
        [|reflexivity].
      pose proof (testbit_bound _ (2 ^ num_vars t) i
                    (conj (proj1 Hlor) Hin) ltac:(lia) E). lia. }
    unfold valid_table. split; [lia|]. split; [exact Hdis|].
    split; [|split; [|exact Hcnt]].
    + split; [lia|]. apply below_pow2; [lia|lia|].
      intros i Hi. specialize (Hhi i Hi). rewrite Z.lor_spec in Hhi.
      apply orb_false_elim in Hhi. tauto.
    + split; [lia|]. apply below_pow2; [lia|lia|].
      intros i Hi. specialize (Hhi i Hi). rewrite Z.lor_spec in Hhi.
      apply orb_false_elim in Hhi. tauto.
Qed.

(** X6.  Up to five variables, on a table whose two bit vectors are 64-bit
    words, the validation always answers, and it accepts exactly the tables
    that satisfy the invariants of section 3: 2 to 6 variables, disjoint
    sets, no cell outside the domain, the declared count equal to the
    population count. *)
Theorem validate_accepts_exactly (sm : shift_model) (t : truth_table_t) :
  num_vars t <= 5 ->
  0 <= minterms t < 2 ^ 64 -> 0 <= dont_cares t < 2 ^ 64 ->
  (validate_truth_table sm (Some t) = Some true <-> valid_table t)
  /\ (validate_truth_table sm (Some t) = Some false <-> ~ valid_table t).
Proof.
  intros H5 HM HD.
  assert (Hiff : validate_truth_table sm (Some t) = Some true
                 <-> valid_table t).
  { split; [|intros Hv; apply validate_small; assumption].
    apply validate_sound; assumption. }
  split; [exact Hiff|].
  assert (validate_truth_table sm (Some t) <> None) as Hsome.
  { destruct (Z_lt_le_dec (num_vars t) 2) as [Hlt|Hge].
    - unfold validate_truth_table.
      destruct (Z.ltb_spec (num_vars t) 2); [|lia]. cbn [orb]. discriminate.
    - rewrite validate_small_eq by lia. discriminate. }
  destruct (validate_truth_table sm (Some t)) as [[|]|] eqn:E.
  - split; [discriminate|]. intros Hnv. exfalso. apply Hnv, Hiff. reflexivity.
  - split; [|reflexivity]. intros _ Hv. apply Hiff in Hv. discriminate.
  - congruence.
Qed.

Lemma validate_accepts_exactly_witness :
  num_vars scenario_A <= 5
  /\ 0 <= minterms scenario_A < 2 ^ 64
  /\ 0 <= dont_cares scenario_A < 2 ^ 64
  /\ (validate_truth_table Count_mod_64 (Some scenario_A) = Some true
      <-> valid_table scenario_A).
Proof.
  assert (num_vars scenario_A <= 5) as H1 by (cbn; lia).
  assert (0 <= minterms scenario_A < 2 ^ 64) as H2 by (vm_compute; split; [discriminate|reflexivity]).
  assert (0 <= dont_cares scenario_A < 2 ^ 64) as H3 by (vm_compute; split; [discriminate|reflexivity]).
  split; [exact H1|]. split; [exact H2|]. split; [exact H3|].
  exact (proj1 (validate_accepts_exactly Count_mod_64 scenario_A H1 H2 H3)).
Defined.

(** ** More on the redundancy reducer *)

Lemma filter_all {A : Type} (f : A -> bool) (l : list A) :
  (forall x, In x l -> f x = true) -> filter f l = l.
Proof.
  induction l as [|a l IH]; intros H; [reflexivity|]. cbn [filter].
  rewrite (H a (or_introl eq_refl)). f_equal. apply IH.
  intros x Hx. apply H. right. exact Hx.
Qed.

(** A survivor of the reducer is an implicant of the solution that no other
    live implicant subsumes. *)
Lemma survivor_unsubsumed (imps : list implicant_t) g :
  In g (filter (fun h => size h >? 0) (spec_sweep imps)) ->
  exists a, (a < length imps)%nat /\ g = slot imps a
            /\ spec_subsumed imps a = false /\ 0 < size g.
Proof.
  intros Hg. apply filter_In in Hg. destruct Hg as [Hg Hlive].
  apply Z.gtb_lt in Hlive. unfold spec_sweep in Hg.
  apply in_map_iff in Hg. destruct Hg as (a & <- & Ha). apply in_seq in Ha.
  exists a. unfold spec_mark in *.
  destruct (spec_subsumed imps a); [cbn in Hlive; lia|].
  split; [lia|]. auto.
Qed.

(** X7.  The reducer never adds or changes an implicant: what it returns is
    no longer than what it was given, and every implicant it returns is one
    of the solution it was given, with a size above zero. *)
Theorem reducer_only_removes (s : solution_t) :
  (length (implicants (remove_redundant_implicants s))
   <= length (implicants s))%nat
  /\ forall g, In g (implicants (remove_redundant_implicants s)) ->
               In g (implicants s) /\ 0 < size g.
Proof.
  split.
  - rewrite reduce_spec.
    pose proof (filter_length_bound (fun g => size g >? 0)
                  (spec_sweep (implicants s))) as H.
    unfold spec_sweep in H at 2. rewrite length_map, length_seq in H.
    exact H.
  - intros g Hg. rewrite reduce_spec in Hg.
    destruct (survivor_unsubsumed _ g Hg) as (a & Ha & -> & _ & Hsz).
    split; [apply slot_In, Ha|exact Hsz].
Qed.

(** X8.  For every solution whose sizes are [uint8_t] values, the reducer
    keeps the union of the covered minterms of the implicants that are not
    removed when it starts: what a removed implicant covered is covered by
    one that stays. *)
Theorem reducer_keeps_live_cover (s : solution_t) :
  Forall (fun g => 0 <= size g < 256) (implicants s) ->
  covered_union (implicants (remove_redundant_implicants s))
  = covered_union (filter (fun g => size g >? 0) (implicants s)).
Proof.
  intros Hsz. rewrite Forall_forall in Hsz.
  rewrite reduce_spec.
  set (imps := implicants s) in *.
  pose proof (sweep_loop_inv imps (length imps) 0 imps eq_refl
                (sweep_inv_start imps)) as Hinv.
  fold (sweep imps) in Hinv.
  pose proof Hinv as (Hlen & _ & _ & Hdom).
  apply Z.bits_inj'. intros i Hi.
  rewrite !testbit_covered_union. apply eq_iff_eq_true.
  rewrite !existsb_exists. split.
  - intros (g & Hg & Hb).
    destruct (survivor_unsubsumed _ g Hg) as (a & Ha & -> & _ & Hpos).
    exists (slot imps a). split; [|exact Hb].
    apply filter_In. split; [apply slot_In, Ha|apply Z.gtb_lt, Hpos].
  - intros (g & Hg & Hb). apply filter_In in Hg. destruct Hg as [Hg Hpos].
    apply Z.gtb_lt in Hpos.
    apply In_slot in Hg. destruct Hg as (j & Hj & <-).
    destruct (Hdom j Hj ltac:(lia)) as (k & Hk & Hsk & Hzk & Hjk & _).
    exists (slot imps k). split.
    + apply filter_In. split.
      * rewrite <- sweep_spec, <- Hsk. apply slot_In. rewrite Hlen. exact Hk.
      * apply Z.gtb_lt. pose proof (Hsz _ (slot_In imps k Hk)). lia.
    + exact (subset_testbit _ _ i Hjk Hb).
Qed.

Lemma reducer_keeps_live_cover_witness :
  Forall (fun g => 0 <= size g < 256) (implicants nested_solution)
  /\ covered_union (implicants (remove_redundant_implicants nested_solution))
     = covered_union
         (filter (fun g => size g >? 0) (implicants nested_solution)).
Proof.
  assert (Forall (fun g => 0 <= size g < 256) (implicants nested_solution))
    as H by (repeat constructor; cbn; lia).
  split; [exact H|]. exact (reducer_keeps_live_cover nested_solution H).
Defined.

(** X9.  The reducer is idempotent: a second run on what the first run
    returned removes nothing more. *)
Theorem reducer_idempotent (s : solution_t) :
  remove_redundant_implicants (remove_redundant_implicants s)
  = remove_redundant_implicants s.
Proof.
  assert (implicants (remove_redundant_implicants
                        (remove_redundant_implicants s))
          = implicants (remove_redundant_implicants s)) as Himp.
  { rewrite (reduce_spec (remove_redundant_implicants s)).
    rewrite (reduce_spec s).
    set (imps := implicants s).
    set (kept := filter (fun g => size g >? 0) (spec_sweep imps)).
    assert (Hnone : forall i, (i < length kept)%nat ->
                               spec_subsumed kept i = false).
    { intros i Hi. destruct (spec_subsumed kept i) eqn:E; [|reflexivity].
      exfalso. unfold spec_subsumed in E. apply existsb_exists in E.
      destruct E as (j & Hj & Hc). apply in_seq in Hj.
      apply andb_prop in Hc. destruct Hc as [Hc Hlt].
      apply andb_prop in Hc. destruct Hc as [Hc Hsub].
      apply andb_prop in Hc. destruct Hc as [Hne Hz].
      destruct (survivor_unsubsumed imps (slot kept i)
                  (slot_In kept i Hi)) as (a & Ha & Ea & Hun & _).
      destruct (survivor_unsubsumed imps (slot kept j)
                  (slot_In kept j ltac:(lia))) as (b & Hb & Eb & _ & _).
      rewrite Ea, Eb in *.
      apply Z.ltb_lt in Hlt.
      assert (spec_subsumed imps a = true) as Hyes; [|congruence].
      unfold spec_subsumed. apply existsb_exists. exists b.
      split; [apply in_seq; lia|].
      rewrite Hz, Hsub. cbn [andb].
      destruct (Nat.eqb_spec b a) as [->|_]; [lia|]. cbn [negb andb].
      apply Z.ltb_lt. exact Hlt. }
    assert (spec_sweep kept = kept) as ->.
    { apply list_eq_slots.
      - unfold spec_sweep. rewrite length_map, length_seq. reflexivity.
      - intros i Hi. unfold spec_sweep in Hi.
        rewrite length_map, length_seq in Hi.
        unfold spec_sweep, slot at 1.
        rewrite (nth_indep _ zero_implicant (spec_mark kept 0))
          by (rewrite length_map, length_seq; exact Hi).
        rewrite map_nth, seq_nth by exact Hi. cbn [Nat.add].
        unfold spec_mark. rewrite (Hnone i Hi). reflexivity. }
    apply filter_all. intros g Hg. unfold kept in Hg.
    apply filter_In in Hg. tauto. }
  unfold remove_redundant_implicants at 1.
  unfold remove_redundant_implicants at 1 in Himp.
  destruct (compact_loop _ 0 (sweep (implicants
              (remove_redundant_implicants s)))) as [w arr].
  cbn [implicants] in Himp. rewrite Himp.
  unfold remove_redundant_implicants.
  destruct (compact_loop _ 0 (sweep (implicants s))) as [w' arr'].
  reflexivity.
Qed.

(** ** The groups of the engine do not overlap *)

Lemma disjoint_bits x y :
  Z.land x y = 0 <->
  forall i, 0 <= i -> Z.testbit x i && Z.testbit y i = false.
Proof.
  split.
  - intros H i Hi. rewrite <- Z.land_spec, H. apply Z.bits_0.
  - intros H. apply Z.bits_inj'. intros i Hi.
    rewrite Z.land_spec, Z.bits_0. apply H, Hi.
Qed.

Lemma apart_app l1 l2 :
  apart l1 -> apart l2 ->
  Z.land (covered_union l1) (covered_union l2) = 0 -> apart (l1 ++ l2).
Proof.
  induction l1 as [|g l1 IH]; intros H1 H2 H12; [exact H2|].
  cbn [app apart] in *. destruct H1 as [Hg H1].
  rewrite covered_union_cons in H12.
  rewrite disjoint_bits in Hg, H12.
  split.
  - apply disjoint_bits. intros i Hi.
    rewrite covered_union_app, Z.lor_spec.
    specialize (Hg i Hi). specialize (H12 i Hi).
    rewrite Z.lor_spec in H12.
    destruct (Z.testbit (covered_minterms g) i),
      (Z.testbit (covered_union l1) i), (Z.testbit (covered_union l2) i);
      cbn in *; congruence.
  - apply IH; auto. apply disjoint_bits. intros i Hi.
    specialize (H12 i Hi). rewrite Z.lor_spec in H12.
    destruct (Z.testbit (covered_minterms g) i),
      (Z.testbit (covered_union l1) i), (Z.testbit (covered_union l2) i);
      cbn in *; congruence.
Qed.

Lemma covered_union_one g : covered_union [g] = covered_minterms g.
Proof. rewrite covered_union_cons. apply Z.lor_0_r. Qed.

Lemma apart_snoc l g :
  apart l -> Z.land (covered_union l) (covered_minterms g) = 0 ->
  apart (l ++ [g]).
Proof.
  intros Hl Hg. apply apart_app; [exact Hl| |].
  - cbn [apart]. split; [|exact I]. apply Z.land_0_r.
  - rewrite covered_union_one. exact Hg.
Qed.

Lemma apart_slots gs :
  apart gs ->
  forall i j, (i < j)%nat -> (j < length gs)%nat ->
    Z.land (covered_minterms (slot gs i)) (covered_minterms (slot gs j)) = 0.
Proof.
  induction gs as [|g gs IH]; intros Hap i j Hij Hj; [cbn in Hj; lia|].
  cbn [apart] in Hap. destruct Hap as [Hg Hap].
  destruct j as [|j]; [lia|]. cbn [length] in Hj.
  destruct i as [|i].
  - unfold slot. cbn [nth]. fold (slot gs j).
    rewrite disjoint_bits in Hg. apply disjoint_bits. intros k Hk.
    specialize (Hg k Hk). rewrite testbit_covered_union in Hg.
    destruct (Z.testbit (covered_minterms g) k); [|reflexivity].
    destruct (Z.testbit (covered_minterms (slot gs j)) k) eqn:E;
      [|reflexivity].
    cbn [andb] in Hg.
    assert (existsb (fun h => Z.testbit (covered_minterms h) k) gs = true)
      as Hex; [|congruence].
    apply existsb_exists. exists (slot gs j). split; [|exact E].
    apply slot_In. lia.
  - unfold slot. cbn [nth]. apply IH; auto; lia.
Qed.

Lemma range_NoDup a b : NoDup (range a b).
Proof.
  remember (Z.to_nat (b - a)) as k eqn:Hk. revert a Hk.
  induction k as [|k IH]; intros a Hk.
  - rewrite range_nil by lia. constructor.
  - rewrite range_cons by lia. constructor; [|apply IH; lia].
    intros Hin. apply In_range in Hin. lia.
Qed.

Lemma apart_singles n cs :
  NoDup cs -> (forall c, In c cs -> 0 <= c) ->
  apart (map (single_implicant n) cs).
Proof.
  induction 1 as [|c cs Hnot Hnd IH]; intros Hpos; [exact I|].
  cbn [map apart]. split.
  - apply disjoint_bits. intros i Hi.
    cbn [single_implicant covered_minterms].
    rewrite testbit_bit by (apply Hpos; left; reflexivity).
    destruct (Z.eqb_spec c i) as [->|]; [|reflexivity]. cbn [andb].
    rewrite testbit_covered_union.
    destruct (existsb _ _) eqn:E; [|reflexivity].
    apply existsb_exists in E. destruct E as (g & Hg & Hb).
    apply in_map_iff in Hg. destruct Hg as (c' & <- & Hc').
    cbn [single_implicant covered_minterms] in Hb.
    rewrite testbit_bit in Hb by (apply Hpos; right; exact Hc').
    apply Z.eqb_eq in Hb. subst c'. contradiction.
  - apply IH. intros c' Hc'. apply Hpos. right. exact Hc'.
Qed.

(** One iteration of the first loop, for the second invariant. *)
Lemma pair_body_step2 M D n c st :
  2 <= n <= 6 -> 0 <= c < 2 ^ n -> pools_ok M n st -> pair_inv2 M D n st ->
  pair_inv2 M D n (pair_body M n (Z.shiftl 1 n) c st).
Proof.
  intros Hn Hc (Hdom & Hrem & Hcov) Hinv.
  pose proof Hinv as (Hap & Hdone & Hsound & Hshape).
  pose proof (total_cells_bound n Hn) as Htot.
  unfold pair_body. rewrite !has_spec by lia.
  destruct (Z.testbit (available_for_grouping st) c) eqn:Eav; cbn [negb];
    [|exact Hinv].
  destruct (Z.testbit (remaining_minterms st) c) eqn:Ere; cbn [negb];
    [|exact Hinv].
  assert (HMc : Z.testbit M c = true).
  { rewrite Hrem, Eav in Ere by lia. exact Ere. }
  rewrite total_cells_eq by lia.
  destruct (pair_scan_cases M n c st (range (c + 1) (2 ^ n)))
    as [[-> Hnone]|(l1 & d & l2 & Hl & Had & Hadj & -> & Hfirst)];
    [lia|assumption|intros d Hd; apply In_range in Hd; lia|exact Hinv|].
  assert (Hd : c + 1 <= d < 2 ^ n).
  { apply In_range. rewrite Hl. apply in_elt. }
  assert (Hsub : forall i, 0 <= i ->
            Z.testbit (covered_minterms (pair_implicant M n c d)) i = true ->
            Z.testbit (remaining_minterms st) i = true).
  { intros i Hi Hb. rewrite testbit_pair_cover in Hb by lia.
    apply andb_prop in Hb. destruct Hb as [Hb HMi]. rewrite Hrem, HMi by lia.
    apply orb_prop in Hb.
    destruct Hb as [Hb|Hb]; apply Z.eqb_eq in Hb; subst i;
      [rewrite Eav|rewrite Had]; reflexivity. }
  rewrite disjoint_bits in Hdone.
  assert (Hnew : Z.land (covered_union (groups st))
                   (covered_minterms (pair_implicant M n c d)) = 0).
  { apply disjoint_bits. intros i Hi. specialize (Hdone i Hi).
    destruct (Z.testbit (covered_union (groups st)) i); [|reflexivity].
    destruct (Z.testbit (covered_minterms (pair_implicant M n c d)) i) eqn:E;
      [|reflexivity].
    rewrite (Hsub i Hi E) in Hdone. exact Hdone. }
  split; [|split; [|split]]; cbn [emit groups remaining_minterms
                                   available_for_grouping].
  - apply apart_snoc; assumption.
  - apply disjoint_bits. intros i Hi.
    rewrite covered_union_app, covered_union_one, Z.lor_spec, Z.land_spec.
    specialize (Hdone i Hi).
    destruct (Z.ltb_spec i 64) as [Hlt|Hge].
    + rewrite testbit_not64 by lia.
      destruct (Z.testbit (covered_union (groups st)) i),
        (Z.testbit (covered_minterms (pair_implicant M n c d)) i),
        (Z.testbit (remaining_minterms st) i);
        cbn in *; congruence.
    + destruct (Z.testbit (remaining_minterms st) i) eqn:E.
      * rewrite Hrem in E by lia. apply andb_prop in E. destruct E as [E _].
        specialize (Hdom i E). lia.
      * cbn [andb]. apply andb_false_r.
  - intros i Hi. rewrite Z.land_spec in Hi. apply andb_prop in Hi.
    apply Hsound. tauto.
  - apply Forall_app. split; [exact Hshape|].
    constructor; [|constructor]. exists c, d.
    split; [lia|]. split; [lia|]. split; [exact Hadj|].
    split; [exact HMc|]. split; [apply Hsound, Had|reflexivity].
Qed.

Lemma pair_free_inv2 M D n :
  2 <= n <= 6 -> 0 <= M < 2 ^ (2 ^ n) ->
  forall (k : nat) c st,
    0 <= c -> c + Z.of_nat k = 2 ^ n ->
    pair_inv M n c st -> pair_inv2 M D n st ->
    pair_inv2 M D n (pair_free M n (Z.shiftl 1 n) (range c (2 ^ n)) st).
Proof.
  intros Hn HM. induction k as [|k IH]; intros c st Hc Hk Hinv Hinv2.
  - rewrite range_nil by lia. exact Hinv2.
  - rewrite range_cons by lia. cbn [pair_free fold_left].
    pose proof Hinv as (H1 & H2 & H3 & H4).
    apply (IH (c + 1)); [lia|lia| |].
    + apply pair_body_step; auto; lia.
    + apply pair_body_step2; auto; lia.
Qed.

Lemma initial_inv2 M D n : pair_inv2 M D n (initial_gstate M D).
Proof.
  unfold pair_inv2, initial_gstate.
  cbn [groups remaining_minterms available_for_grouping apart].
  split; [exact I|]. split; [reflexivity|]. split; [|constructor].
  intros i Hi. rewrite Z.lor_spec in Hi. exact Hi.
Qed.

(** The groups of the engine: apart from each other, each a pair whose
    second cell is a minterm or a don't-care, or a single minterm. *)
Lemma engine_apart M D n cap :
  2 <= n <= 6 -> 0 <= M < 2 ^ (2 ^ n) -> 0 <= D < 2 ^ (2 ^ n) -> 32 <= cap ->
  apart (groups (find_groups_cap cap M D n))
  /\ Forall (cell_shaped M D n) (groups (find_groups_cap cap M D n)).
Proof.
  intros Hn HM HD Hcap. pose proof (total_cells_bound n Hn) as Htot.
  destruct (engine_result M D n cap Hn HM HD Hcap) as [-> Hinv].
  pose proof (pair_free_inv2 M D n Hn HM (Z.to_nat (2 ^ n)) 0
                (initial_gstate M D) ltac:(lia) ltac:(lia)
                (initial_inv M D n Hn HM HD) (initial_inv2 M D n))
    as (Hap & Hdone & Hsound & Hshape).
  destruct Hinv as ((Hdom & Hrem & Hcov) & _).
  unfold with_singles. cbn [groups]. split.
  - apply apart_app; [exact Hap| |].
    + apply apart_singles; [apply NoDup_filter, range_NoDup|].
      intros c Hc. apply filter_In in Hc. destruct Hc as [Hc _].
      apply In_range in Hc. lia.
    + apply disjoint_bits. intros i Hi. rewrite singles_cover.
      * rewrite disjoint_bits in Hdone. apply Hdone, Hi.
      * exact Hi.
      * intros Hb. apply Hdom. rewrite Hrem in Hb by lia.
        apply andb_prop in Hb. tauto.
  - apply Forall_app. split.
    + apply (Forall_impl _ (fun g H => or_introl H) Hshape).
    + apply Forall_forall. intros g Hg. apply in_map_iff in Hg.
      destruct Hg as (c & <- & Hc). apply filter_In in Hc.
      destruct Hc as [Hc Hb]. apply In_range in Hc.
      right. exists c. split; [lia|]. split; [|reflexivity].
      rewrite Hrem in Hb by lia. apply andb_prop in Hb. tauto.
Qed.

Lemma cell_shaped_engine M D n g : cell_shaped M D n g -> engine_shaped M n g.
Proof.
  intros [(c & d & H1 & H2 & H3 & H4 & _ & H6)|H]; [left|right; exact H].
  exists c, d. auto.
Qed.

(** The covered minterms of a group are minterms, and not all zero. *)
Lemma engine_shaped_cover M n g :
  2 <= n <= 6 -> engine_shaped M n g ->
  covered_minterms g <> 0 /\ Z.land (covered_minterms g) M = covered_minterms g.
Proof.
  intros Hn Hg. pose proof (total_cells_bound n Hn).
  assert (exists c, 0 <= c /\ Z.testbit (covered_minterms g) c = true /\
                    forall i, 0 <= i -> Z.testbit (covered_minterms g) i = true
                                        -> Z.testbit M i = true)
    as (c & Hc & Hb & Hsub).
  { destruct Hg as [(c & d & Hcd & Hd & Ha & HMc & ->)|(c & Hc & HMc & ->)].
    - exists c. split; [lia|]. split.
      + rewrite testbit_pair_cover, Z.eqb_refl, HMc by lia. reflexivity.
      + intros i Hi Hb. rewrite testbit_pair_cover in Hb by lia.
        apply andb_prop in Hb. tauto.
    - exists c. split; [lia|]. cbn [single_implicant covered_minterms].
      split; [rewrite testbit_bit by lia; apply Z.eqb_refl|].
      intros i Hi Hb. rewrite testbit_bit in Hb by lia.
      apply Z.eqb_eq in Hb. subst i. exact HMc. }
  split.
  - intros H0. rewrite H0, Z.bits_0 in Hb. discriminate.
  - apply Z.bits_inj'. intros i Hi. rewrite Z.land_spec.
    destruct (Z.testbit (covered_minterms g) i) eqn:E; [|reflexivity].
    rewrite (Hsub i Hi E). reflexivity.
Qed.

(** X10.  On every table that satisfies the invariants no minterm is counted
    twice and no don't-care is counted at all: the covered minterms of two
    different groups of the engine share no cell, and the covered minterms
    of each group are a non-empty set of minterms. *)
Theorem engine_groups_disjoint (t : truth_table_t) :
  valid_table t ->
  (forall i j,
     i <> j ->
     (i < length (find_groups_with_dont_cares (minterms t) (dont_cares t)
                    (num_vars t)))%nat ->
     (j < length (find_groups_with_dont_cares (minterms t) (dont_cares t)
                    (num_vars t)))%nat ->
     Z.land
       (covered_minterms
          (slot (find_groups_with_dont_cares (minterms t) (dont_cares t)
                   (num_vars t)) i))
       (covered_minterms
          (slot (find_groups_with_dont_cares (minterms t) (dont_cares t)
                   (num_vars t)) j)) = 0)
  /\ forall g,
       In g (find_groups_with_dont_cares (minterms t) (dont_cares t)
               (num_vars t)) ->
       covered_minterms g <> 0
       /\ Z.land (covered_minterms g) (minterms t) = covered_minterms g
       /\ Z.land (covered_minterms g) (dont_cares t) = 0.
Proof.
  intros Hv. pose proof Hv as (Hn & Hdis & HM & HD & Hcnt).
  assert (32 <= MAX_GROUPS) as Hcap by (unfold MAX_GROUPS; lia).
  destruct (engine_apart _ _ _ MAX_GROUPS Hn HM HD Hcap) as [Hap Hsh].
  fold (find_groups_with_dont_cares (minterms t) (dont_cares t) (num_vars t))
    in Hap, Hsh.
  split.
  - intros i j Hij Hi Hj.
    destruct (Nat.lt_ge_cases i j) as [Hlt|Hge].
    + apply apart_slots; assumption.
    + rewrite Z.land_comm. apply apart_slots; [assumption|lia|assumption].
  - intros g Hg. rewrite Forall_forall in Hsh.
    destruct (engine_shaped_cover _ _ g Hn (cell_shaped_engine _ _ _ _
                (Hsh g Hg))) as [Hnz Hsub].
    split; [exact Hnz|]. split; [exact Hsub|].
    rewrite <- Hsub, <- Z.land_assoc, Hdis. apply Z.land_0_r.
Qed.

Lemma engine_groups_disjoint_witness :
  valid_table scenario_A
  /\ Z.land
       (covered_minterms
          (slot (find_groups_with_dont_cares (minterms scenario_A)
                   (dont_cares scenario_A) (num_vars scenario_A)) 0))
       (covered_minterms
          (slot (find_groups_with_dont_cares (minterms scenario_A)
                   (dont_cares scenario_A) (num_vars scenario_A)) 1)) = 0.
Proof.
  assert (valid_table scenario_A) as Hv
    by (apply valid_table_check; vm_compute; reflexivity).
  split; [exact Hv|].
  apply (proj1 (engine_groups_disjoint scenario_A Hv) 0%nat 1%nat).
  - discriminate.
  - vm_compute. lia.
  - vm_compute. lia.
Defined.

Lemma apart_never_subsumed gs i :
  apart gs -> Forall (fun g => covered_minterms g <> 0) gs ->
  (i < length gs)%nat -> spec_subsumed gs i = false.
Proof.
  intros Hap Hnz Hi. destruct (spec_subsumed gs i) eqn:E; [|reflexivity].
  exfalso. unfold spec_subsumed in E. apply existsb_exists in E.
  destruct E as (j & Hj & Hc). apply in_seq in Hj.
  apply andb_prop in Hc. destruct Hc as [Hc _].
  apply andb_prop in Hc. destruct Hc as [Hc Hsub].
  apply andb_prop in Hc. destruct Hc as [Hne _].
  apply negb_true_iff, Nat.eqb_neq in Hne. apply Z.eqb_eq in Hsub.
  assert (Z.land (covered_minterms (slot gs i)) (covered_minterms (slot gs j))
          = 0) as H0.
  { destruct (Nat.lt_ge_cases i j) as [Hlt|Hge].
    - apply apart_slots; auto; lia.
    - rewrite Z.land_comm. apply apart_slots; auto; lia. }
  rewrite Forall_forall in Hnz.
  apply (Hnz (slot gs i) (slot_In gs i Hi)). congruence.
Qed.

(** On groups that are apart and not empty the reducer changes nothing. *)
Lemma reduce_idle_on_apart gs lc tc :
  apart gs -> Forall (fun g => covered_minterms g <> 0 /\ 0 < size g) gs ->
  implicants
    (remove_redundant_implicants
       {| implicants := gs; literal_count := lc; term_count := tc |}) = gs.
Proof.
  intros Hap Hok. rewrite reduce_spec. cbn [implicants].
  assert (spec_sweep gs = gs) as ->.
  { apply list_eq_slots.
    - unfold spec_sweep. rewrite length_map, length_seq. reflexivity.
    - intros i Hi. unfold spec_sweep in Hi.
      rewrite length_map, length_seq in Hi.
      unfold spec_sweep, slot at 1.
      rewrite (nth_indep _ zero_implicant (spec_mark gs 0))
        by (rewrite length_map, length_seq; exact Hi).
      rewrite map_nth, seq_nth by exact Hi. cbn [Nat.add].
      unfold spec_mark. rewrite apart_never_subsumed; auto.
      apply (Forall_impl _ (fun g Hg => proj1 Hg) Hok). }
  apply filter_all. intros g Hg. rewrite Forall_forall in Hok.
  apply Z.gtb_lt. apply (Hok g Hg).
Qed.

Lemma engine_groups_live M n gs :
  2 <= n <= 6 -> Forall (engine_shaped M n) gs ->
  Forall (fun g => covered_minterms g <> 0 /\ 0 < size g) gs.
Proof.
  intros Hn Hsh.
  apply (Forall_impl _ (fun g Hg =>
    conj (proj1 (engine_shaped_cover _ _ g Hn Hg))
         (engine_shaped_size _ _ g Hn Hg)) Hsh).
Qed.

(** X11.  On the groups of the engine the reducer removes nothing: since
    the groups do not overlap, none covers another, and the solution of a
    successful call with two minterms or more is the list of the engine's
    groups in their order. *)
Theorem reducer_idle_on_engine (t : truth_table_t) :
  valid_table t ->
  implicants
    (remove_redundant_implicants
       {| implicants :=
            find_groups_with_dont_cares (minterms t) (dont_cares t)
              (num_vars t);
          literal_count := 0; term_count := 0 |})
  = find_groups_with_dont_cares (minterms t) (dont_cares t) (num_vars t)
  /\ forall sm s0 sol,
       find_prime_implicants sm (Some t) (Some s0) = Some (0, Some sol) ->
       2 <= minterm_count t ->
       implicants sol
       = find_groups_with_dont_cares (minterms t) (dont_cares t)
           (num_vars t).
Proof.
  intros Hv. pose proof Hv as (Hn & Hdis & HM & HD & Hcnt).
  assert (32 <= MAX_GROUPS) as Hcap by (unfold MAX_GROUPS; lia).
  destruct (engine_apart _ _ _ MAX_GROUPS Hn HM HD Hcap) as [Hap Hsh].
  fold (find_groups_with_dont_cares (minterms t) (dont_cares t) (num_vars t))
    in Hap, Hsh.
  set (gs := find_groups_with_dont_cares (minterms t) (dont_cares t)
               (num_vars t)) in *.
  assert (implicants (remove_redundant_implicants
            {| implicants := gs; literal_count := 0; term_count := 0 |}) = gs)
    as Hidle.
  { apply reduce_idle_on_apart; [exact Hap|].
    apply (engine_groups_live (minterms t) (num_vars t) gs Hn).
    apply (Forall_impl _ (cell_shaped_engine _ _ _) Hsh). }
  split; [exact Hidle|].
  intros sm s0 sol Hrun H2.
  destruct (find_prime_implicants_success sm t s0 sol Hrun)
    as [_ [[H0 _]|[[H1 _]|(_ & _ & E)]]]; [lia|lia|].
  rewrite E. exact Hidle.
Qed.

Lemma reducer_idle_on_engine_witness :
  valid_table scenario_A
  /\ find_prime_implicants C_undefined (Some scenario_A) (Some zero_solution)
     = Some (0, Some solution_A)
  /\ 2 <= minterm_count scenario_A
  /\ implicants solution_A
     = find_groups_with_dont_cares (minterms scenario_A)
         (dont_cares scenario_A) (num_vars scenario_A).
Proof.
  assert (valid_table scenario_A) as Hv
    by (apply valid_table_check; vm_compute; reflexivity).
  assert (find_prime_implicants C_undefined (Some scenario_A)
            (Some zero_solution) = Some (0, Some solution_A)) as Hrun
    by (vm_compute; reflexivity).
  assert (2 <= minterm_count scenario_A) as H2 by (cbn; lia).
  split; [exact Hv|]. split; [exact Hrun|]. split; [exact H2|].
  exact (proj2 (reducer_idle_on_engine scenario_A Hv) C_undefined
           zero_solution solution_A Hrun H2).
Defined.

(** ** The function of the solution *)

Lemma pair_holds_all : cell_check pair_holds_ok = true.
Proof. vm_compute. reflexivity. Qed.

Lemma single_holds_all : cell_check1 single_holds_ok = true.
Proof. vm_compute. reflexivity. Qed.

(** The term of a pair holds on its two cells and nowhere else. *)
Lemma holds_pair M n c d m :
  2 <= n <= 6 -> 0 <= c < 64 -> 0 <= d < 64 -> are_adjacent c d n = true ->
  0 <= m < 2 ^ n ->
  implicant_holds n (pair_implicant M n c d) m = (m =? c) || (m =? d).
Proof.
  intros Hn Hc Hd Ha Hm.
  unfold implicant_holds. destruct (pair_implicant_fields M n c d) as [-> ->].
  fold (implicant_holds n (pair_implicant 0 n c d) m).
  pose proof (cell_check_sound _ pair_holds_all n c d Hn Hc Hd) as H1.
  unfold pair_holds_ok in H1.
  pose proof (if_true_elim _ _ H1 Ha) as H2. clear H1.
  pose proof (range_forallb _ _ _ H2 m Hm) as H3. clear H2. cbv beta in H3.
  apply eqb_prop in H3. exact H3.
Qed.

(** The term of a single cell holds on that cell and nowhere else. *)
Lemma holds_single n c m :
  2 <= n <= 6 -> 0 <= c < 2 ^ n -> 0 <= m < 2 ^ n ->
  implicant_holds n (single_implicant n c) m = (m =? c).
Proof.
  intros Hn Hc Hm. pose proof (total_cells_bound n Hn).
  pose proof (cell_check1_sound _ single_holds_all n c Hn ltac:(lia)) as H1.
  unfold single_holds_ok in H1.
  assert ((c <? 2 ^ n) = true) as Hlt by (apply Z.ltb_lt; lia).
  pose proof (if_true_elim _ _ H1 Hlt) as H2. clear H1.
  pose proof (range_forallb _ _ _ H2 m Hm) as H3. clear H2. cbv beta in H3.
  apply eqb_prop in H3. exact H3.
Qed.

Lemma holds_complete M n imps m :
  2 <= n <= 6 -> 0 <= m < 2 ^ n -> Forall (engine_shaped M n) imps ->
  Z.testbit (covered_union imps) m = true -> solution_holds n imps m = true.
Proof.
  intros Hn Hm Hsh Hb. pose proof (total_cells_bound n Hn).
  rewrite testbit_covered_union in Hb. apply existsb_exists in Hb.
  destruct Hb as (g & Hg & Hb). unfold solution_holds.
  apply existsb_exists. exists g. split; [exact Hg|].
  rewrite Forall_forall in Hsh.
  destruct (Hsh g Hg) as [(c & d & Hcd & Hd & Ha & HMc & ->)|(c & Hc & HMc & ->)].
  - rewrite holds_pair by (assumption || lia).
    rewrite testbit_pair_cover in Hb by lia.
    apply andb_prop in Hb. destruct Hb as [Hb _].
    rewrite (Z.eqb_sym m c), (Z.eqb_sym m d). exact Hb.
  - rewrite holds_single by (assumption || lia).
    cbn [single_implicant covered_minterms] in Hb.
    rewrite testbit_bit in Hb by lia. rewrite Z.eqb_sym. exact Hb.
Qed.

Lemma holds_sound M D n imps m :
  2 <= n <= 6 -> 0 <= m < 2 ^ n -> Forall (cell_shaped M D n) imps ->
  solution_holds n imps m = true ->
  Z.testbit M m || Z.testbit D m = true.
Proof.
  intros Hn Hm Hsh Hb. pose proof (total_cells_bound n Hn).
  unfold solution_holds in Hb. apply existsb_exists in Hb.
  destruct Hb as (g & Hg & Hb). rewrite Forall_forall in Hsh.
  destruct (Hsh g Hg)
    as [(c & d & Hcd & Hd & Ha & HMc & HMd & ->)|(c & Hc & HMc & ->)].
  - rewrite holds_pair in Hb by (assumption || lia).
    apply orb_prop in Hb. destruct Hb as [Hb|Hb]; apply Z.eqb_eq in Hb; subst m.
    + rewrite HMc. reflexivity.
    + exact HMd.
  - rewrite holds_single in Hb by (assumption || lia).
    apply Z.eqb_eq in Hb. subst m. rewrite HMc. reflexivity.
Qed.

(** Whatever way the entry point succeeds on a valid table, its implicants
    are apart and have the shape of the engine's groups. *)
Lemma solution_cells sm t s0 sol :
  valid_table t ->
  find_prime_implicants sm (Some t) (Some s0) = Some (0, Some sol) ->
  apart (implicants sol)
  /\ Forall (cell_shaped (minterms t) (dont_cares t) (num_vars t))
       (implicants sol).
Proof.
  intros Hv Hrun. pose proof Hv as (Hn & Hdis & HM & HD & Hcnt).
  pose proof (valid_table_word t Hv) as [HM64 HD64].
  destruct (find_prime_implicants_success sm t s0 sol Hrun)
    as [_ [[H0 ->]|[[H1 ->]|(H0 & H1 & ->)]]].
  - split; [exact I|constructor].
  - rewrite Hcnt in H1.
    destruct (single_bit_word (minterms t) HM64 H1) as (Hc & Hb & Heq).
    split.
    + cbn [apart]. split; [apply Z.land_0_r|exact I].
    + constructor; [|constructor]. right. exists (ctz (minterms t)).
      split; [|split; [exact Hb|reflexivity]].
      apply (minterm_bits (minterms t) (num_vars t) _ Hn HM Hb).
  - assert (32 <= MAX_GROUPS) as Hcap by (unfold MAX_GROUPS; lia).
    destruct (engine_apart _ _ _ MAX_GROUPS Hn HM HD Hcap) as [Hap Hsh].
    fold (find_groups_with_dont_cares (minterms t) (dont_cares t) (num_vars t))
      in Hap, Hsh.
    rewrite reduce_idle_on_apart; [split; assumption|exact Hap|].
    apply (engine_groups_live (minterms t) (num_vars t) _ Hn).
    apply (Forall_impl _ (cell_shaped_engine _ _ _) Hsh).
Qed.

(** X12.  The solution computes the function of the table.  Read as a sum
    of products over the assignment that gives variable [var] the bit [var]
    of a cell, the groups of the engine, and the implicants of every
    successful call of the entry point, are true on every minterm of a valid
    table and false on every cell that is neither a minterm nor a
    don't-care. *)
Theorem solution_computes_function (t : truth_table_t) :
  valid_table t ->
  (forall m, 0 <= m < 2 ^ num_vars t ->
     (Z.testbit (minterms t) m = true ->
      solution_holds (num_vars t)
        (find_groups_with_dont_cares (minterms t) (dont_cares t) (num_vars t))
        m = true)
     /\ (solution_holds (num_vars t)
           (find_groups_with_dont_cares (minterms t) (dont_cares t)
              (num_vars t)) m = true ->
         Z.testbit (minterms t) m || Z.testbit (dont_cares t) m = true))
  /\ forall sm s0 sol,
       find_prime_implicants sm (Some t) (Some s0) = Some (0, Some sol) ->
       forall m, 0 <= m < 2 ^ num_vars t ->
         (Z.testbit (minterms t) m = true ->
          solution_holds (num_vars t) (implicants sol) m = true)
         /\ (solution_holds (num_vars t) (implicants sol) m = true ->
             Z.testbit (minterms t) m || Z.testbit (dont_cares t) m = true).
Proof.
  intros Hv. pose proof Hv as (Hn & Hdis & HM & HD & Hcnt).
  assert (32 <= MAX_GROUPS) as Hcap by (unfold MAX_GROUPS; lia).
  split.
  - intros m Hm.
    destruct (engine_apart _ _ _ MAX_GROUPS Hn HM HD Hcap) as [_ Hsh].
    pose proof (engine_cover _ _ _ MAX_GROUPS Hn HM HD Hcap) as Hcov.
    fold (find_groups_with_dont_cares (minterms t) (dont_cares t) (num_vars t))
      in Hsh, Hcov.
    split.
    + intros Hb. apply (holds_complete (minterms t)); [assumption..| |].
      * apply (Forall_impl _ (cell_shaped_engine _ _ _) Hsh).
      * rewrite Hcov. exact Hb.
    + apply (holds_sound _ _ _ _ m Hn Hm Hsh).
  - intros sm s0 sol Hrun m Hm.
    destruct (solution_cells sm t s0 sol Hv Hrun) as [_ Hsh].
    destruct (solution_shapes sm t s0 sol Hv Hrun) as [Hes Hcov].
    split.
    + intros Hb. apply (holds_complete (minterms t)); [assumption..|].
      rewrite Hcov. exact Hb.
    + apply (holds_sound _ _ _ _ m Hn Hm Hsh).
Qed.

Lemma solution_computes_function_witness :
  valid_table scenario_A
  /\ find_prime_implicants C_undefined (Some scenario_A) (Some zero_solution)
     = Some (0, Some solution_A)
  /\ 0 <= 5 < 2 ^ num_vars scenario_A
  /\ Z.testbit (minterms scenario_A) 5 = true
  /\ solution_holds (num_vars scenario_A) (implicants solution_A) 5 = true.
Proof.
  assert (valid_table scenario_A) as Hv
    by (apply valid_table_check; vm_compute; reflexivity).
  assert (find_prime_implicants C_undefined (Some scenario_A)
            (Some zero_solution) = Some (0, Some solution_A)) as Hrun
    by (vm_compute; reflexivity).
  assert (0 <= 5 < 2 ^ num_vars scenario_A) as Hm by (cbn; lia).
  assert (Z.testbit (minterms scenario_A) 5 = true) as Hb
    by (vm_compute; reflexivity).
  split; [exact Hv|]. split; [exact Hrun|]. split; [exact Hm|].
  split; [exact Hb|].
  exact (proj1 (proj2 (solution_computes_function scenario_A Hv) C_undefined
                  zero_solution solution_A Hrun 5 Hm) Hb).
Defined.

(** ** The statistics and the sizes *)

Lemma engine_length M D n :
  2 <= n <= 6 -> 0 <= M < 2 ^ (2 ^ n) -> 0 <= D < 2 ^ (2 ^ n) ->
  (length (find_groups_with_dont_cares M D n) <= 32)%nat.
Proof.
  intros Hn HM HD.
  assert (32 <= MAX_GROUPS) as Hcap by (unfold MAX_GROUPS; lia).
  destruct (engine_result _ _ _ MAX_GROUPS Hn HM HD Hcap) as [E Hinv].
  unfold find_groups_with_dont_cares. rewrite E.
  unfold with_singles. cbn [groups].
  rewrite length_app, length_map.
  pose proof (singles_fit _ _ _ Hn Hinv) as Hfit.
  unfold group_count in Hfit. lia.
Qed.

Lemma engine_shaped_literals M n g :
  2 <= n <= 6 -> engine_shaped M n g ->
  n - 1 <= popcount (literal_mask g) <= n.
Proof.
  intros Hn Hg. pose proof (total_cells_bound n Hn).
  destruct Hg as [(c & d & Hcd & Hd & Ha & HMc & ->)|(c & Hc & HMc & ->)].
  - destruct (adjacent_fields M n c d Hn ltac:(lia) ltac:(lia) Ha)
      as (_ & _ & _ & Hp & _). lia.
  - destruct (single_fields n c Hn Hc) as [Hp _]. lia.
Qed.

Lemma literal_total_bounds M n imps :
  2 <= n <= 6 -> Forall (engine_shaped M n) imps ->
  (n - 1) * Z.of_nat (length imps) <= literal_total imps
  <= n * Z.of_nat (length imps).
Proof.
  intros Hn. induction 1 as [|g imps Hg _ IH].
  - cbn [literal_total fold_right length]. lia.
  - pose proof (engine_shaped_literals M n g Hn Hg).
    change (literal_total (g :: imps))
      with (popcount (literal_mask g) + literal_total imps).
    cbn [length]. lia.
Qed.

(** The loop on the byte adds up exactly as long as the sum fits. *)
Lemma count_literals_from M n imps :
  2 <= n <= 6 -> Forall (engine_shaped M n) imps ->
  forall acc, 0 <= acc -> acc + 6 * Z.of_nat (length imps) <= 255 ->
    fold_left (fun a g => u8 (a + popcount (literal_mask g))) imps acc
    = acc + literal_total imps.
Proof.
  intros Hn. induction 1 as [|g imps Hg _ IH]; intros acc Hacc Hfit.
  - cbn [fold_left literal_total fold_right]. lia.
  - pose proof (engine_shaped_literals M n g Hn Hg) as Hp.
    cbn [fold_left]. cbn [length] in Hfit.
    change (literal_total (g :: imps))
      with (popcount (literal_mask g) + literal_total imps).
    assert (u8 (acc + popcount (literal_mask g))
            = acc + popcount (literal_mask g)) as ->.
    { unfold u8. apply Z.mod_small. lia. }
    rewrite IH by lia. lia.
Qed.

(** X13.  The statistics of a successful call on a valid table.  With two
    minterms or more [term_count] is the number of implicants and
    [literal_count] the number of literals of all the terms, which the byte
    holds without wrapping and which lies between [num_vars - 1] and
    [num_vars] literals a term.  With exactly one minterm the solution has
    one implicant and both statistics are left at 0. *)
Theorem statistics_of_solution (t : truth_table_t) sm s0 sol :
  valid_table t ->
  find_prime_implicants sm (Some t) (Some s0) = Some (0, Some sol) ->
  (2 <= minterm_count t ->
   term_count sol = implicant_count sol
   /\ literal_count sol = literal_total (implicants sol)
   /\ (num_vars t - 1) * term_count sol <= literal_count sol
      <= num_vars t * term_count sol
   /\ literal_count sol <= 192)
  /\ (minterm_count t = 1 ->
      implicant_count sol = 1 /\ term_count sol = 0 /\ literal_count sol = 0).
Proof.
  intros Hv Hrun. pose proof Hv as (Hn & Hdis & HM & HD & Hcnt).
  destruct (solution_shapes sm t s0 sol Hv Hrun) as [Hsh _].
  pose proof Hrun as Hrun'. unfold find_prime_implicants in Hrun'.
  destruct (validate_truth_table sm (Some t)) as [[|]|]; try discriminate.
  destruct (Z.eqb_spec (minterm_count t) 0) as [H0|H0].
  { split; intros; lia. }
  destruct (Z.eqb_spec (minterm_count t) 1) as [H1|H1].
  { split; [intros; lia|]. intros _. injection Hrun' as <-.
    cbn [implicant_count implicants term_count literal_count length].
    repeat split; reflexivity. }
  split; [|intros; lia]. intros _.
  injection Hrun' as <-.
  cbn [implicants term_count literal_count] in *.
  unfold implicant_count at 2. cbn [implicants].
  set (imps := implicants (remove_redundant_implicants _)) in *.
  assert (length imps <= 32)%nat as Hlen.
  { unfold imps. rewrite reduce_spec. cbn [implicants].
    etransitivity; [apply filter_length_bound|].
    unfold spec_sweep. rewrite length_map, length_seq.
    apply engine_length; assumption. }
  pose proof (literal_total_bounds _ _ imps Hn Hsh) as Hb.
  assert (count_literals imps = literal_total imps) as ->.
  { unfold count_literals.
    rewrite (count_literals_from _ _ imps Hn Hsh 0) by lia. lia. }
  unfold implicant_count. fold imps.
  split; [reflexivity|]. split; [reflexivity|]. split; [exact Hb|]. nia.
Qed.

Lemma statistics_of_solution_witness :
  valid_table scenario_A
  /\ find_prime_implicants C_undefined (Some scenario_A) (Some zero_solution)
     = Some (0, Some solution_A)
  /\ 2 <= minterm_count scenario_A
  /\ term_count solution_A = implicant_count solution_A
  /\ literal_count solution_A = literal_total (implicants solution_A).
Proof.
  assert (valid_table scenario_A) as Hv
    by (apply valid_table_check; vm_compute; reflexivity).
  assert (find_prime_implicants C_undefined (Some scenario_A)
            (Some zero_solution) = Some (0, Some solution_A)) as Hrun
    by (vm_compute; reflexivity).
  assert (2 <= minterm_count scenario_A) as H2 by (cbn; lia).
  split; [exact Hv|]. split; [exact Hrun|]. split; [exact H2|].
  destruct (proj1 (statistics_of_solution scenario_A C_undefined zero_solution
                     solution_A Hv Hrun) H2) as (Ht & Hl & _).
  exact (conj Ht Hl).
Defined.

Lemma popcount_bit_all : cell_check1 popcount_bit_ok = true.
Proof. vm_compute. reflexivity. Qed.

Lemma popcount_bit c : 0 <= c < 64 -> popcount (bit c) = 1.
Proof.
  intros Hc.
  pose proof (cell_check1_sound _ popcount_bit_all 2 c ltac:(lia) Hc) as H.
  assert ((c <? 64) = true) as Hlt by (apply Z.ltb_lt; lia).
  pose proof (if_true_elim _ _ H Hlt) as H1. clear H.
  apply Z.eqb_eq in H1. exact H1.
Qed.

Lemma popcount_lor a b :
  Z.land a b = 0 -> popcount (Z.lor a b) = popcount a + popcount b.
Proof.
  intros Hd. rewrite !popcount_eq.
  assert (forall i, Z.testbit a i && Z.testbit b i = false) as Hb.
  { intros i. rewrite <- Z.land_spec, Hd. apply Z.bits_0. }
  generalize (range 0 64). intros l.
  induction l as [|i l IH]; [reflexivity|].
  cbn [filter]. rewrite Z.lor_spec. specialize (Hb i).
  destruct (Z.testbit a i), (Z.testbit b i); cbn [orb andb] in *;
    try discriminate; cbn [length]; lia.
Qed.

Lemma engine_shaped_counts M n g :
  2 <= n <= 6 -> engine_shaped M n g -> size g = popcount (covered_minterms g).
Proof.
  intros Hn Hg. pose proof (total_cells_bound n Hn).
  destruct Hg as [(c & d & Hcd & Hd & Ha & HMc & ->)|(c & Hc & HMc & ->)].
  - unfold pair_implicant. cbn [size covered_minterms]. exact eq_refl.
  - cbn [single_implicant size covered_minterms]. symmetry.
    apply popcount_bit. lia.
Qed.

Lemma size_total_cover M n gs :
  2 <= n <= 6 -> Forall (engine_shaped M n) gs -> apart gs ->
  size_total gs = popcount (covered_union gs)
  /\ Z.of_nat (length gs) <= size_total gs.
Proof.
  intros Hn. induction 1 as [|g gs Hg _ IH]; intros Hap.
  - split; [|cbn; lia]. change (covered_union []) with 0.
    cbn [size_total fold_right]. symmetry. apply popcount_zero.
    intros i _. apply Z.bits_0.
  - cbn [apart] in Hap. destruct Hap as [Hd Hap].
    destruct (IH Hap) as [IH1 IH2].
    change (size_total (g :: gs)) with (size g + size_total gs).
    rewrite covered_union_cons, (popcount_lor _ _ Hd), IH1.
    rewrite (engine_shaped_counts M n g Hn Hg).
    split; [reflexivity|].
    pose proof (engine_shaped_size M n g Hn Hg) as Hpos.
    rewrite (engine_shaped_counts M n g Hn Hg) in Hpos.
    cbn [length]. lia.
Qed.

(** X14.  Every minterm is counted once: on a valid table the sizes of the
    groups of the engine, and those of the implicants of every successful
    call of the entry point, add up to the number of minterms, and there are
    never more implicants than minterms. *)
Theorem sizes_add_up (t : truth_table_t) :
  valid_table t ->
  (size_total (find_groups_with_dont_cares (minterms t) (dont_cares t)
                 (num_vars t)) = minterm_count t
   /\ Z.of_nat (length (find_groups_with_dont_cares (minterms t) (dont_cares t)
                          (num_vars t))) <= minterm_count t)
  /\ forall sm s0 sol,
       find_prime_implicants sm (Some t) (Some s0) = Some (0, Some sol) ->
       size_total (implicants sol) = minterm_count t
       /\ implicant_count sol <= minterm_count t.
Proof.
  intros Hv. pose proof Hv as (Hn & Hdis & HM & HD & Hcnt).
  assert (32 <= MAX_GROUPS) as Hcap by (unfold MAX_GROUPS; lia).
  split.
  - destruct (engine_apart _ _ _ MAX_GROUPS Hn HM HD Hcap) as [Hap Hsh].
    pose proof (engine_cover _ _ _ MAX_GROUPS Hn HM HD Hcap) as Hcov.
    fold (find_groups_with_dont_cares (minterms t) (dont_cares t) (num_vars t))
      in Hap, Hsh, Hcov.
    destruct (size_total_cover (minterms t) (num_vars t) _ Hn
                (Forall_impl _ (cell_shaped_engine _ _ _) Hsh) Hap)
      as [H1 H2].
    rewrite Hcov, <- Hcnt in H1. split; [exact H1|]. rewrite <- H1. exact H2.
  - intros sm s0 sol Hrun.
    destruct (solution_cells sm t s0 sol Hv Hrun) as [Hap _].
    destruct (solution_shapes sm t s0 sol Hv Hrun) as [Hsh Hcov].
    destruct (size_total_cover (minterms t) (num_vars t) _ Hn Hsh Hap)
      as [H1 H2].
    rewrite Hcov, <- Hcnt in H1. split; [exact H1|].
    unfold implicant_count. rewrite <- H1. exact H2.
Qed.

Lemma sizes_add_up_witness :
  valid_table scenario_A
  /\ find_prime_implicants C_undefined (Some scenario_A) (Some zero_solution)
     = Some (0, Some solution_A)
  /\ size_total (implicants solution_A) = minterm_count scenario_A.
Proof.
  assert (valid_table scenario_A) as Hv
    by (apply valid_table_check; vm_compute; reflexivity).
  assert (find_prime_implicants C_undefined (Some scenario_A)
            (Some zero_solution) = Some (0, Some solution_A)) as Hrun
    by (vm_compute; reflexivity).
  split; [exact Hv|]. split; [exact Hrun|].
  exact (proj1 (proj2 (sizes_add_up scenario_A Hv) C_undefined zero_solution
                  solution_A Hrun)).
Defined.

(** ** No more implicants than half the cells *)

Lemma blocks_drop (rem rem' k0 : Z) :
  0 <= k0 < 32 ->
  (forall i, Z.testbit rem' i = true -> Z.testbit rem i = true) ->
  block_has rem k0 = true -> block_has rem' k0 = false ->
  rem_blocks rem' + 1 <= rem_blocks rem.
Proof.
  intros Hk0 Hsub Hb1 Hb2. rewrite !rem_blocks_eq.
  assert (forall k, block_has rem' k = true -> block_has rem k = true) as Hmono.
  { intros k Hk. unfold block_has in *. apply orb_prop in Hk.
    destruct Hk as [Hk|Hk]; apply Hsub in Hk; rewrite Hk;
      auto using orb_true_r. }
  pose proof (filter_length_drop (block_has rem) (block_has rem') (range 0 32)
                k0 Hmono (proj2 (In_range 0 32 k0) Hk0) Hb1 Hb2) as Hdrop.
  revert Hdrop.
  generalize (length (filter (block_has rem') (range 0 32))).
  generalize (length (filter (block_has rem) (range 0 32))).
  intros b b' Hdrop. lia.
Qed.

(** One iteration of the first loop: a group is written only when a block
    is emptied. *)
Lemma pair_body_spent M n c st :
  2 <= n <= 6 -> 0 <= M < 2 ^ (2 ^ n) -> 0 <= c < 2 ^ n ->
  pools_ok M n st -> settled n c st ->
  spent (pair_body M n (Z.shiftl 1 n) c st) <= spent st.
Proof.
  intros Hn HM Hc (Hdom & Hrem & Hcov) Hset.
  pose proof (total_cells_bound n Hn) as Htot.
  unfold pair_body. rewrite !has_spec by lia.
  destruct (Z.testbit (available_for_grouping st) c) eqn:Eav; cbn [negb];
    [|lia].
  destruct (Z.testbit (remaining_minterms st) c) eqn:Ere; cbn [negb];
    [|lia].
  assert (HMc : Z.testbit M c = true).
  { rewrite Hrem, Eav in Ere by lia. exact Ere. }
  rewrite total_cells_eq by lia.
  destruct (pair_scan_cases M n c st (range (c + 1) (2 ^ n)))
    as [[-> Hnone]|(l1 & d & l2 & Hl & Had & Hadj & -> & Hfirst)];
    [lia|assumption|intros d Hd; apply In_range in Hd; lia|lia|].
  assert (Hd : c + 1 <= d < 2 ^ n).
  { apply In_range. rewrite Hl. apply in_elt. }
  set (st' := emit (pair_implicant M n c d) (Z.lor (bit c) (bit d)) st).
  assert (Hre' : forall i, Z.testbit (remaining_minterms st') i = true ->
                           Z.testbit (remaining_minterms st) i = true).
  { intros i Hi. unfold st' in Hi. cbn [emit remaining_minterms] in Hi.
    rewrite Z.land_spec in Hi. apply andb_prop in Hi. tauto. }
  assert (Hrc : Z.testbit (remaining_minterms st') c = false).
  { unfold st'. rewrite emit_pair_remaining by lia.
    rewrite Z.eqb_refl, HMc, Ere. reflexivity. }
  assert (Hblock : exists k0, 0 <= k0 < 32 /\
            block_has (remaining_minterms st) k0 = true /\
            block_has (remaining_minterms st') k0 = false).
  { destruct (parity_cases c) as [(k & Hk & Hev)|(k & Hk & Hev)].
    - exists k. split; [lia|]. unfold block_has. rewrite <- Hk.
      rewrite Ere, Hrc. split; [reflexivity|]. cbn [orb].
      destruct (Z.testbit (remaining_minterms st') (c + 1)) eqn:E;
        [|reflexivity].
      assert (Z.testbit (remaining_minterms st) (c + 1) = true) as E0
        by (apply Hre', E).
      assert (Z.testbit (available_for_grouping st) (c + 1) = true) as E1.
      { rewrite Hrem in E0 by lia. apply andb_prop in E0. tauto. }
      pose proof (adjacent_block n c Hn Hc Hev) as Hadj1.
      unfold st' in E. rewrite emit_pair_remaining in E by lia.
      destruct (Z.eqb_spec d (c + 1)) as [Hdc|Hdc].
      + rewrite Hrem, E1 in E by lia. cbn [andb] in E.
        rewrite orb_true_r in E. cbn [andb] in E.
        destruct (Z.testbit M (c + 1)); discriminate.
      + assert (In (c + 1) l1) as Hin1.
        { destruct l1 as [|x l1'].
          - rewrite range_cons in Hl by lia. cbn [app] in Hl.
            injection Hl as Hx _. lia.
          - rewrite range_cons in Hl by lia. cbn [app] in Hl.
            injection Hl as Hx _. left. lia. }
        rewrite (Hfirst (c + 1) Hin1 E1) in Hadj1. discriminate.
    - exists k. split; [lia|]. unfold block_has.
      replace (2 * k + 1) with c by lia.
      replace (2 * k) with (c - 1) by lia.
      rewrite Ere, Hrc, !orb_true_r, orb_false_r.
      split; [reflexivity|].
      destruct (Z.testbit (remaining_minterms st') (c - 1)) eqn:E;
        [|reflexivity].
      apply Hre' in E.
      assert (Z.testbit (available_for_grouping st) (c - 1) = true) as E1.
      { rewrite Hrem in E by lia. apply andb_prop in E. tauto. }
      pose proof (Hdom _ E1) as Hc1.
      pose proof (adjacent_block n (c - 1) Hn ltac:(lia) Hev) as Hadj1.
      replace (c - 1 + 1) with c in Hadj1 by lia.
      rewrite (Hset (c - 1) ltac:(lia) E c ltac:(lia) Hadj1) in Eav.
      discriminate. }
  destruct Hblock as (k0 & Hk0 & Hb1 & Hb2).
  unfold spent. unfold st' at 1. rewrite group_count_emit.
  pose proof (blocks_drop _ _ k0 Hk0 Hre' Hb1 Hb2). lia.
Qed.

Lemma pair_free_spent M n :
  2 <= n <= 6 -> 0 <= M < 2 ^ (2 ^ n) ->
  forall (k : nat) c st,
    0 <= c -> c + Z.of_nat k = 2 ^ n -> pair_inv M n c st ->
    spent (pair_free M n (Z.shiftl 1 n) (range c (2 ^ n)) st) <= spent st.
Proof.
  intros Hn HM. induction k as [|k IH]; intros c st Hc Hk Hinv.
  - rewrite range_nil by lia. cbn [pair_free fold_left]. lia.
  - rewrite range_cons by lia. cbn [pair_free fold_left].
    pose proof Hinv as (H1 & H2 & H3 & H4).
    etransitivity.
    + apply (IH (c + 1)); [lia|lia|]. apply pair_body_step; auto; lia.
    + apply pair_body_spent; auto; lia.
Qed.

Lemma range_length a b : 0 <= b - a -> Z.of_nat (length (range a b)) = b - a.
Proof.
  intros H. unfold range. rewrite length_map, length_seq. lia.
Qed.

(** The cells of the domain lie in the first [2^(n-1)] blocks. *)
Lemma blocks_of_domain M n :
  2 <= n <= 6 -> 0 <= M < 2 ^ (2 ^ n) -> rem_blocks M <= 2 ^ (n - 1).
Proof.
  intros Hn HM. pose proof (total_cells_bound n Hn) as Htot.
  assert (2 ^ n = 2 * 2 ^ (n - 1)) as Hhalf.
  { rewrite <- (Z.pow_succ_r 2 (n - 1)) by lia. f_equal. lia. }
  rewrite rem_blocks_eq.
  rewrite (range_app 0 (2 ^ (n - 1)) 32), filter_app, length_app by lia.
  assert (filter (block_has M) (range (2 ^ (n - 1)) 32) = []) as ->.
  { destruct (filter (block_has M) (range (2 ^ (n - 1)) 32)) as [|k l] eqn:E;
      [reflexivity|].
    assert (In k (filter (block_has M) (range (2 ^ (n - 1)) 32))) as Hin
      by (rewrite E; left; reflexivity).
    apply filter_In in Hin. destruct Hin as [Hk Hb]. apply In_range in Hk.
    unfold block_has in Hb. apply orb_prop in Hb.
    destruct Hb as [Hb|Hb]; apply (minterm_bits M n _ Hn HM) in Hb; lia. }
  cbn [length].
  pose proof (filter_length_bound (block_has M) (range 0 (2 ^ (n - 1)))) as Hle.
  pose proof (range_length 0 (2 ^ (n - 1)) ltac:(lia)) as Hlen.
  revert Hle Hlen.
  generalize (length (filter (block_has M) (range 0 (2 ^ (n - 1))))).
  generalize (length (range 0 (2 ^ (n - 1)))).
  intros a b Hle Hlen. lia.
Qed.

Lemma spent_initial M D : spent (initial_gstate M D) = rem_blocks M.
Proof. reflexivity. Qed.

(** After the first loop the cells that remain are no more than the blocks
    that hold one. *)
Lemma singles_le_blocks M n st :
  2 <= n <= 6 -> pair_inv M n (2 ^ n) st ->
  Z.of_nat (length (filter (Z.testbit (remaining_minterms st))
                      (range 0 (2 ^ n))))
  <= rem_blocks (remaining_minterms st).
Proof.
  intros Hn ((Hdom & Hrem & Hcov) & _ & Hset & _).
  pose proof (total_cells_bound n Hn) as Htot.
  rewrite rem_blocks_eq.
  assert (forall k, 0 <= k ->
            Z.testbit (remaining_minterms st) (2 * k) = true ->
            Z.testbit (remaining_minterms st) (2 * k + 1) = false) as Hone.
  { intros k Hk Hb.
    assert (0 <= 2 * k < 2 ^ n) as Hk2.
    { apply Hdom. rewrite Hrem in Hb by lia. apply andb_prop in Hb. tauto. }
    assert (Z.even (2 * k) = true) as Hev by (apply Z.even_spec; exists k; lia).
    pose proof (adjacent_block n (2 * k) Hn Hk2 Hev) as Hadj.
    destruct (Z.testbit (remaining_minterms st) (2 * k + 1)) eqn:E;
      [|reflexivity].
    rewrite Hrem in E by lia. apply andb_prop in E. destruct E as [E _].
    pose proof (Hdom _ E) as Hk3.
    rewrite (Hset (2 * k) ltac:(lia) Hb (2 * k + 1) ltac:(lia) Hadj) in E.
    discriminate. }
  pose proof (cells_le_blocks _ Hone 32) as Hle.
  change (2 * Z.of_nat 32) with 64 in Hle.
  change (Z.of_nat 32) with 32 in Hle.
  rewrite (range_app 0 (2 ^ n) 64), filter_app, length_app in Hle by lia.
  revert Hle.
  generalize (length (filter (Z.testbit (remaining_minterms st))
                        (range 0 (2 ^ n)))).
  generalize (length (filter (Z.testbit (remaining_minterms st))
                        (range (2 ^ n) 64))).
  generalize (length (filter (block_has (remaining_minterms st))
                        (range 0 32))).
  intros a b c Hle. lia.
Qed.

Lemma engine_half M D n :
  2 <= n <= 6 -> 0 <= M < 2 ^ (2 ^ n) -> 0 <= D < 2 ^ (2 ^ n) ->
  Z.of_nat (length (find_groups_with_dont_cares M D n)) <= 2 ^ (n - 1).
Proof.
  intros Hn HM HD. pose proof (total_cells_bound n Hn) as Htot.
  assert (32 <= MAX_GROUPS) as Hcap by (unfold MAX_GROUPS; lia).
  destruct (engine_result _ _ _ MAX_GROUPS Hn HM HD Hcap) as [E Hinv].
  pose proof (pair_free_spent M n Hn HM (Z.to_nat (2 ^ n)) 0
                (initial_gstate M D) ltac:(lia) ltac:(lia)
                (initial_inv M D n Hn HM HD)) as Hsp.
  rewrite spent_initial in Hsp.
  unfold find_groups_with_dont_cares. rewrite E. clear E.
  pose proof (singles_le_blocks M n _ Hn Hinv) as Hle.
  pose proof (blocks_of_domain M n Hn HM) as Hdomain.
  revert Hsp Hle.
  generalize (pair_free M n (Z.shiftl 1 n) (range 0 (2 ^ n))
                (initial_gstate M D)).
  intros st Hsp Hle.
  unfold with_singles. cbn [groups]. rewrite length_app, length_map.
  unfold spent, group_count in Hsp.
  revert Hsp Hle Hdomain.
  generalize (rem_blocks (remaining_minterms st)).
  generalize (rem_blocks M).
  generalize (length (filter (Z.testbit (remaining_minterms st))
                        (range 0 (2 ^ n)))).
  generalize (length (groups st)).
  intros a b c d Hsp Hle Hdomain. lia.
Qed.

(** X15.  At most one implicant for every two cells: on a valid table the
    engine writes no more than [2^(num_vars - 1)] groups, and no successful
    call of the entry point has more implicants than that.  The capacity of
    32 can only be met with six variables. *)
Theorem at_most_half_the_cells (t : truth_table_t) :
  valid_table t ->
  Z.of_nat (length (find_groups_with_dont_cares (minterms t) (dont_cares t)
                      (num_vars t))) <= 2 ^ (num_vars t - 1)
  /\ forall sm s0 sol,
       find_prime_implicants sm (Some t) (Some s0) = Some (0, Some sol) ->
       implicant_count sol <= 2 ^ (num_vars t - 1).
Proof.
  intros Hv. pose proof Hv as (Hn & Hdis & HM & HD & Hcnt).
  pose proof (engine_half _ _ _ Hn HM HD) as Hhalf.
  split; [exact Hhalf|].
  intros sm s0 sol Hrun.
  assert (1 <= 2 ^ (num_vars t - 1)) as Hone
    by (apply (Z.pow_le_mono_r 2 0); lia).
  destruct (find_prime_implicants_success sm t s0 sol Hrun)
    as [_ [[H0 ->]|[[H1 E]|(H0 & H1 & E)]]].
  - cbn. lia.
  - unfold implicant_count. rewrite E. cbn [length]. lia.
  - unfold implicant_count. rewrite E, reduce_spec. cbn [implicants].
    pose proof (filter_length_bound (fun g => size g >? 0)
                  (spec_sweep (find_groups_with_dont_cares (minterms t)
                                 (dont_cares t) (num_vars t)))) as Hle.
    unfold spec_sweep in Hle at 2. rewrite length_map, length_seq in Hle.
    lia.
Qed.

Lemma at_most_half_the_cells_witness :
  valid_table scenario_A
  /\ Z.of_nat (length (find_groups_with_dont_cares (minterms scenario_A)
                         (dont_cares scenario_A) (num_vars scenario_A)))
     <= 2 ^ (num_vars scenario_A - 1).
Proof.
  assert (valid_table scenario_A) as Hv
    by (apply valid_table_check; vm_compute; reflexivity).
  split; [exact Hv|].
  exact (proj1 (at_most_half_the_cells scenario_A Hv)).
Defined.

(** ** The single cells that remain *)

(** A single-cell implicant among the groups of the engine comes from the
    final pass: its cell was still required after the first loop. *)
Lemma single_in_engine M D n c :
  2 <= n <= 6 -> 0 <= M < 2 ^ (2 ^ n) -> 0 <= D < 2 ^ (2 ^ n) ->
  In (single_implicant n c) (find_groups_with_dont_cares M D n) ->
  0 <= c < 2 ^ n
  /\ Z.testbit
       (remaining_minterms
          (pair_free M n (Z.shiftl 1 n) (range 0 (2 ^ n))
             (initial_gstate M D))) c = true.
Proof.
  intros Hn HM HD Hin. pose proof (total_cells_bound n Hn) as Htot.
  assert (32 <= MAX_GROUPS) as Hcap by (unfold MAX_GROUPS; lia).
  destruct (engine_result _ _ _ MAX_GROUPS Hn HM HD Hcap) as [E Hinv].
  unfold find_groups_with_dont_cares in Hin. rewrite E in Hin. clear E.
  destruct Hinv as (_ & Hshape & _).
  unfold with_singles in Hin. cbn [groups] in Hin.
  apply in_app_or in Hin. destruct Hin as [Hin|Hin].
  - exfalso. rewrite Forall_forall in Hshape.
    destruct (Hshape _ Hin) as (c1 & d1 & Hcd & Hd & Ha & _ & Heq).
    destruct (adjacent_fields M n c1 d1 Hn ltac:(lia) ltac:(lia) Ha)
      as (_ & _ & _ & Hp & _).
    rewrite <- Heq in Hp.
    destruct (single_fields n 0 Hn ltac:(lia)) as [Hp0 _].
    change (literal_mask (single_implicant n c))
      with (literal_mask (single_implicant n 0)) in Hp.
    lia.
  - apply in_map_iff in Hin. destruct Hin as (c' & Heq & Hc').
    assert (c' = c) as -> by (apply (f_equal literal_values) in Heq; exact Heq).
    apply filter_In in Hc'. destruct Hc' as [Hr Hb].
    apply In_range in Hr. split; [lia|exact Hb].
Qed.

(** X16.  No two single-cell implicants could have been merged: on a valid
    table the cells of two different single-cell groups of the engine are
    never adjacent. *)
Theorem singles_cannot_merge (t : truth_table_t) (c c' : Z) :
  valid_table t ->
  In (single_implicant (num_vars t) c)
     (find_groups_with_dont_cares (minterms t) (dont_cares t) (num_vars t)) ->
  In (single_implicant (num_vars t) c')
     (find_groups_with_dont_cares (minterms t) (dont_cares t) (num_vars t)) ->
  c <> c' ->
  are_adjacent c c' (num_vars t) = false.
Proof.
  intros Hv Hc Hc' Hne. pose proof Hv as (Hn & Hdis & HM & HD & Hcnt).
  assert (32 <= MAX_GROUPS) as Hcap by (unfold MAX_GROUPS; lia).
  destruct (engine_result _ _ _ MAX_GROUPS Hn HM HD Hcap) as [_ Hinv].
  destruct (single_in_engine _ _ _ c Hn HM HD Hc) as [Hr Hb].
  destruct (single_in_engine _ _ _ c' Hn HM HD Hc') as [Hr' Hb'].
  destruct Hinv as ((Hdom & Hrem & _) & _ & Hset & _).
  assert (forall x y, x < y -> 0 <= x -> y < 2 ^ num_vars t ->
            Z.testbit (remaining_minterms
                         (pair_free (minterms t) (num_vars t)
                            (Z.shiftl 1 (num_vars t))
                            (range 0 (2 ^ num_vars t))
                            (initial_gstate (minterms t) (dont_cares t)))) x
            = true ->
            Z.testbit (remaining_minterms
                         (pair_free (minterms t) (num_vars t)
                            (Z.shiftl 1 (num_vars t))
                            (range 0 (2 ^ num_vars t))
                            (initial_gstate (minterms t) (dont_cares t)))) y
            = true ->
            are_adjacent x y (num_vars t) = false) as Hup.
  { intros x y Hxy Hx Hy Hbx Hby.
    destruct (are_adjacent x y (num_vars t)) eqn:Ea; [|reflexivity].
    pose proof (Hset x ltac:(lia) Hbx y ltac:(lia) Ea) as Hav.
    rewrite Hrem, Hav in Hby by lia. discriminate. }
  destruct (Z.lt_ge_cases c c') as [Hlt|Hge].
  - apply Hup; assumption || lia.
  - assert (are_adjacent c c' (num_vars t) = are_adjacent c' c (num_vars t))
      as -> by (unfold are_adjacent;
                rewrite (Z.lxor_comm c c'), orb_comm; reflexivity).
    apply Hup; assumption || lia.
Qed.

Lemma singles_cannot_merge_witness :
  valid_table diagonal
  /\ In (single_implicant (num_vars diagonal) 0)
        (find_groups_with_dont_cares (minterms diagonal) (dont_cares diagonal)
           (num_vars diagonal))
  /\ In (single_implicant (num_vars diagonal) 3)
        (find_groups_with_dont_cares (minterms diagonal) (dont_cares diagonal)
           (num_vars diagonal))
  /\ 0 <> 3
  /\ are_adjacent 0 3 (num_vars diagonal) = false.
Proof.
  assert (valid_table diagonal) as Hv
    by (apply valid_table_check; vm_compute; reflexivity).
  assert (In (single_implicant (num_vars diagonal) 0)
             (find_groups_with_dont_cares (minterms diagonal)
                (dont_cares diagonal) (num_vars diagonal))) as H0
    by (vm_compute; left; reflexivity).
  assert (In (single_implicant (num_vars diagonal) 3)
             (find_groups_with_dont_cares (minterms diagonal)
                (dont_cares diagonal) (num_vars diagonal))) as H3
    by (vm_compute; right; left; reflexivity).
  assert (0 <> 3) as Hne by lia.
  split; [exact Hv|]. split; [exact H0|]. split; [exact H3|].
  split; [exact Hne|].
  exact (singles_cannot_merge diagonal 0 3 Hv H0 H3 Hne).
Defined.

(** ** The renderer and its buffer *)

Module RenderBounds.
Import String Ascii.
Import RenderFacts.

Lemma substring_length (k : nat) (s : string) :
  (String.length (substring 0 k s) <= k)%nat.
Proof.
  revert s. induction k as [|k IH]; intros s.
  - destruct s; cbn; lia.
  - destruct s as [|c s]; cbn [substring String.length]; [lia|].
    specialize (IH s). lia.
Qed.

Lemma strncpy_fits (src : string) (len : Z) :
  0 < len -> strlen (strncpy_terminated src len) < len.
Proof.
  intros Hlen. unfold strncpy_terminated, strlen.
  pose proof (substring_length (Z.to_nat (len - 1)) src). lia.
Qed.

(** X17.  The renderer stays inside its buffer.  Whatever the solution and
    the arguments, the code is 0, -1, -2 or -3; a buffer length that is not
    positive gives -1 and more than eight variables give -2, both before
    anything is written; in every other case the text left in the buffer,
    complete or not, is shorter than the buffer. *)
Theorem render_within_buffer (s : solution_t) (n len : Z)
    (before : string) (code : Z) (text : string) :
  generate_sop_expression (Some s) n (Some before) len = (code, Some text) ->
  (len <= 0 -> code = -1 /\ text = before)
  /\ (0 < len -> 8 < n -> code = -2 /\ text = before)
  /\ (0 < len -> n <= 8 -> (code = 0 \/ code = -3) /\ strlen text < len).
Proof.
  unfold generate_sop_expression.
  destruct (Z.leb_spec len 0) as [Hlen|Hlen].
  { intros H. injection H as <- <-.
    split; [auto|]. split; intros; lia. }
  destruct (Z.gtb_spec n 8) as [Hn|Hn].
  { intros H. injection H as <- <-.
    split; [intros; lia|]. split; [auto|intros; lia]. }
  intros H. split; [intros; lia|]. split; [intros; lia|]. intros _ _.
  destruct (implicant_count s =? 0).
  { injection H as <- <-. split; [left; reflexivity|].
    apply strncpy_fits, Hlen. }
  pose proof (terms_runs n len (implicants s) Hn 0 EmptyString Hlen) as Hrun.
  destruct (terms n len 0 (implicants s) EmptyString) as [out|c out];
    cbn [runs] in Hrun.
  - destruct Hrun as [_ Hfit].
    destruct (strlen out =? 0); injection H as <- <-;
      (split; [left; reflexivity|]); [apply strncpy_fits, Hlen|exact Hfit].
  - destruct Hrun as (-> & Hfit & _). injection H as <- <-.
    split; [right; reflexivity|lia].
Qed.

Lemma render_within_buffer_witness :
  generate_sop_expression (Some solution_A) 3 (Some "old"%string) 4
  = (-3, Some "A&"%string)
  /\ strlen "A&" < 4.
Proof.
  assert (generate_sop_expression (Some solution_A) 3 (Some "old"%string) 4
          = (-3, Some "A&"%string)) as Hrun by (vm_compute; reflexivity).
  split; [exact Hrun|].
  exact (proj2 (proj2 (proj2 (render_within_buffer solution_A 3 4 "old" (-3)
                                "A&" Hrun)) ltac:(lia) ltac:(lia))).
Defined.

Lemma literals_text_false imp vars output :
  snd (literals_text imp vars output false) = false.
Proof.
  revert output. induction vars as [|var vars IH]; intros output;
    cbn [literals_text snd]; [reflexivity|].
  destruct (negb (Z.land (literal_mask imp) (u8 (Z.shiftl 1 var)) =? 0));
    apply IH.
Qed.

(** A term takes at most three bytes a variable, and one less at its
    start. *)
Lemma literals_text_length imp vars :
  Forall (fun v => 0 <= v < 8) vars ->
  forall output first_literal,
    (snd (literals_text imp vars output first_literal) = true ->
     fst (literals_text imp vars output first_literal) = output)
    /\ strlen (fst (literals_text imp vars output first_literal))
         + (if first_literal
            then (if snd (literals_text imp vars output first_literal)
                  then 0 else 1)
            else 0)
       <= strlen output + 3 * Z.of_nat (List.length vars).
Proof.
  induction 1 as [|var vars Hvar Hvars IH]; intros output first_literal.
  - cbn [literals_text fst snd List.length].
    split; [reflexivity|]. destruct first_literal; lia.
  - cbn [literals_text]. rewrite length_cons, Nat2Z.inj_succ.
    destruct (negb (Z.land (literal_mask imp) (u8 (Z.shiftl 1 var)) =? 0)).
    + set (o1 := if negb first_literal then (output ++ "&")%string
                 else output).
      set (o2 := if Z.land (literal_values imp) (u8 (Z.shiftl 1 var)) =? 0
                 then (o1 ++ "~")%string else o1).
      rewrite (literals_text_false imp vars (o2 ++ var_str var)).
      split; [discriminate|].
      destruct (IH (o2 ++ var_str var)%string false) as [_ Hle].
      rewrite strlen_append, (var_str_length var Hvar) in Hle.
      assert (strlen o2 <= strlen o1 + 1) as H2.
      { unfold o2.
        destruct (Z.land (literal_values imp) (u8 (Z.shiftl 1 var)) =? 0);
          [rewrite strlen_append; change (strlen "~") with 1|]; lia. }
      assert (strlen o1 + (if first_literal then 1 else 0)
              <= strlen output + 1) as H1.
      { unfold o1. destruct first_literal; cbn [negb];
          [|rewrite strlen_append; change (strlen "&") with 1]; lia. }
      destruct first_literal; lia.
    + destruct (IH output first_literal) as [Hsame Hle].
      split; [exact Hsame|]. destruct first_literal; lia.
Qed.

Lemma terms_text_length n imps :
  1 <= n <= 8 ->
  forall i output, 0 <= i ->
    strlen (terms_text n i imps output) + (if i =? 0 then 3 else 0)
    <= strlen output + (3 * n + 2) * Z.of_nat (List.length imps)
       + (if (i =? 0) && (Z.of_nat (List.length imps) =? 0) then 3 else 0).
Proof.
  intros Hn. induction imps as [|imp imps IH]; intros i output Hi.
  - cbn [terms_text List.length]. change (Z.of_nat 0 =? 0) with true.
    destruct (i =? 0); cbn [andb]; lia.
  - cbn [terms_text]. rewrite length_cons, Nat2Z.inj_succ.
    set (o1 := if i >? 0 then (output ++ " + ")%string else output).
    set (r := literals_text imp (range 0 n) o1 true).
    set (o2 := if snd r then (fst r ++ "1")%string else fst r).
    specialize (IH (i + 1) o2 ltac:(lia)).
    assert ((i + 1 =? 0) = false) as E1 by (apply Z.eqb_neq; lia).
    rewrite E1 in IH. cbn [andb] in IH.
    assert ((Z.succ (Z.of_nat (List.length imps)) =? 0) = false) as ->
      by (apply Z.eqb_neq; lia).
    rewrite andb_false_r.
    destruct (literals_text_length imp (range 0 n)
                (vars_in_names n ltac:(lia)) o1 true) as [Hsame Hle].
    fold r in Hsame, Hle.
    rewrite range_length in Hle by lia.
    assert (strlen o2 <= strlen o1 + 3 * n - 1) as H2.
    { unfold o2. destruct (snd r).
      - rewrite (Hsame eq_refl), strlen_append. change (strlen "1") with 1.
        lia.
      - lia. }
    assert (strlen o1 + (if i =? 0 then 3 else 0) <= strlen output + 3) as H1.
    { unfold o1. destruct (Z.eqb_spec i 0) as [->|Hne].
      - change (0 >? 0) with false. cbv iota. lia.
      - destruct (Z.gtb_spec i 0); [|lia]. rewrite strlen_append.
        change (strlen " + ") with 3. lia. }
    lia.
Qed.

(** The length of the complete expression. *)
Lemma expression_length n imps :
  1 <= n <= 8 -> imps <> [] ->
  strlen (expression n imps)
  <= (3 * n + 2) * Z.of_nat (List.length imps) - 3.
Proof.
  intros Hn Hne. unfold expression.
  pose proof (terms_text_length n imps Hn 0 EmptyString ltac:(lia)) as H.
  change (0 =? 0) with true in H. cbv iota in H.
  assert ((Z.of_nat (List.length imps) =? 0) = false) as E.
  { apply Z.eqb_neq. destruct imps; [congruence|]. cbn [List.length]. lia. }
  rewrite E in H. cbn [andb] in H. change (strlen EmptyString) with 0 in H.
  lia.
Qed.

(** A buffer more than three bytes longer than the expression receives all
    of it. *)
Lemma render_complete (s : solution_t) (n len : Z) (before : string) :
  implicants s <> [] -> n <= 8 ->
  strlen (expression n (implicants s)) + 3 < len ->
  generate_sop_expression (Some s) n (Some before) len
  = (0, Some (expression n (implicants s))).
Proof.
  intros Hne Hn Hlen.
  pose proof (expression_nonempty n (implicants s) Hn Hne) as Hpos.
  pose proof (terms_runs n len (implicants s) Hn 0 EmptyString
                ltac:(change (strlen EmptyString) with 0; lia)) as Hruns.
  fold (expression n (implicants s)) in Hruns.
  unfold generate_sop_expression.
  destruct (Z.leb_spec len 0) as [|_]; [lia|].
  destruct (Z.gtb_spec n 8) as [|_]; [lia|].
  assert ((implicant_count s =? 0) = false) as ->.
  { apply Z.eqb_neq. unfold implicant_count.
    destruct (implicants s); [congruence|]. cbn [List.length]. lia. }
  destruct (terms n len 0 (implicants s) EmptyString) as [out|c out];
    cbn [runs] in Hruns.
  - destruct Hruns as [-> _].
    destruct (Z.eqb_spec (strlen (expression n (implicants s))) 0);
      [lia|reflexivity].
  - exfalso. destruct Hruns as (_ & Hfit & rest & _ & Hfull).
    rewrite Hfull, strlen_append in Hlen.
    pose proof (strlen_nonneg rest). lia.
Qed.

Lemma render_zero (s : solution_t) (n len : Z) (before : string) :
  implicants s = [] -> n <= 8 -> 2 <= len ->
  generate_sop_expression (Some s) n (Some before) len = (0, Some "0"%string).
Proof.
  intros He Hn Hlen. unfold generate_sop_expression, implicant_count.
  rewrite He.
  destruct (Z.leb_spec len 0) as [|_]; [lia|].
  destruct (Z.gtb_spec n 8) as [|_]; [lia|].
  cbn [List.length Z.of_nat Z.eqb]. unfold strncpy_terminated.
  destruct (Z.to_nat (len - 1)) as [|k] eqn:E; [lia|].
  cbn. destruct k; reflexivity.
Qed.

(** With six variables the entry point succeeds only without implicant, and
    below six the implicants are at most 16. *)
Lemma solution_count_small sm t s0 sol :
  valid_table t ->
  find_prime_implicants sm (Some t) (Some s0) = Some (0, Some sol) ->
  implicant_count sol <= 16 /\ (num_vars t = 6 -> implicants sol = []).
Proof.
  intros Hv Hrun. pose proof Hv as (Hn & Hdis & HM & HD & Hcnt).
  destruct (find_prime_implicants_success sm t s0 sol Hrun)
    as [_ [[H0 ->]|Hmore]].
  { split; [cbn; lia|reflexivity]. }
  assert (num_vars t <= 5) as H5.
  { destruct (Z_le_gt_dec (num_vars t) 5) as [|Hgt]; [assumption|].
    exfalso. assert (num_vars t = 6) as E6 by lia.
    destruct (Z.eq_dec (Z.lor (minterms t) (dont_cares t)) 0) as [Hz|Hnz].
    - apply Z.lor_eq_0_iff in Hz. destruct Hz as [Hz _].
      rewrite Hz in Hcnt. change (popcount 0) with 0 in Hcnt.
      destruct Hmore as [[H1 _]|(H0 & _)]; lia.
    - exact (entry_point_six sm t s0 sol Hv E6 Hnz Hrun). }
  split; [|lia].
  assert (2 ^ (num_vars t - 1) <= 16) as Hpow.
  { change 16 with (2 ^ 4). apply Z.pow_le_mono_r; lia. }
  pose proof (engine_half _ _ _ Hn HM HD) as Hhalf.
  destruct Hmore as [[_ E]|(_ & _ & E)]; unfold implicant_count; rewrite E.
  - cbn [List.length]. lia.
  - rewrite reduce_spec. cbn [implicants].
    pose proof (filter_length_bound (fun g => size g >? 0)
                  (spec_sweep (find_groups_with_dont_cares (minterms t)
                                 (dont_cares t) (num_vars t)))) as Hle.
    unfold spec_sweep in Hle at 2. rewrite length_map, length_seq in Hle.
    lia.
Qed.

Lemma solution_expression_short sm t s0 sol :
  valid_table t ->
  find_prime_implicants sm (Some t) (Some s0) = Some (0, Some sol) ->
  strlen (expression (num_vars t) (implicants sol)) <= 269.
Proof.
  intros Hv Hrun. pose proof Hv as (Hn & _).
  destruct (solution_count_small sm t s0 sol Hv Hrun) as [Hk H6].
  destruct (implicants sol) as [|g imps] eqn:E.
  - cbn. lia.
  - assert (num_vars t <= 5) as H5.
    { destruct (Z.eq_dec (num_vars t) 6) as [E6|]; [|lia].
      specialize (H6 E6). discriminate. }
    pose proof (expression_length (num_vars t) (g :: imps) ltac:(lia)
                  ltac:(discriminate)) as Hle.
    unfold implicant_count in Hk. rewrite E in Hk. nia.
Qed.

(** X18.  The buffers of the test programs are always enough.  For every
    successful call of the entry point on a valid table the complete
    expression is at most 269 bytes long, and the renderer given 273 bytes or
    more returns 0 with that expression, or with the text 0 when the solution
    has no implicant. *)
Theorem test_buffer_suffices (t : truth_table_t) sm s0 sol before len :
  valid_table t ->
  find_prime_implicants sm (Some t) (Some s0) = Some (0, Some sol) ->
  273 <= len ->
  generate_sop_expression (Some sol) (num_vars t) (Some before) len
  = (0, Some (if implicant_count sol =? 0 then "0"%string
              else expression (num_vars t) (implicants sol)))
  /\ strlen (expression (num_vars t) (implicants sol)) <= 269.
Proof.
  intros Hv Hrun Hlen. pose proof Hv as (Hn & _).
  pose proof (solution_expression_short sm t s0 sol Hv Hrun) as Hshort.
  split; [|exact Hshort].
  destruct (Z.eqb_spec (implicant_count sol) 0) as [H0|H0].
  - apply render_zero; [|lia|lia].
    unfold implicant_count in H0. destruct (implicants sol); [reflexivity|].
    cbn [List.length] in H0. lia.
  - apply render_complete; [|lia|lia].
    intros E. apply H0. unfold implicant_count. rewrite E. reflexivity.
Qed.

Lemma test_buffer_suffices_witness :
  valid_table scenario_A
  /\ find_prime_implicants C_undefined (Some scenario_A) (Some zero_solution)
     = Some (0, Some solution_A)
  /\ 273 <= 512
  /\ generate_sop_expression (Some solution_A) (num_vars scenario_A)
       (Some EmptyString) 512
     = (0, Some (if implicant_count solution_A =? 0 then "0"%string
                 else expression (num_vars scenario_A)
                        (implicants solution_A))).
Proof.
  assert (valid_table scenario_A) as Hv
    by (apply valid_table_check; vm_compute; reflexivity).
  assert (find_prime_implicants C_undefined (Some scenario_A)
            (Some zero_solution) = Some (0, Some solution_A)) as Hrun
    by (vm_compute; reflexivity).
  assert (273 <= 512) as Hlen by lia.
  split; [exact Hv|]. split; [exact Hrun|]. split; [exact Hlen|].
  exact (proj1 (test_buffer_suffices scenario_A C_undefined zero_solution
                  solution_A EmptyString 512 Hv Hrun Hlen)).
Defined.

End RenderBounds.

(** ** The parsers *)

Module FrontFacts.
Import String Ascii.
Import RenderFacts.

Lemma strlen_cons c s : strlen (String c s) = 1 + strlen s.
Proof. unfold strlen. cbn [String.length]. lia. Qed.

Lemma strspn_le s acc : 0 <= strspn s acc <= strlen s.
Proof.
  induction s as [|c s IH]; cbn [strspn]; [cbn; lia|].
  rewrite strlen_cons. destruct (strchr acc c); lia.
Qed.

Lemma strspn_cons c s acc :
  strspn (String c s) acc = strlen (String c s) ->
  strchr acc c = true /\ strspn s acc = strlen s.
Proof.
  cbn [strspn]. rewrite strlen_cons. pose proof (strspn_le s acc).
  destruct (strchr acc c); [split; [reflexivity|lia]|lia].
Qed.

Lemma strchr_false s c :
  strchr s c = false -> forall j, get j s <> Some c.
Proof.
  induction s as [|x s IH]; intros H j; [destruct j; discriminate|].
  cbn [strchr] in H. destruct (Ascii.eqb_spec x c) as [|Hne]; [discriminate|].
  destruct j as [|j]; cbn [get]; [congruence|apply IH, H].
Qed.

(** The five characters of a pattern. *)
Lemma pattern_char c :
  strchr "01Xx-" c = true ->
  isspace c = false /\ Ascii.eqb c "," = false
  /\ (Ascii.eqb c "1" = true \/ Ascii.eqb c "0" = true
      \/ dont_care_char c = true).
Proof.
  unfold dont_care_char. cbn [strchr]. rewrite !(Ascii.eqb_sym _ c).
  destruct (Ascii.eqb_spec c "0") as [->|_]; [intros _; cbn; auto|].
  destruct (Ascii.eqb_spec c "1") as [->|_]; [intros _; cbn; auto|].
  destruct (Ascii.eqb_spec c "X") as [->|_]; [intros _; cbn; auto|].
  destruct (Ascii.eqb_spec c "x") as [->|_]; [intros _; cbn; auto|].
  destruct (Ascii.eqb_spec c "-") as [->|_]; [intros _; cbn; auto|].
  discriminate.
Qed.

Lemma pattern_no_comma s :
  strspn s "01Xx-" = strlen s -> strchr s "," = false.
Proof.
  induction s as [|c s IH]; intros H; [reflexivity|].
  apply strspn_cons in H. destruct H as [Hc Hs].
  destruct (pattern_char c Hc) as (_ & Hcomma & _).
  cbn [strchr]. rewrite Hcomma. apply IH, Hs.
Qed.

Lemma pattern_no_space s :
  strspn s "01Xx-" = strlen s -> skip_space s = s.
Proof.
  destruct s as [|c s]; intros H; [reflexivity|].
  apply strspn_cons in H. destruct H as [Hc _].
  destruct (pattern_char c Hc) as (Hsp & _).
  cbn [skip_space]. rewrite Hsp. reflexivity.
Qed.

Lemma popcount_le v : 0 <= popcount v <= 64.
Proof.
  rewrite popcount_eq.
  pose proof (filter_length_bound (Z.testbit v) (range 0 64)) as Hle.
  pose proof (range_length 0 64 ltac:(lia)) as Hlen.
  revert Hle Hlen. generalize (List.length (filter (Z.testbit v) (range 0 64))).
  generalize (List.length (range 0 64)). intros a b Hle Hlen. lia.
Qed.

(** One more bit, one more in the count. *)
Lemma popcount_set v p :
  0 <= p < 64 -> Z.testbit v p = false ->
  popcount (Z.lor v (bit p)) = popcount v + 1.
Proof.
  intros Hp Hb. rewrite popcount_lor.
  - rewrite popcount_bit by lia. reflexivity.
  - apply Z.bits_inj'. intros k Hk.
    rewrite Z.land_spec, Z.bits_0, testbit_bit by lia.
    destruct (Z.eqb_spec p k) as [<-|]; [rewrite Hb; reflexivity|].
    apply andb_false_r.
Qed.

(** The loop over the characters of a pattern. *)
Lemma binary_cells_spec L :
  0 <= L <= 64 ->
  forall rest i t,
    0 <= i -> i + strlen rest = L ->
    strspn rest "01Xx-" = strlen rest ->
    cells_inv L i t ->
    exists t',
      binary_cells L i rest t = (0, t')
      /\ cells_inv L L t' /\ num_vars t' = num_vars t
      /\ (forall k, L - i <= k ->
            Z.testbit (minterms t') k = Z.testbit (minterms t) k
            /\ Z.testbit (dont_cares t') k = Z.testbit (dont_cares t) k)
      /\ (forall j c, get j rest = Some c ->
            Z.testbit (minterms t') (L - 1 - (i + Z.of_nat j))
            = Ascii.eqb c "1"
            /\ Z.testbit (dont_cares t') (L - 1 - (i + Z.of_nat j))
               = dont_care_char c).
Proof.
  intros HL. induction rest as [|c rest IH]; intros i t Hi Hlen Hpat Hinv.
  - exists t. change (strlen EmptyString) with 0 in Hlen.
    replace i with L in Hinv by lia.
    split; [reflexivity|]. split; [exact Hinv|]. split; [reflexivity|].
    split; [auto|]. intros j c Hj. destruct j; discriminate.
  - rewrite strlen_cons in Hlen. pose proof (strlen_nonneg rest) as Hpos.
    apply strspn_cons in Hpat. destruct Hpat as [Hc Hpat].
    destruct (pattern_char c Hc) as (_ & _ & Hkind).
    destruct Hinv as (HM & HD & HMb & HDb & Hdis & Hcnt).
    set (p := L - 1 - i).
    assert (0 <= p < 64) as Hp by (unfold p; lia).
    assert (Z.testbit (minterms t) p = false) as HMp.
    { destruct (Z.testbit (minterms t) p) eqn:E; [|reflexivity].
      apply HMb in E. unfold p in E. lia. }
    assert (Z.testbit (dont_cares t) p = false) as HDp.
    { destruct (Z.testbit (dont_cares t) p) eqn:E; [|reflexivity].
      apply HDb in E. unfold p in E. lia. }
    assert (forall t1,
              cells_inv L (i + 1) t1 -> num_vars t1 = num_vars t ->
              (forall k, L - i <= k ->
                 Z.testbit (minterms t1) k = Z.testbit (minterms t) k
                 /\ Z.testbit (dont_cares t1) k = Z.testbit (dont_cares t) k) ->
              Z.testbit (minterms t1) p = Ascii.eqb c "1" ->
              Z.testbit (dont_cares t1) p = dont_care_char c ->
              exists t',
                binary_cells L (i + 1) rest t1 = (0, t')
                /\ cells_inv L L t' /\ num_vars t' = num_vars t
                /\ (forall k, L - i <= k ->
                      Z.testbit (minterms t') k = Z.testbit (minterms t) k
                      /\ Z.testbit (dont_cares t') k
                         = Z.testbit (dont_cares t) k)
                /\ (forall j c0, get j (String c rest) = Some c0 ->
                      Z.testbit (minterms t') (L - 1 - (i + Z.of_nat j))
                      = Ascii.eqb c0 "1"
                      /\ Z.testbit (dont_cares t') (L - 1 - (i + Z.of_nat j))
                         = dont_care_char c0)) as Hnext.
    { intros t1 Hinv1 Hn1 Hframe1 HM1 HD1.
      destruct (IH (i + 1) t1 ltac:(lia) ltac:(lia) Hpat Hinv1)
        as (t' & Hrun & Hinv' & Hn' & Hframe & Hread).
      exists t'. split; [exact Hrun|]. split; [exact Hinv'|].
      split; [congruence|]. split.
      - intros k Hk. destruct (Hframe k ltac:(lia)) as [-> ->].
        apply Hframe1, Hk.
      - intros j c0 Hj. destruct j as [|j].
        + cbn [get] in Hj. injection Hj as <-.
          replace (L - 1 - (i + Z.of_nat 0)) with p by (unfold p; lia).
          destruct (Hframe p ltac:(unfold p; lia)) as [-> ->].
          split; assumption.
        + cbn [get] in Hj.
          replace (L - 1 - (i + Z.of_nat (S j)))
            with (L - 1 - (i + 1 + Z.of_nat j)) by lia.
          apply Hread, Hj. }
    cbn [binary_cells]. fold p.
    destruct (Ascii.eqb_spec c "1") as [E1|N1].
    + (* a one *)
      apply Hnext; unfold cells_inv;
          cbn [minterms dont_cares num_vars minterm_count].
      * split; [apply Z.lor_nonneg; unfold bit; rewrite Z.shiftl_1_l; lia|].
        split; [exact HD|]. split; [|split; [|split]].
        -- intros k Hk. rewrite Z.lor_spec, testbit_bit in Hk by lia.
           apply orb_prop in Hk. destruct Hk as [Hk|Hk].
           ++ apply HMb in Hk. lia.
           ++ apply Z.eqb_eq in Hk. unfold p in Hk. lia.
        -- intros k Hk. apply HDb in Hk. lia.
        -- apply Z.bits_inj'. intros k Hk.
           rewrite Z.land_spec, Z.lor_spec, Z.bits_0, testbit_bit by lia.
           assert (Z.testbit (minterms t) k && Z.testbit (dont_cares t) k
                   = false) as Hmd
             by (rewrite <- Z.land_spec, Hdis; apply Z.bits_0).
           destruct (Z.eqb_spec p k) as [<-|].
           ++ rewrite HDp. apply andb_false_r.
           ++ rewrite orb_false_r. exact Hmd.
        -- rewrite (popcount_set _ p Hp HMp), Hcnt.
           pose proof (popcount_le (minterms t)).
           pose proof (popcount_le (Z.lor (minterms t) (bit p))) as Hle.
           rewrite (popcount_set _ p Hp HMp) in Hle.
           unfold u8. apply Z.mod_small. lia.
      * reflexivity.
      * intros k Hk. rewrite Z.lor_spec, testbit_bit by lia.
        destruct (Z.eqb_spec p k); [unfold p in *; lia|].
        rewrite orb_false_r. split; reflexivity.
      * rewrite Z.lor_spec, testbit_bit, Z.eqb_refl by lia.
        apply orb_true_r.
      * rewrite HDp. subst c. reflexivity.
    + destruct (Ascii.eqb_spec c "0") as [E0|N0].
      * (* a zero *)
        apply Hnext.
        -- split; [exact HM|]. split; [exact HD|]. split; [|split; [|split]].
           ++ intros k Hk. apply HMb in Hk. lia.
           ++ intros k Hk. apply HDb in Hk. lia.
           ++ exact Hdis.
           ++ exact Hcnt.
        -- reflexivity.
        -- intros k Hk. split; reflexivity.
        -- exact HMp.
        -- rewrite HDp. subst c. reflexivity.
      * (* a don't-care *)
        assert (dont_care_char c = true) as Hdc.
        { destruct Hkind as [H|[H|H]]; [discriminate|discriminate|exact H]. }
        pose proof Hdc as Hdc'. unfold dont_care_char in Hdc'.
        rewrite Hdc'.
        apply Hnext; unfold cells_inv;
          cbn [minterms dont_cares num_vars minterm_count].
        -- split; [exact HM|].
           split; [apply Z.lor_nonneg; unfold bit; rewrite Z.shiftl_1_l; lia|].
           split; [|split; [|split]].
           ++ intros k Hk. apply HMb in Hk. lia.
           ++ intros k Hk. rewrite Z.lor_spec, testbit_bit in Hk by lia.
              apply orb_prop in Hk. destruct Hk as [Hk|Hk].
              ** apply HDb in Hk. lia.
              ** apply Z.eqb_eq in Hk. unfold p in Hk. lia.
           ++ apply Z.bits_inj'. intros k Hk.
              rewrite Z.land_spec, Z.lor_spec, Z.bits_0, testbit_bit by lia.
              assert (Z.testbit (minterms t) k && Z.testbit (dont_cares t) k
                      = false) as Hmd
                by (rewrite <- Z.land_spec, Hdis; apply Z.bits_0).
              destruct (Z.eqb_spec p k) as [<-|].
              ** rewrite HMp. reflexivity.
              ** rewrite orb_false_r. exact Hmd.
           ++ exact Hcnt.
        -- reflexivity.
        -- intros k Hk. rewrite Z.lor_spec, testbit_bit by lia.
           destruct (Z.eqb_spec p k); [unfold p in *; lia|].
           rewrite orb_false_r. split; reflexivity.
        -- exact HMp.
        -- rewrite Z.lor_spec, testbit_bit, Z.eqb_refl by lia.
           rewrite Hdc. apply orb_true_r.
Qed.

Lemma width_of_some len n :
  width_of len = Some n -> 0 <= n < 32 /\ len <= 2 ^ n.
Proof.
  unfold width_of. intros H. apply find_some in H. destruct H as [Hin Hle].
  apply In_range in Hin. apply Z.leb_le in Hle. split; assumption.
Qed.

Lemma width_of_none len : width_of len = None -> 2 ^ 31 < len.
Proof.
  unfold width_of. intros H.
  pose proof (find_none _ _ H 31 (proj2 (In_range 0 32 31) ltac:(lia))) as Hk.
  cbv beta in Hk. apply Z.leb_gt in Hk. exact Hk.
Qed.

Lemma width_of_power n : 2 <= n <= 6 -> width_of (2 ^ n) = Some n.
Proof.
  intros Hn.
  assert (n = 2 \/ n = 3 \/ n = 4 \/ n = 5 \/ n = 6) as Hcases by lia.
  destruct Hcases as [->|[->|[->|[->| ->]]]]; vm_compute; reflexivity.
Qed.

Lemma cells_inv_start L n :
  cells_inv L 0 {| minterms := 0; dont_cares := 0; num_vars := n;
                   minterm_count := 0 |}.
Proof.
  unfold cells_inv. cbn [minterms dont_cares minterm_count].
  split; [lia|]. split; [lia|].
  split; [intros k Hk; rewrite Z.bits_0 in Hk; discriminate|].
  split; [intros k Hk; rewrite Z.bits_0 in Hk; discriminate|].
  split; reflexivity.
Qed.

(** What the binary parser answers on a pattern of [2^n] characters. *)
Lemma binary_string_parses (s : string) (n : Z) (t0 : truth_table_t) :
  2 <= n <= 6 -> strlen s = 2 ^ n -> strspn s "01Xx-" = strlen s ->
  exists t,
    parse_binary_string s t0 = Some (0, t)
    /\ valid_table t /\ num_vars t = n
    /\ forall j c, get j s = Some c ->
         Z.testbit (minterms t) (2 ^ n - 1 - Z.of_nat j) = Ascii.eqb c "1"
         /\ Z.testbit (dont_cares t) (2 ^ n - 1 - Z.of_nat j)
            = dont_care_char c.
Proof.
  intros Hn Hlen Hpat. pose proof (total_cells_bound n Hn) as Htot.
  unfold parse_binary_string. rewrite Hlen, (width_of_power n Hn).
  rewrite Z.eqb_refl. unfold MAX_VARIABLES.
  destruct (Z.ltb_spec n 2); [lia|]. destruct (Z.gtb_spec n 6); [lia|].
  cbn [negb orb].
  destruct (binary_cells_spec (2 ^ n) ltac:(lia) s 0
              {| minterms := 0; dont_cares := 0; num_vars := n;
                 minterm_count := 0 |} ltac:(lia) ltac:(lia) Hpat
              (cells_inv_start (2 ^ n) n))
    as (t & Hrun & (HM & HD & HMb & HDb & Hdis & Hcnt) & Hnv & _ & Hread).
  exists t. split; [rewrite Hrun; reflexivity|].
  cbn [num_vars] in Hnv. split; [|split; [exact Hnv|]].
  - unfold valid_table. rewrite Hnv.
    split; [exact Hn|]. split; [exact Hdis|].
    split; [|split; [|exact Hcnt]].
    + split; [exact HM|]. apply below_pow2; [lia|exact HM|].
      intros k Hk. destruct (Z.testbit (minterms t) k) eqn:E; [|reflexivity].
      apply HMb in E. lia.
    + split; [exact HD|]. apply below_pow2; [lia|exact HD|].
      intros k Hk. destruct (Z.testbit (dont_cares t) k) eqn:E; [|reflexivity].
      apply HDb in E. lia.
  - intros j c Hj. specialize (Hread j c Hj).
    replace (2 ^ n - 1 - (0 + Z.of_nat j)) with (2 ^ n - 1 - Z.of_nat j)
      in Hread by lia.
    exact Hread.
Qed.

(** X19.  The binary parser reads a pattern from its last character.  An
    input of [2^n] characters among 0, 1, X, x and -, for [n] from 2 to 6, is
    accepted; the table has [n] variables and satisfies the invariants of
    the validation, and the character of index [j] decides the cell
    [2^n - 1 - j]: a minterm for 1, a don't-care for X, x and -, neither for
    0. *)
Theorem binary_pattern_parses (s : string) (n : Z) (t0 : truth_table_t) :
  2 <= n <= 6 -> strlen s = 2 ^ n -> strspn s "01Xx-" = strlen s ->
  exists t,
    parse_input (Some s) (Some t0) = Some (0, Some t)
    /\ valid_table t /\ num_vars t = n
    /\ forall j c, get j s = Some c ->
         Z.testbit (minterms t) (2 ^ n - 1 - Z.of_nat j) = Ascii.eqb c "1"
         /\ Z.testbit (dont_cares t) (2 ^ n - 1 - Z.of_nat j)
            = dont_care_char c.
Proof.
  intros Hn Hlen Hpat. pose proof (total_cells_bound n Hn) as Htot.
  destruct (binary_string_parses s n zero_table Hn Hlen Hpat)
    as (t & Hrun & Hrest).
  exists t. split; [|exact Hrest].
  unfold parse_input. rewrite (pattern_no_space s Hpat).
  destruct (Z.eqb_spec (strlen s) 0); [lia|].
  rewrite (pattern_no_comma s Hpat), Hpat, Z.eqb_refl, Hrun. reflexivity.
Qed.

Lemma binary_pattern_parses_witness :
  2 <= 2 <= 6 /\ strlen "1X10" = 2 ^ 2
  /\ exists t,
       parse_input (Some "1X10"%string) (Some zero_table) = Some (0, Some t)
       /\ valid_table t /\ num_vars t = 2.
Proof.
  assert (2 <= 2 <= 6) as Hn by lia.
  assert (strlen "1X10" = 2 ^ 2) as Hlen by reflexivity.
  assert (strspn "1X10" "01Xx-" = strlen "1X10") as Hpat by reflexivity.
  split; [exact Hn|]. split; [exact Hlen|].
  destruct (binary_pattern_parses "1X10" 2 zero_table Hn Hlen Hpat)
    as (t & Hrun & Hv & Hnv & _).
  exists t. split; [exact Hrun|]. split; [exact Hv|exact Hnv].
Defined.

(** What a successful call of the binary parser returns, and when the
    parser has no answer. *)
Lemma binary_string_success (s : string) (t0 t : truth_table_t) :
  strspn s "01Xx-" = strlen s ->
  parse_binary_string s t0 = Some (0, t) ->
  2 <= num_vars t <= 6 /\ strlen s = 2 ^ num_vars t /\ valid_table t.
Proof.
  intros Hpat Hrun. pose proof Hrun as Hrun0.
  unfold parse_binary_string in Hrun.
  destruct (width_of (strlen s)) as [n|] eqn:Ew; [|discriminate].
  unfold MAX_VARIABLES in Hrun.
  destruct (Z.eqb_spec (2 ^ n) (strlen s)) as [Hlen|]; [|discriminate].
  destruct (Z.ltb_spec n 2); [discriminate|].
  destruct (Z.gtb_spec n 6); [discriminate|].
  assert (2 <= n <= 6) as Hn by lia.
  destruct (binary_string_parses s n t0 Hn (eq_sym Hlen) Hpat)
    as (t' & Hrun' & Hv & Hnv & _).
  rewrite Hrun' in Hrun0. injection Hrun0 as <-.
  rewrite Hnv. auto.
Qed.

Lemma binary_cells_codes (s : string) :
  forall L i t1 c t, binary_cells L i s t1 = (c, t) -> c = 0 \/ c = -1.
Proof.
  induction s as [|x s IH]; intros L i t1 c t; cbn [binary_cells].
  - intros H. injection H as <- _. left. reflexivity.
  - destruct (Ascii.eqb x "1"); [apply IH|].
    destruct (Ascii.eqb x "0"); [apply IH|].
    destruct (Ascii.eqb x "X" || Ascii.eqb x "x" || Ascii.eqb x "-");
      [apply IH|].
    intros H. injection H as <- _. right. reflexivity.
Qed.

Lemma binary_string_codes (s : string) (t0 : truth_table_t) c t :
  parse_binary_string s t0 = Some (c, t) -> c = 0 \/ c = -1.
Proof.
  unfold parse_binary_string.
  destruct (width_of (strlen s)) as [n|]; [|discriminate].
  destruct (negb (2 ^ n =? strlen s) || (n <? 2) || (n >? MAX_VARIABLES)).
  - intros H. injection H as <- _. right. reflexivity.
  - intros H. injection H as H. apply (binary_cells_codes _ _ _ _ _ _ H).
Qed.

(** X20.  Nothing else is a pattern.  When an input without comma is
    accepted, what follows its leading white space is [2^n] characters among
    0, 1, X, x and -, with [n] from 2 to 6 the number of variables of the
    table, which satisfies the invariants; and the parser has no answer, for
    a shift by 32, only on inputs of more than [2^31] characters. *)
Theorem binary_pattern_only (s : string) (t0 : truth_table_t) :
  strchr (skip_space s) "," = false ->
  (forall t,
     parse_input (Some s) (Some t0) = Some (0, Some t) ->
     2 <= num_vars t <= 6
     /\ strlen (skip_space s) = 2 ^ num_vars t
     /\ strspn (skip_space s) "01Xx-" = strlen (skip_space s)
     /\ valid_table t)
  /\ (parse_input (Some s) (Some t0) = None ->
      2 ^ 31 < strlen (skip_space s)).
Proof.
  intros Hcomma. unfold parse_input. rewrite Hcomma.
  destruct (Z.eqb_spec (strlen (skip_space s)) 0) as [|Hne];
    [split; [intros t|]; discriminate|].
  destruct (Z.eqb_spec (strspn (skip_space s) "01Xx-") (strlen (skip_space s)))
    as [Hpat|]; [|split; [intros t|]; discriminate].
  split.
  - intros t Hrun.
    destruct (parse_binary_string (skip_space s) zero_table) as [[c t']|] eqn:E;
      [|discriminate].
    cbn [option_map fst snd] in Hrun. injection Hrun as -> ->.
    destruct (binary_string_success _ _ _ Hpat E) as (Hn & Hlen & Hv). auto.
  - unfold parse_binary_string.
    destruct (width_of (strlen (skip_space s))) as [n|] eqn:Ew.
    + destruct (negb (2 ^ n =? strlen (skip_space s)) || (n <? 2)
                || (n >? MAX_VARIABLES)); discriminate.
    + intros _. apply width_of_none, Ew.
Qed.

Lemma binary_pattern_only_witness :
  strchr (skip_space " 0110") "," = false
  /\ exists t,
       parse_input (Some " 0110"%string) (Some zero_table) = Some (0, Some t)
       /\ strlen (skip_space " 0110") = 2 ^ num_vars t.
Proof.
  assert (strchr (skip_space " 0110") "," = false) as Hc by reflexivity.
  split; [exact Hc|].
  eexists. split; [vm_compute; reflexivity|].
  refine (proj1 (proj2 (proj1 (binary_pattern_only " 0110" zero_table Hc) _
                          _))).
  vm_compute. reflexivity.
Defined.

(** *** The list of minterms *)

Lemma MAX_CELLS_eq : MAX_CELLS = 64.
Proof. reflexivity. Qed.

Lemma token_ok_spec token :
  token_ok token = true ->
  strlen (snd (strtol (skip_space token))) = 0
  /\ 0 <= token_value token < 64.
Proof.
  unfold token_ok. rewrite MAX_CELLS_eq. intros H.
  apply andb_prop in H. destruct H as [H H3].
  apply andb_prop in H. destruct H as [H1 H2].
  apply Z.eqb_eq in H1. apply Z.leb_le in H2. apply Z.ltb_lt in H3. auto.
Qed.

(** The test of the loop is the negation of [token_ok]. *)
Lemma token_rejected token :
  negb (strlen (snd (strtol (skip_space token))) =? 0)
  || (fst (strtol (skip_space token)) <? 0)
  || (fst (strtol (skip_space token)) >=? MAX_CELLS)
  = negb (token_ok token).
Proof.
  unfold token_ok, token_value. rewrite MAX_CELLS_eq.
  generalize (fst (strtol (skip_space token))).
  generalize (strlen (snd (strtol (skip_space token)))).
  intros e v. rewrite Z.geb_leb.
  destruct (Z.eqb_spec e 0), (Z.ltb_spec v 0), (Z.leb_spec 64 v),
    (Z.leb_spec 0 v), (Z.ltb_spec v 64); cbn; try reflexivity; lia.
Qed.

Lemma u8_succ c k : u8 (u8 (c + 1) + k) = u8 (c + (1 + k)).
Proof.
  unfold u8. rewrite Z.add_mod_idemp_l by lia. f_equal. lia.
Qed.

(** The loop over tokens that are all taken. *)
Lemma minterm_tokens_ok toks :
  forallb token_ok toks = true ->
  forall t mx, 0 <= mx -> 0 <= minterm_count t < 256 ->
    exists mx',
      minterm_tokens toks t mx
      = (0,
         {| minterms := Z.lor (minterms t) (bits_of (map token_value toks));
            dont_cares := dont_cares t; num_vars := num_vars t;
            minterm_count :=
              u8 (minterm_count t + Z.of_nat (List.length toks)) |},
         mx')
      /\ mx <= mx'
      /\ (forall v, In v (map token_value toks) -> v <= mx')
      /\ (mx' = mx \/ In mx' (map token_value toks)).
Proof.
  induction toks as [|token toks IH]; intros Hok t mx Hmx Hc.
  - exists mx. cbn [minterm_tokens map bits_of fold_right List.length].
    split; [|split; [lia|split; [intros v []|left; reflexivity]]].
    rewrite Z.lor_0_r, Z.add_0_r. unfold u8. rewrite Z.mod_small by lia.
    destruct t; reflexivity.
  - cbn [forallb] in Hok. apply andb_prop in Hok. destruct Hok as [Hk Hok].
    destruct (token_ok_spec token Hk) as [_ Hv].
    cbn [minterm_tokens]. rewrite token_rejected, Hk. cbn [negb].
    fold (token_value token).
    assert (u8 (token_value token) = token_value token) as ->
      by (unfold u8; apply Z.mod_small; lia).
    set (mx1 := if token_value token >? mx then token_value token else mx).
    assert (mx1 = Z.max mx (token_value token)) as Hmx1.
    { unfold mx1. destruct (Z.gtb_spec (token_value token) mx); lia. }
    destruct (IH Hok
                {| minterms := Z.lor (minterms t) (bit (token_value token));
                   dont_cares := dont_cares t; num_vars := num_vars t;
                   minterm_count := u8 (minterm_count t + 1) |}
                mx1 ltac:(lia)
                ltac:(cbn [minterm_count]; unfold u8;
                      apply Z.mod_pos_bound; lia))
      as (mx' & Hrun & Hle & Hall & Hin).
    exists mx'. rewrite Hrun. cbn [minterms dont_cares num_vars minterm_count].
    split; [|split; [lia|split]].
    + cbn [map bits_of fold_right List.length].
      rewrite u8_succ, Z.lor_assoc, Nat2Z.inj_succ.
      replace (Z.succ (Z.of_nat (List.length toks)))
        with (1 + Z.of_nat (List.length toks)) by lia.
      reflexivity.
    + intros v [<-|Hv']; [lia|apply Hall, Hv'].
    + destruct Hin as [->|Hin]; [|right; right; exact Hin].
      destruct (Z.max_spec mx (token_value token)) as [[_ E]|[_ E]].
      * right. left. lia.
      * left. lia.
Qed.

(** The loop over tokens one of which is refused. *)
Lemma minterm_tokens_fail toks :
  forallb token_ok toks = false ->
  forall t mx,
    exists t' mx',
      minterm_tokens toks t mx = (-1, t', mx')
      /\ num_vars t' = num_vars t /\ dont_cares t' = dont_cares t.
Proof.
  induction toks as [|token toks IH]; intros Hok t mx; [discriminate|].
  cbn [forallb] in Hok. cbn [minterm_tokens]. rewrite token_rejected.
  destruct (token_ok token); cbn [negb andb] in *.
  - destruct (IH Hok
                {| minterms :=
                     Z.lor (minterms t)
                       (bit (u8 (fst (strtol (skip_space token)))));
                   dont_cares := dont_cares t; num_vars := num_vars t;
                   minterm_count := u8 (minterm_count t + 1) |}
                (if u8 (fst (strtol (skip_space token))) >? mx
                 then u8 (fst (strtol (skip_space token))) else mx))
      as (t' & mx' & Hrun & Hn & Hd).
    exists t', mx'. split; [exact Hrun|]. split; [exact Hn|exact Hd].
  - exists t, mx. split; [reflexivity|]. split; reflexivity.
Qed.

Lemma vars_of_all :
  forallb vars_of_ok (range 0 64) = true.
Proof. vm_compute. reflexivity. Qed.

(** The number of variables that the loop finds for a highest minterm. *)
Lemma vars_of_spec mx :
  0 <= mx < 64 ->
  exists n, vars_of mx = Some n /\ 2 <= n <= 6 /\ mx < 2 ^ n
            /\ (n = 2 \/ 2 ^ (n - 1) <= mx).
Proof.
  intros Hmx. pose proof (range_forallb 0 64 _ vars_of_all mx Hmx) as H.
  unfold vars_of_ok in H. destruct (vars_of mx) as [n|]; [|discriminate].
  exists n. split; [reflexivity|].
  apply andb_prop in H. destruct H as [H H4].
  apply andb_prop in H. destruct H as [H H3].
  apply andb_prop in H. destruct H as [H1 H2].
  apply Z.leb_le in H1, H2. apply Z.ltb_lt in H3.
  split; [lia|]. split; [exact H3|].
  apply orb_prop in H4. destruct H4 as [H4|H4];
    [left; apply Z.eqb_eq, H4|right; apply Z.leb_le, H4].
Qed.

Lemma testbit_bits_of l i :
  (forall v, In v l -> 0 <= v) ->
  Z.testbit (bits_of l) i = existsb (Z.eqb i) l.
Proof.
  induction l as [|v l IH]; intros Hl.
  - cbn [bits_of fold_right existsb]. apply Z.bits_0.
  - change (bits_of (v :: l)) with (Z.lor (bit v) (bits_of l)).
    cbn [existsb]. rewrite Z.lor_spec, testbit_bit, (Z.eqb_sym v i)
      by (apply Hl; left; reflexivity).
    f_equal. apply IH. intros w Hw. apply Hl. right. exact Hw.
Qed.

Lemma bits_of_nonneg l : (forall v, In v l -> 0 <= v) -> 0 <= bits_of l.
Proof.
  induction l as [|v l IH]; intros Hl; [cbn; lia|].
  change (bits_of (v :: l)) with (Z.lor (bit v) (bits_of l)).
  apply Z.lor_nonneg. split.
  - unfold bit. rewrite Z.shiftl_1_l. apply Z.pow_nonneg. lia.
  - apply IH. intros w Hw. apply Hl. right. exact Hw.
Qed.

Lemma bits_of_below l k :
  0 <= k -> (forall v, In v l -> 0 <= v < k) -> 0 <= bits_of l < 2 ^ k.
Proof.
  intros Hk Hl.
  assert (0 <= bits_of l) as Hpos
    by (apply bits_of_nonneg; intros v Hv; apply Hl in Hv; lia).
  split; [exact Hpos|]. apply below_pow2; [exact Hk|exact Hpos|].
  intros i Hi. rewrite testbit_bits_of
    by (intros v Hv; apply Hl in Hv; lia).
  destruct (existsb (Z.eqb i) l) eqn:E; [|reflexivity].
  apply existsb_exists in E. destruct E as (v & Hv & Heq).
  apply Z.eqb_eq in Heq. subst v. apply Hl in Hv. lia.
Qed.

(** What a successful call of the list parser returns. *)
Lemma minterm_list_success s t0 t :
  parse_minterm_list s t0 = Some (0, t) ->
  forallb token_ok (tokens s) = true
  /\ minterms t = bits_of (map token_value (tokens s))
  /\ dont_cares t = 0
  /\ minterm_count t = u8 (Z.of_nat (List.length (tokens s)))
  /\ 2 <= num_vars t <= 6
  /\ (forall v, In v (map token_value (tokens s)) ->
                0 <= v < 2 ^ num_vars t)
  /\ (num_vars t = 2
      \/ exists v, In v (map token_value (tokens s))
                   /\ 2 ^ (num_vars t - 1) <= v).
Proof.
  unfold parse_minterm_list. intros Hrun.
  destruct (forallb token_ok (tokens s)) eqn:Hok.
  2:{ destruct (minterm_tokens_fail (tokens s) Hok
                  {| minterms := 0; dont_cares := 0; num_vars := num_vars t0;
                     minterm_count := 0 |} 0) as (t' & mx' & E & _).
      rewrite E in Hrun. discriminate. }
  split; [reflexivity|].
  assert (forall v, In v (map token_value (tokens s)) -> 0 <= v < 64) as Hvals.
  { intros v Hv. apply in_map_iff in Hv. destruct Hv as (tk & <- & Htk).
    rewrite forallb_forall in Hok. apply (token_ok_spec tk (Hok tk Htk)). }
  destruct (minterm_tokens_ok (tokens s) Hok
              {| minterms := 0; dont_cares := 0; num_vars := num_vars t0;
                 minterm_count := 0 |} 0 ltac:(lia)
              ltac:(cbn [minterm_count]; lia))
    as (mx & E & Hle & Hall & Hin).
  cbn [minterms dont_cares num_vars minterm_count] in E.
  rewrite E in Hrun.
  assert (0 <= mx < 64) as Hmx.
  { destruct Hin as [->|Hin]; [lia|]. apply Hvals, Hin. }
  destruct (vars_of_spec mx Hmx) as (n & En & Hn & Hlt & Hmin).
  rewrite En in Hrun. unfold MAX_VARIABLES in Hrun.
  destruct (Z.gtb_spec n 6); [lia|]. injection Hrun as <-.
  cbn [minterms dont_cares num_vars minterm_count].
  split; [reflexivity|]. split; [reflexivity|]. split; [reflexivity|].
  split; [exact Hn|]. split.
  - intros v Hv. pose proof (Hall v Hv). pose proof (Hvals v Hv). lia.
  - destruct Hmin as [->|Hmin]; [left; reflexivity|].
    destruct Hin as [->|Hin].
    + left. assert (2 ^ (n - 1) <= 0) as H0 by lia.
      pose proof (Z.pow_pos_nonneg 2 (n - 1) ltac:(lia) ltac:(lia)). lia.
    + right. exists mx. split; assumption.
Qed.

(** X21.  The list parser in terms of its tokens, the runs between commas
    that are not empty.  It always answers.  When every token, after its
    leading white space, is read by [strtol] to its end as a number from 0 to
    63, the list is accepted: the minterms are the numbers read, there is no
    don't-care, the count is the number of tokens on a byte, and the number
    of variables is the least from 2 that holds the highest number, never
    more than 6.  When a token is refused the answer is -1, which is
    therefore never that of the check on the number of variables. *)
Theorem minterm_list_reads (s : string) (t0 : truth_table_t) :
  (forallb token_ok (tokens s) = true ->
   exists t,
     parse_minterm_list s t0 = Some (0, t)
     /\ minterms t = bits_of (map token_value (tokens s))
     /\ dont_cares t = 0
     /\ minterm_count t = u8 (Z.of_nat (List.length (tokens s)))
     /\ 2 <= num_vars t <= 6
     /\ (forall v, In v (map token_value (tokens s)) ->
                   0 <= v < 2 ^ num_vars t)
     /\ (num_vars t = 2
         \/ exists v, In v (map token_value (tokens s))
                      /\ 2 ^ (num_vars t - 1) <= v))
  /\ (forallb token_ok (tokens s) = false ->
      exists t, parse_minterm_list s t0 = Some (-1, t)
                /\ num_vars t = num_vars t0).
Proof.
  split; intros Hok.
  - assert (exists t, parse_minterm_list s t0 = Some (0, t)) as [t Hrun].
    { unfold parse_minterm_list.
      destruct (minterm_tokens_ok (tokens s) Hok
                  {| minterms := 0; dont_cares := 0; num_vars := num_vars t0;
                     minterm_count := 0 |} 0 ltac:(lia)
                  ltac:(cbn [minterm_count]; lia))
        as (mx & E & Hle & Hall & Hin).
      rewrite E.
      assert (0 <= mx < 64) as Hmx.
      { destruct Hin as [->|Hin]; [lia|].
        apply in_map_iff in Hin. destruct Hin as (tk & <- & Htk).
        rewrite forallb_forall in Hok. apply (token_ok_spec tk (Hok tk Htk)). }
      destruct (vars_of_spec mx Hmx) as (n & En & Hn & _).
      rewrite En. unfold MAX_VARIABLES.
      destruct (Z.gtb_spec n 6); [lia|]. eexists. reflexivity. }
    exists t. split; [exact Hrun|].
    apply (minterm_list_success s t0 t Hrun).
  - unfold parse_minterm_list.
    destruct (minterm_tokens_fail (tokens s) Hok
                {| minterms := 0; dont_cares := 0; num_vars := num_vars t0;
                   minterm_count := 0 |} 0) as (t' & mx' & E & Hn & _).
    rewrite E. exists t'. split; [reflexivity|exact Hn].
Qed.

Lemma minterm_list_reads_witness :
  forallb token_ok (tokens "1, ,3,+5") = true
  /\ exists t,
       parse_minterm_list "1, ,3,+5" zero_table = Some (0, t)
       /\ minterms t = bits_of (map token_value (tokens "1, ,3,+5")).
Proof.
  assert (forallb token_ok (tokens "1, ,3,+5") = true) as Hok
    by (vm_compute; reflexivity).
  split; [exact Hok|].
  destruct (proj1 (minterm_list_reads "1, ,3,+5" zero_table) Hok)
    as (t & Hrun & HM & _).
  exists t. split; [exact Hrun|exact HM].
Defined.

Lemma popcount_bits_of l :
  (forall v, In v l -> 0 <= v < 64) ->
  popcount (bits_of l) <= Z.of_nat (List.length l)
  /\ (NoDup l <-> popcount (bits_of l) = Z.of_nat (List.length l)).
Proof.
  induction l as [|v l IH]; intros Hl.
  - cbn [bits_of fold_right List.length].
    assert (popcount 0 = 0) as -> by reflexivity.
    split; [cbn; lia|]. split; [reflexivity|constructor].
  - assert (forall w, In w l -> 0 <= w < 64) as Hl'
      by (intros w Hw; apply Hl; right; exact Hw).
    assert (0 <= v < 64) as Hv by (apply Hl; left; reflexivity).
    destruct (IH Hl') as [IHle IHiff].
    change (bits_of (v :: l)) with (Z.lor (bit v) (bits_of l)).
    rewrite Z.lor_comm, length_cons, Nat2Z.inj_succ.
    pose proof (testbit_bits_of l v
                  (fun w Hw => proj1 (Hl' w Hw))) as Hbit.
    destruct (existsb (Z.eqb v) l) eqn:Ein.
    + assert (In v l) as Hin.
      { apply existsb_exists in Ein. destruct Ein as (w & Hw & E).
        apply Z.eqb_eq in E. subst w. exact Hw. }
      assert (Z.lor (bits_of l) (bit v) = bits_of l) as ->.
      { apply Z.bits_inj'. intros k Hk. rewrite Z.lor_spec, testbit_bit by lia.
        destruct (Z.eqb_spec v k) as [<-|]; [|apply orb_false_r].
        rewrite Hbit. reflexivity. }
      split; [lia|]. split; [|lia].
      intros Hnd. apply NoDup_cons_iff in Hnd. tauto.
    + assert (~ In v l) as Hnin.
      { intros Hin. assert (existsb (Z.eqb v) l = true) as E; [|congruence].
        apply existsb_exists. exists v. split; [exact Hin|apply Z.eqb_refl]. }
      rewrite (popcount_set _ v Hv Hbit).
      split; [lia|]. rewrite NoDup_cons_iff. split.
      * intros [_ Hnd]. apply IHiff in Hnd. lia.
      * intros E. split; [exact Hnin|]. apply IHiff. lia.
Qed.

(** X22.  A number given twice spoils the table.  When a list of fewer than
    256 tokens is accepted, the table satisfies the invariants of the
    validation exactly when the numbers read are all different; with a
    repeated number the declared count exceeds the population count and, up
    to five variables, [validate_truth_table] answers false. *)
Theorem repeated_minterm_never_valid (s : string) (t0 t : truth_table_t) :
  parse_minterm_list s t0 = Some (0, t) ->
  (List.length (tokens s) < 256)%nat ->
  (valid_table t <-> NoDup (map token_value (tokens s)))
  /\ (~ NoDup (map token_value (tokens s)) ->
      popcount (minterms t) < minterm_count t
      /\ forall sm, num_vars t <= 5 ->
           validate_truth_table sm (Some t) = Some false).
Proof.
  intros Hrun Hlen.
  destruct (minterm_list_success s t0 t Hrun)
    as (Hok & HM & HD & Hcnt & Hn & Hdom & _).
  assert (forall v, In v (map token_value (tokens s)) -> 0 <= v < 64) as Hvals.
  { intros v Hv. apply in_map_iff in Hv. destruct Hv as (tk & <- & Htk).
    rewrite forallb_forall in Hok. apply (token_ok_spec tk (Hok tk Htk)). }
  destruct (popcount_bits_of _ Hvals) as [Hle Hiff].
  rewrite length_map, <- HM in Hle, Hiff.
  assert (minterm_count t = Z.of_nat (List.length (tokens s))) as Hcnt'.
  { rewrite Hcnt. unfold u8. apply Z.mod_small. lia. }
  pose proof (total_cells_bound _ Hn) as Htot.
  assert (0 <= minterms t < 2 ^ 2 ^ num_vars t) as HMd
    by (rewrite HM; apply bits_of_below; [lia|exact Hdom]).
  assert (valid_table t <-> NoDup (map token_value (tokens s))) as Hvalid.
  { rewrite Hiff, <- Hcnt'. unfold valid_table. rewrite HD, Z.land_0_r.
    assert (0 < 2 ^ 2 ^ num_vars t)
      by (apply Z.pow_pos_nonneg; [lia|apply Z.pow_nonneg; lia]).
    split; [intros (_ & _ & _ & _ & E); lia|].
    intros E. split; [exact Hn|]. split; [reflexivity|].
    split; [exact HMd|]. split; [lia|lia]. }
  split; [exact Hvalid|].
  intros Hdup. split.
  - destruct (Z.eq_dec (popcount (minterms t))
                (Z.of_nat (List.length (tokens s)))) as [E|Hne]; [|lia].
    exfalso. apply Hdup, Hiff, E.
  - intros sm H5. rewrite validate_small_eq by lia.
    destruct (_ && _) eqn:E; [|reflexivity].
    exfalso. apply Hdup, Hvalid.
    assert (2 ^ 2 ^ num_vars t <= 2 ^ 64)
      by (apply Z.pow_le_mono_r; lia).
    apply (validate_sound sm); [lia|rewrite HD; lia|].
    rewrite validate_small_eq by lia. rewrite E. reflexivity.
Qed.

Lemma repeated_minterm_never_valid_witness :
  parse_minterm_list "1,3,1" zero_table
  = Some (0, {| minterms := 10; dont_cares := 0; num_vars := 2;
                minterm_count := 3 |})
  /\ (List.length (tokens "1,3,1") < 256)%nat
  /\ validate_truth_table C_undefined
       (Some {| minterms := 10; dont_cares := 0; num_vars := 2;
                minterm_count := 3 |}) = Some false.
Proof.
  assert (parse_minterm_list "1,3,1" zero_table
          = Some (0, {| minterms := 10; dont_cares := 0; num_vars := 2;
                        minterm_count := 3 |})) as Hrun
    by (vm_compute; reflexivity).
  assert (List.length (tokens "1,3,1") < 256)%nat as Hlen
    by (vm_compute; lia).
  split; [exact Hrun|]. split; [exact Hlen|].
  apply (proj2 (proj2 (repeated_minterm_never_valid "1,3,1" zero_table _
                         Hrun Hlen)
                  ltac:(vm_compute; intros H; inversion H as [|? ? Hn _];
                        apply Hn; right; left; reflexivity))).
  cbn. lia.
Defined.

(** *** The main solving function *)

Lemma minterm_list_codes (s : string) (t0 : truth_table_t) c t :
  parse_minterm_list s t0 = Some (c, t) -> c = 0 \/ c = -1.
Proof.
  unfold parse_minterm_list.
  destruct (forallb token_ok (tokens s)) eqn:Hok.
  - destruct (minterm_tokens_ok (tokens s) Hok
                {| minterms := 0; dont_cares := 0; num_vars := num_vars t0;
                   minterm_count := 0 |} 0 ltac:(lia)
                ltac:(cbn [minterm_count]; lia)) as (mx & E & _).
    rewrite E. destruct (vars_of mx) as [n|]; [|discriminate].
    destruct (n >? MAX_VARIABLES); intros H; injection H as <- _; auto.
  - destruct (minterm_tokens_fail (tokens s) Hok
                {| minterms := 0; dont_cares := 0; num_vars := num_vars t0;
                   minterm_count := 0 |} 0) as (t' & mx' & E & _).
    rewrite E. intros H. injection H as <- _. right. reflexivity.
Qed.

(** The codes of [parse_input], which always leaves a table. *)
Lemma parse_input_codes (s : string) (t0 : truth_table_t) c table :
  parse_input (Some s) (Some t0) = Some (c, table) ->
  (c = 0 \/ c = -1) /\ exists t, table = Some t.
Proof.
  unfold parse_input.
  destruct (strlen (skip_space s) =? 0).
  { intros H. injection H as <- <-. split; [auto|eexists; reflexivity]. }
  destruct (strchr (skip_space s) ",").
  { destruct (parse_minterm_list (skip_space s) zero_table) as [[c' t']|] eqn:E;
      [|discriminate].
    cbn [option_map fst snd]. intros H. injection H as <- <-.
    split; [apply (minterm_list_codes _ _ _ _ E)|eexists; reflexivity]. }
  destruct (strspn (skip_space s) "01Xx-" =? strlen (skip_space s)).
  { destruct (parse_binary_string (skip_space s) zero_table) as [[c' t']|] eqn:E;
      [|discriminate].
    cbn [option_map fst snd]. intros H. injection H as <- <-.
    split; [apply (binary_string_codes _ _ _ _ E)|eexists; reflexivity]. }
  intros H. injection H as <- <-. split; [auto|eexists; reflexivity].
Qed.

(** Every table that [parse_input] accepts has 2 to 6 variables and its
    cells inside the domain. *)
Lemma parse_input_domain (s : string) (t0 t : truth_table_t) :
  parse_input (Some s) (Some t0) = Some (0, Some t) ->
  2 <= num_vars t <= 6
  /\ 0 <= minterms t < 2 ^ 2 ^ num_vars t
  /\ 0 <= dont_cares t < 2 ^ 2 ^ num_vars t.
Proof.
  unfold parse_input.
  destruct (strlen (skip_space s) =? 0); [discriminate|].
  destruct (strchr (skip_space s) ",").
  { destruct (parse_minterm_list (skip_space s) zero_table) as [[c' t']|] eqn:E;
      [|discriminate].
    cbn [option_map fst snd]. intros H. injection H as -> ->.
    destruct (minterm_list_success _ _ _ E)
      as (_ & HM & HD & _ & Hn & Hdom & _).
    pose proof (total_cells_bound _ Hn).
    split; [exact Hn|]. split.
    - rewrite HM. apply bits_of_below; [lia|exact Hdom].
    - rewrite HD. split; [lia|].
      apply Z.pow_pos_nonneg; [lia|apply Z.pow_nonneg; lia]. }
  destruct (Z.eqb_spec (strspn (skip_space s) "01Xx-") (strlen (skip_space s)))
    as [Hpat|]; [|discriminate].
  destruct (parse_binary_string (skip_space s) zero_table) as [[c' t']|] eqn:E;
    [|discriminate].
  cbn [option_map fst snd]. intros H. injection H as -> ->.
  destruct (binary_string_success _ _ _ Hpat E) as (Hn & _ & Hv).
  destruct Hv as (_ & _ & HM & HD & _). auto.
Qed.

Lemma domain_word n : 2 <= n <= 6 -> 2 ^ 2 ^ n <= 2 ^ 64.
Proof.
  intros Hn. pose proof (total_cells_bound n Hn).
  apply Z.pow_le_mono_r; lia.
Qed.

(** The shift of the test for the constant 1, up to five variables. *)
Lemma shl64_domain sm n :
  2 <= n <= 5 ->
  shl64 sm 1 (Z.shiftl 1 n) = Some (2 ^ 2 ^ n)
  /\ (2 ^ 2 ^ n - 1) mod 2 ^ 64 = 2 ^ 2 ^ n - 1.
Proof.
  intros Hn. pose proof (domain_pow_small n Hn) as Hpow.
  assert (4 <= 2 ^ n <= 32) as Hb.
  { split.
    - change 4 with (2 ^ 2). apply Z.pow_le_mono_r; lia.
    - change 32 with (2 ^ 5). apply Z.pow_le_mono_r; lia. }
  unfold shl64. rewrite total_cells_eq by lia.
  destruct (Z.ltb_spec (2 ^ n) 64); [|lia].
  rewrite Z.mul_1_l, !Z.mod_small by lia. split; reflexivity.
Qed.

(** A table with a minterm that the validation accepts has at most five
    variables. *)
Lemma validated_small sm t :
  valid_table t -> validate_truth_table sm (Some t) = Some true ->
  minterm_count t <> 0 -> num_vars t <= 5.
Proof.
  intros Hv Hval Hne. pose proof Hv as (Hn & Hdis & HM & HD & Hcnt).
  destruct (Z_le_gt_dec (num_vars t) 5) as [|Hgt]; [assumption|exfalso].
  assert (num_vars t = 6) as H6 by lia.
  destruct (valid_table_word t Hv) as [HM64 HD64].
  destruct (validate_six t H6) as [Hc Hm].
  destruct sm; [congruence|].
  rewrite Hm in Hval; [discriminate|exact Hdis|apply lor_word; assumption|].
  intros Hz. apply Z.lor_eq_0_iff in Hz. destruct Hz as [Hz _].
  rewrite Hz in Hcnt. change (popcount 0) with 0 in Hcnt. lia.
Qed.

Lemma strncpy_short (c : ascii) (len : Z) :
  2 <= len ->
  strncpy_terminated (String c EmptyString) len = String c EmptyString.
Proof.
  intros Hlen. unfold strncpy_terminated.
  destruct (Z.to_nat (len - 1)) as [|k] eqn:E; [lia|].
  cbn. destruct k; reflexivity.
Qed.

(** X23.  The main function with a buffer of 273 bytes or more.  Whenever
    it answers, the code is 0, -1 or -2, never the -3 of a buffer too small
    nor that of a solution refused by [validate_solution]; on -1 and -2 the
    buffer is left as it was; on 0 the input was parsed into a table that
    satisfies the invariants, and the buffer holds 0 when the table has no
    minterm, 1 when every cell is a minterm, and otherwise the complete
    expression of the solution that [find_prime_implicants] gives. *)
Theorem solve_kmap_large_buffer (sm : shift_model) (s before : string)
    (len code : Z) (out : option string) :
  273 <= len ->
  solve_kmap sm (Some s) (Some before) len = Some (code, out) ->
  (code = 0 \/ code = -1 \/ code = -2)
  /\ (code <> 0 -> out = Some before)
  /\ (code = 0 ->
      exists t,
        parse_input (Some s) (Some zero_table) = Some (0, Some t)
        /\ valid_table t
        /\ ((minterm_count t = 0 /\ out = Some "0"%string)
            \/ (minterm_count t <> 0
                /\ minterms t = 2 ^ 2 ^ num_vars t - 1
                /\ out = Some "1"%string)
            \/ (minterm_count t <> 0
                /\ minterms t <> 2 ^ 2 ^ num_vars t - 1
                /\ exists sol,
                     find_prime_implicants sm (Some t) (Some zero_solution)
                     = Some (0, Some sol)
                     /\ out = Some (expression (num_vars t)
                                      (implicants sol))))).
Proof.
  intros Hlen. unfold solve_kmap.
  destruct (Z.leb_spec len 0) as [|_]; [lia|].
  destruct (parse_input (Some s) (Some zero_table)) as [[result table]|] eqn:Ep;
    [|discriminate].
  destruct (parse_input_codes _ _ _ _ Ep) as [Hcodes [t ->]].
  destruct (Z.eqb_spec result 0) as [->|Hres]; cbn [negb].
  2:{ intros H. injection H as <- <-.
      split; [lia|]. split; [reflexivity|]. intros; lia. }
  destruct (parse_input_domain _ _ _ Ep) as (Hn & HM & HD).
  pose proof (domain_word _ Hn) as Hword.
  destruct (validate_truth_table sm (Some t)) as [[|]|] eqn:Hval;
    [|intros H; injection H as <- <-;
      split; [lia|]; split; [reflexivity|]; intros; lia
     |discriminate].
  assert (valid_table t) as Hv by (apply (validate_sound sm); [lia|lia|exact Hval]).
  destruct (Z.eqb_spec (minterm_count t) 0) as [H0|H0].
  { intros H. injection H as <- <-. rewrite strncpy_short by lia.
    split; [auto|]. split; [intros; lia|]. intros _.
    exists t. split; [reflexivity|]. split; [exact Hv|]. left. auto. }
  pose proof (validated_small sm t Hv Hval H0) as H5.
  destruct (shl64_domain sm (num_vars t) ltac:(lia)) as [-> ->].
  destruct (Z.eqb_spec (minterms t) (2 ^ 2 ^ num_vars t - 1)) as [Hall|Hall].
  { intros H. injection H as <- <-. rewrite strncpy_short by lia.
    split; [auto|]. split; [intros; lia|]. intros _.
    exists t. split; [reflexivity|]. split; [exact Hv|]. right. left. auto. }
  assert (exists sol, find_prime_implicants sm (Some t) (Some zero_solution)
                      = Some (0, Some sol)) as [sol Hrun].
  { unfold find_prime_implicants. rewrite Hval.
    destruct (minterm_count t =? 0); [eexists; reflexivity|].
    destruct (minterm_count t =? 1); eexists; reflexivity. }
  rewrite Hrun. cbn [Z.eqb negb].
  destruct (solution_shapes sm t zero_solution sol Hv Hrun) as [_ Hcov].
  unfold validate_solution. rewrite Hval, Hcov, Z.eqb_refl.
  assert (implicants sol <> []) as Hne.
  { intros E. rewrite E in Hcov. change (covered_union []) with 0 in Hcov.
    destruct Hv as (_ & _ & _ & _ & Hcnt).
    rewrite <- Hcov in Hcnt. change (popcount 0) with 0 in Hcnt. lia. }
  pose proof (RenderBounds.solution_expression_short sm t zero_solution sol
                Hv Hrun)
    as Hshort.
  rewrite (RenderBounds.render_complete sol (num_vars t) len before Hne)
    by lia.
  intros H. injection H as <- <-.
  split; [auto|]. split; [intros; lia|]. intros _.
  exists t. split; [reflexivity|]. split; [exact Hv|]. right. right.
  split; [exact H0|]. split; [exact Hall|]. exists sol. auto.
Qed.

Lemma solve_kmap_large_buffer_witness :
  273 <= 512
  /\ solve_kmap C_undefined (Some "1X1X"%string) (Some EmptyString) 512
     = Some (0, Some "A"%string)
  /\ exists t,
       parse_input (Some "1X1X"%string) (Some zero_table) = Some (0, Some t)
       /\ valid_table t.
Proof.
  assert (273 <= 512) as Hlen by lia.
  assert (solve_kmap C_undefined (Some "1X1X"%string) (Some EmptyString) 512
          = Some (0, Some "A"%string)) as Hrun by (vm_compute; reflexivity).
  split; [exact Hlen|]. split; [exact Hrun|].
  destruct (proj2 (proj2 (solve_kmap_large_buffer C_undefined "1X1X"
                            EmptyString 512 0 (Some "A"%string) Hlen Hrun))
              eq_refl) as (t & Hp & Hv & _).
  exists t. split; [exact Hp|exact Hv].
Defined.

(** X24.  No input with six variables is solved.  When the input is parsed
    into a table of six variables, a pattern of 64 characters or a list with
    a number from 32 up, the main function shifts a 64-bit one by 64 in the
    validation: it has no answer in C, and with the count taken modulo 64 it
    answers -2 and leaves the buffer, unless the table has no cell at all,
    where it answers 0 with the text 0. *)
Theorem six_variable_inputs_unsolved (s before : string) (len : Z)
    (t : truth_table_t) :
  0 < len ->
  parse_input (Some s) (Some zero_table) = Some (0, Some t) ->
  num_vars t = 6 ->
  solve_kmap C_undefined (Some s) (Some before) len = None
  /\ (Z.lor (minterms t) (dont_cares t) <> 0 ->
      solve_kmap Count_mod_64 (Some s) (Some before) len
      = Some (-2, Some before))
  /\ (Z.lor (minterms t) (dont_cares t) = 0 ->
      solve_kmap Count_mod_64 (Some s) (Some before) len
      = Some (if minterm_count t =? 0
              then (0, Some (strncpy_terminated "0" len))
              else (-2, Some before))).
Proof.
  intros Hlen Ep H6.
  destruct (parse_input_domain _ _ _ Ep) as (Hn & HM & HD).
  pose proof (domain_word _ Hn) as Hword.
  destruct (validate_six t H6) as [Hc Hm].
  unfold solve_kmap. rewrite Ep.
  destruct (Z.leb_spec len 0) as [|_]; [lia|]. cbn [Z.eqb negb].
  rewrite Hc. split; [reflexivity|]. split.
  - intros Hnz.
    destruct (Z.eq_dec (Z.land (minterms t) (dont_cares t)) 0) as [Hdis|Hdis].
    + rewrite Hm; [reflexivity|exact Hdis|apply lor_word; lia|exact Hnz].
    + unfold validate_truth_table. rewrite H6.
      change ((6 <? 2) || (6 >? MAX_VARIABLES)) with false.
      change (shl64 Count_mod_64 1 (Z.shiftl 1 6)) with (Some 1).
      cbv iota. apply Z.eqb_neq in Hdis. rewrite Hdis. reflexivity.
  - intros Hz. apply Z.lor_eq_0_iff in Hz. destruct Hz as [HM0 HD0].
    unfold validate_truth_table. rewrite H6, HM0, HD0.
    change ((6 <? 2) || (6 >? MAX_VARIABLES)) with false.
    change (shl64 Count_mod_64 1 (Z.shiftl 1 6)) with (Some 1).
    cbv iota. change (popcount 0) with 0.
    change (negb (Z.land 0 0 =? 0)) with false.
    change (negb (Z.land (Z.lor 0 0) (not64 ((1 - 1) mod 2 ^ 64)) =? 0))
      with false.
    cbv iota.
    destruct (minterm_count t =? 0); reflexivity.
Qed.

Lemma six_variable_inputs_unsolved_witness :
  0 < 512
  /\ parse_input (Some "0,63"%string) (Some zero_table)
     = Some (0, Some {| minterms := bits_of [0; 63]; dont_cares := 0;
                        num_vars := 6; minterm_count := 2 |})
  /\ solve_kmap C_undefined (Some "0,63"%string) (Some EmptyString) 512 = None.
Proof.
  assert (0 < 512) as Hlen by lia.
  assert (parse_input (Some "0,63"%string) (Some zero_table)
          = Some (0, Some {| minterms := bits_of [0; 63]; dont_cares := 0;
                             num_vars := 6; minterm_count := 2 |})) as Hp
    by (vm_compute; reflexivity).
  split; [exact Hlen|]. split; [exact Hp|].
  exact (proj1 (six_variable_inputs_unsolved "0,63" EmptyString 512 _ Hlen Hp
                  eq_refl)).
Defined.

End FrontFacts.
